(** * Neural-Illumination: a shallow embedding of the application logic

    The repository is a React / three.js front-end.  The parts that carry
    logic are embedded here:

    - [JS]          : JavaScript strings as sequences of UTF-16 code units,
                      with the string built-ins the sources call;
    - [Voice]       : the voice-command effect of [Experience.tsx];
    - [Mood]        : [MoodService.analyzeMood];
    - [App]         : the environment state and its transitions ([App.tsx]),
                      and the room selection of [Experience.tsx];
    - [IEEE754]     : the numbers of JavaScript: binary64 arithmetic with
                      rounding to nearest, and the binary32 values of a
                      [Float32Array];
    - [Scene]       : the randomized instance placement of [IcelandRoom.tsx]
                      and of [RainforestRoom];
    - [Pipeline]    : the promises of several voice commands settling;
    - [Assist]      : the assistance mode of [Experience.tsx];
    - [Rooms]       : the other placement loops ([NatureRoom.tsx],
                      [DesertRoom.tsx], the trees and the rain of
                      [RainforestRoom]). *)

From Stdlib Require Import NArith ZArith QArith Qround Qabs Qpower Qreduction.
From Stdlib Require Import List Ascii String Bool Lia Lqa.
From stdpp Require Import base option list gmap.
Import ListNotations.

Set Warnings "-register-all".
Local Open Scope N_scope.

(* ===================================================================== *)
(** ** JavaScript strings *)
(* ===================================================================== *)

Module JS.

(** A JavaScript string is a finite sequence of 16-bit code units. *)
Abbreviation jsstring := (list N).

(** ASCII literals of the sources, as code units. *)
Fixpoint lit (s : string) : jsstring :=
  match s with
  | EmptyString => []
  | String c r => N_of_ascii c :: lit r
  end.

(** The double quote character, U+0022. *)
Definition dquote : N := 34.

(** [===] on strings. *)
Definition str_eqb (a b : jsstring) : bool := bool_decide (a = b).

(** WhiteSpace and LineTerminator code units of ECMAScript: the class [\s]
    of regular expressions, which is also what [trim] removes. *)
Definition isWhiteSpace (c : N) : bool :=
  (c =? 9) || (c =? 10) || (c =? 11) || (c =? 12) || (c =? 13) || (c =? 32)
  || (c =? 160) || (c =? 0x1680)
  || ((0x2000 <=? c) && (c <=? 0x200A))
  || (c =? 0x2028) || (c =? 0x2029) || (c =? 0x202F) || (c =? 0x205F)
  || (c =? 0x3000) || (c =? 0xFEFF).

Fixpoint trimStart (s : jsstring) : jsstring :=
  match s with
  | c :: r => if isWhiteSpace c then trimStart r else s
  | [] => []
  end.

Definition trimEnd (s : jsstring) : jsstring := rev (trimStart (rev s)).

(** [String.prototype.trim]. *)
Definition trim (s : jsstring) : jsstring := trimEnd (trimStart s).

(** [after p s] is what follows [p] when [s] starts with [p]. *)
Fixpoint after (p s : jsstring) : option jsstring :=
  match p, s with
  | [], _ => Some s
  | a :: p', b :: s' => if a =? b then after p' s' else None
  | _ :: _, [] => None
  end.

(** [String.prototype.startsWith]. *)
Definition startsWith (s p : jsstring) : bool :=
  match after p s with Some _ => true | None => false end.

(** [String.prototype.toLowerCase] restricted to the Basic Latin block:
    a code unit in [A-Z] becomes the one in [a-z], ASCII code units
    otherwise stay.  The developments below take the lowercasing function
    as a parameter and use this one on ASCII inputs. *)
Definition lower_unit (c : N) : N :=
  if (65 <=? c) && (c <=? 90) then c + 32 else c.

Definition toLowerCase_ascii (s : jsstring) : jsstring := map lower_unit s.

(** The regular-expression atom [\s+]: one white space at least, then
    greedily all that follow. *)
Definition spaces1 (s : jsstring) : option jsstring :=
  match s with
  | c :: r => if isWhiteSpace c then Some (trimStart r) else None
  | [] => None
  end.

(** The optional group [(w\s+)?]: taken whenever it matches. *)
Definition optWord (w s : jsstring) : jsstring :=
  match after w s with
  | Some r => match spaces1 r with Some r' => r' | None => s end
  | None => s
  end.

(** [String.prototype.split] on a one-unit separator. *)
Fixpoint split (sep : N) (s : jsstring) : list jsstring :=
  match s with
  | [] => [[]]
  | c :: r =>
      if c =? sep then [] :: split sep r
      else match split sep r with
           | h :: t => (c :: h) :: t
           | [] => [[c]]
           end
  end.

End JS.

Import JS.


(* ===================================================================== *)
(** ** Experience.tsx: the voice-command effect *)
(* ===================================================================== *)

Module Voice.

(** The properties every object literal inherits from [Object.prototype]. *)
Inductive ObjectPrototypeMember :=
| OP_constructor | OP_proto
| OP_hasOwnProperty | OP_isPrototypeOf | OP_propertyIsEnumerable
| OP_toLocaleString | OP_toString | OP_valueOf
| OP_defineGetter | OP_defineSetter | OP_lookupGetter | OP_lookupSetter.

(** The values that reach [objectName], [hologramData] and the handlers. *)
Inductive jsvalue :=
| VUndefined
| VNull
| VString (s : jsstring)
| VBuiltin (m : ObjectPrototypeMember)
| VObject (ref : N).

(** Truthiness, as tested by [if (v)]. *)
Definition truthy (v : jsvalue) : bool :=
  match v with
  | VUndefined | VNull => false
  | VString [] => false
  | VString (_ :: _) => true
  | VBuiltin _ | VObject _ => true
  end.

(** [Object.prototype], by property name. *)
Definition Object_prototype : gmap jsstring jsvalue :=
  list_to_map
    [ (lit "constructor", VBuiltin OP_constructor);
      (lit "__proto__", VBuiltin OP_proto);
      (lit "hasOwnProperty", VBuiltin OP_hasOwnProperty);
      (lit "isPrototypeOf", VBuiltin OP_isPrototypeOf);
      (lit "propertyIsEnumerable", VBuiltin OP_propertyIsEnumerable);
      (lit "toLocaleString", VBuiltin OP_toLocaleString);
      (lit "toString", VBuiltin OP_toString);
      (lit "valueOf", VBuiltin OP_valueOf);
      (lit "__defineGetter__", VBuiltin OP_defineGetter);
      (lit "__defineSetter__", VBuiltin OP_defineSetter);
      (lit "__lookupGetter__", VBuiltin OP_lookupGetter);
      (lit "__lookupSetter__", VBuiltin OP_lookupSetter) ].

(** [obj[key]] on an object literal with own properties [own]: the own
    property if there is one, else the inherited one, else [undefined]. *)
Definition js_get (own : gmap jsstring jsvalue) (key : jsstring) : jsvalue :=
  match own !! key with
  | Some v => v
  | None => default VUndefined (Object_prototype !! key)
  end.

(** The table of the source, in its order. *)
Definition corrections_entries : list (jsstring * jsstring) :=
  [ (lit "the art", lit "earth");
    (lit "art", lit "earth");
    (lit "birth", lit "earth");
    (lit "girth", lit "earth");
    (lit "hurt", lit "heart");
    (lit "part", lit "heart");
    (lit "boxs", lit "box");
    (lit "spear", lit "sphere");
    (lit "tourist", lit "torus");
    (lit "taurus", lit "torus");
    (lit "corn", lit "cone");
    (lit "not", lit "knot") ].

(** [const corrections: Record<string, string> = { ... }]. *)
Definition corrections : gmap jsstring jsvalue :=
  list_to_map (prod_map (λ key, key) VString <$> corrections_entries).

(** [s.replace(/^(show|generate|create)\s+(me\s+)?(a\s+)?/, "")]: the
    alternatives are tried in order, each has to be followed by [\s+];
    without a match the string is returned as it is. *)
Definition matchVerb (s : jsstring) : option jsstring :=
  let try v := after v s ≫= spaces1 in
  match try (lit "show") with
  | Some r => Some r
  | None =>
      match try (lit "generate") with
      | Some r => Some r
      | None => try (lit "create")
      end
  end.

Definition removeCommand (s : jsstring) : jsstring :=
  match matchVerb s with
  | Some r => optWord (lit "a") (optWord (lit "me") r)
  | None => s
  end.

(** [SimulationLog['type']], the two kinds this file logs. *)
Inductive LogType := dialogue | action.

(** The object [generateHologramCode] resolves with. *)
Record Response := { code : jsstring; description : jsstring }.

(** What is written to the console. *)
Inductive ConsoleMsg :=
| Autocorrecting (from : jsstring) (to : jsvalue)
| VoiceCommandDetected (objectName : jsvalue)
| CallingGenerate
| GenerateResolved (r : Response)
| GenerateFailed (err : jsvalue).

(** The calls the effect and its promise callbacks make on the world
    outside the component, in the order they make them. *)
Inductive Call :=
| AddLog (ty : LogType) (characterId message : jsstring)
| ConsoleLog (m : ConsoleMsg)
| ConsoleError (m : ConsoleMsg)
| GenerateHologramCode (objectName : jsvalue)
| SpeakText (text : jsstring)
| PlayAudio (buffer : N).

(** The state of [Experience] the effect reads and writes. *)
Record State := {
  prevTranscriptRef : jsstring;
  generatedCode : option jsstring;
  hologramData : jsvalue
}.

Definition initial : State :=
  {| prevTranscriptRef := []; generatedCode := None; hologramData := VNull |}.

Definition set_prevTranscript (t : jsstring) (st : State) : State :=
  {| prevTranscriptRef := t;
     generatedCode := generatedCode st;
     hologramData := hologramData st |}.

Definition setGeneratedCode (c : option jsstring) (st : State) : State :=
  {| prevTranscriptRef := prevTranscriptRef st;
     generatedCode := c;
     hologramData := hologramData st |}.

Definition setHologramData (d : jsvalue) (st : State) : State :=
  {| prevTranscriptRef := prevTranscriptRef st;
     generatedCode := generatedCode st;
     hologramData := d |}.

Definition isVoiceActive (voiceState : jsstring) : bool :=
  str_eqb voiceState (lit "thinking") || str_eqb voiceState (lit "speaking").

Definition isCommand (lowerTranscript : jsstring) : bool :=
  startsWith lowerTranscript (lit "show")
  || startsWith lowerTranscript (lit "generate")
  || startsWith lowerTranscript (lit "create").

(** The phonetic correction step: the name, and what it logs. *)
Definition correct (objectName : jsstring) : jsvalue * list Call :=
  if truthy (js_get corrections objectName)
  then (js_get corrections objectName,
        [ConsoleLog (Autocorrecting objectName (js_get corrections objectName))])
  else (VString objectName, []).

Section Effect.

(** [String.prototype.toLowerCase], a built-in of the platform. *)
Variable toLowerCase : jsstring -> jsstring.

(** The name parsed from a transcript. *)
Definition parsedName (transcript : jsstring) : jsstring :=
  trim (removeCommand (toLowerCase transcript)).

(** The body of the [useEffect] on [voiceState, transcript, addLog]. *)
Definition voiceEffect (voiceState transcript : jsstring) (st : State)
  : State * list Call :=
  if isVoiceActive voiceState
     && negb (str_eqb transcript [])
     && negb (str_eqb transcript (prevTranscriptRef st))
  then
    let log :=
      AddLog dialogue (lit "Atlas")
        (lit "Voice Command: " ++ [dquote] ++ transcript ++ [dquote]) in
    let st' := set_prevTranscript transcript st in
    let lowerTranscript := toLowerCase transcript in
    if isCommand lowerTranscript then
      let objectName := trim (removeCommand lowerTranscript) in
      let '(objectName', logged) := correct objectName in
      (st', [log] ++ logged ++
            [ ConsoleLog (VoiceCommandDetected objectName');
              ConsoleLog CallingGenerate;
              GenerateHologramCode objectName' ])
    else (st', [log])
  else (st, []).

End Effect.

(** How the promise of [generateHologramCode] settles. *)
Inductive Settled := Resolved (r : Response) | Rejected (err : jsvalue).

(** The [.then(...)] and [.catch(...)] callbacks on that promise. *)
Definition onGenerateSettled (o : Settled) (st : State) : State * list Call :=
  match o with
  | Resolved response =>
      (setGeneratedCode (Some (code response)) st,
       [ ConsoleLog (GenerateResolved response);
         AddLog action (lit "Luna")
           (lit "Initializing Holographic Protocol: " ++ description response);
         SpeakText (lit "Activating holographic display.") ])
  | Rejected err =>
      (st, [ConsoleError (GenerateFailed err)])
  end.

(** The [.then(buffer => ...)] callback on the promise of [speakText]. *)
Definition onSpeakResolved (buffer : option N) : list Call :=
  match buffer with
  | Some b => [PlayAudio b]
  | None => []
  end.

(** *** Reading a list of calls *)

(** The arguments of the calls of [generateHologramCode], in order. *)
Definition generateCalls (calls : list Call) : list jsvalue :=
  omap (λ c, match c with GenerateHologramCode v => Some v | _ => None end)
       calls.

(** The entries added to the action log (type ['action']). *)
Definition actionLogEntries (calls : list Call) : list (jsstring * jsstring) :=
  omap (λ c, match c with
             | AddLog action who message => Some (who, message)
             | _ => None
             end) calls.

(** The texts sent to the voice. *)
Definition spoken (calls : list Call) : list jsstring :=
  omap (λ c, match c with SpeakText t => Some t | _ => None end) calls.

Definition isConsoleError (c : Call) : bool :=
  match c with ConsoleError _ => true | _ => false end.

(** *** The corrections table, read as a table *)

(** The value the table gives for a key: the first entry of that key. *)
Fixpoint lookupEntry (key : jsstring) (entries : list (jsstring * jsstring))
  : option jsstring :=
  match entries with
  | [] => None
  | (k, v) :: r => if decide (k = key) then Some v else lookupEntry key r
  end.

(** A key of the table is replaced by its value, any other name stays. *)
Definition tableCorrection (name : jsstring) : jsstring :=
  default name (lookupEntry name corrections_entries).

(** The names [Object.prototype] defines. *)
Definition inheritedName (name : jsstring) : bool :=
  bool_decide (is_Some (Object_prototype !! name)).

End Voice.

Import Voice.



(* ===================================================================== *)
(** ** MoodService.analyzeMood *)
(* ===================================================================== *)

Module Mood.

(** What [JSON.parse] returns.  A number is kept as its lexeme; an object
    keeps its members in the order of the text. *)
Inductive json :=
| JNull
| JBool (b : bool)
| JNumber (lexeme : jsstring)
| JString (s : jsstring)
| JArray (elements : list json)
| JObject (members : list (jsstring * json)).

(** [o[key]] on a parsed object: the last member of that name wins. *)
Fixpoint member (key : jsstring) (ms : list (jsstring * json)) : option json :=
  match ms with
  | [] => None
  | (k, v) :: r =>
      match member key r with
      | Some w => Some w
      | None => if str_eqb k key then Some v else None
      end
  end.

Definition field (key : jsstring) (v : json) : option json :=
  match v with
  | JObject ms => member key ms
  | _ => None
  end.

(** The domain [MoodResult] declares for [suggestedEnvironment]. *)
Definition environmentNames : list jsstring :=
  [lit "cyber"; lit "nature"; lit "desert"; lit "rainforest"; lit "iceland"].

Definition hasDeclaredEnvironment (data : json) : bool :=
  match field (lit "suggestedEnvironment") data with
  | Some (JString s) => bool_decide (s ∈ environmentNames)
  | _ => false
  end.

(** [interface MoodResult]: an object whose [mood] and [reasoning] are
    strings and whose [suggestedEnvironment] is one of the five names. *)
Definition isMoodResult (data : json) : bool :=
  match field (lit "mood") data, field (lit "reasoning") data with
  | Some (JString _), Some (JString _) => hasDeclaredEnvironment data
  | _, _ => false
  end.

(** A step either completes with a value or throws. *)
Inductive outcome (A : Type) :=
| Ok (a : A)
| Throw (error : jsstring).
Arguments Ok {A} a.
Arguments Throw {A} error.

Definition bind {A B} (k : A -> outcome B) (m : outcome A) : outcome B :=
  match m with
  | Ok a => k a
  | Throw e => Throw e
  end.

(** [try { body } catch (error) { handler }]. *)
Definition tryCatch {A} (body : outcome A) (handler : jsstring -> outcome A)
  : outcome A :=
  match body with
  | Ok a => Ok a
  | Throw e => handler e
  end.

#[export] Instance outcome_bind : MBind outcome := @bind.
#[export] Instance outcome_ret : MRet outcome := @Ok.

(** The backtick, U+0060, and the line feed. *)
Definition backtick : N := 96.
Definition LF : N := 10.
Definition fence : jsstring := [backtick; backtick; backtick].

(** Length of the match of [```json\n?|\n?```] that starts at the head of
    [s], if there is one: the first alternative has priority. *)
Definition fenceAt (s : jsstring) : option nat :=
  match after (fence ++ lit "json") s with
  | Some r => Some (if startsWith r [LF] then 8 else 7)%nat
  | None =>
      if startsWith s (LF :: fence) then Some 4%nat
      else if startsWith s fence then Some 3%nat
      else None
  end.

(** [text.replace(/```json\n?|\n?```/g, "")]: scanning from the left, every
    match is deleted and the scan resumes after it; [skip] counts the code
    units of the current match that are still to be dropped. *)
Fixpoint removeFencesFrom (skip : nat) (s : jsstring) : jsstring :=
  match s with
  | [] => []
  | c :: r =>
      match skip with
      | S k => removeFencesFrom k r
      | O =>
          match fenceAt s with
          | Some (S k) => removeFencesFrom k r
          | _ => c :: removeFencesFrom 0 r
          end
      end
  end.

Definition removeFences (text : jsstring) : jsstring := removeFencesFrom 0 text.

(** The browser and the model behind the calls of [analyzeMood]: what
    each call gives in the session at hand.  The prompt is a constant of
    the source. *)
Record Platform := {
  (** [document.createElement('canvas')] and setting its width and height
      from [videoElement.videoWidth] and [videoElement.videoHeight] *)
  createCanvas : outcome unit;
  (** [canvas.getContext('2d')]: is the context non-null? *)
  getContext2d : outcome bool;
  (** [ctx.drawImage(videoElement, 0, 0, width, height)] *)
  drawImage : outcome unit;
  (** [canvas.toDataURL('image/jpeg', 0.7)] *)
  toDataURL : outcome jsstring;
  (** [(await model.generateContent([prompt, image])).response.text()];
      the image data is [undefined] when the URL has no comma *)
  generateContent : option jsstring -> outcome jsstring;
  (** [JSON.parse] *)
  JSON_parse : jsstring -> outcome json
}.

Definition comma : N := 44.

(** [async analyzeMood(videoElement): Promise<MoodResult | null>]: the
    value the promise resolves with ([null] is [JNull]), or what it rejects
    with. *)
Definition analyzeMood (p : Platform) : outcome json :=
  tryCatch
    (_ ← createCanvas p;
     ctx ← getContext2d p;
     if negb ctx then mret JNull
     else
       _ ← drawImage p;
       url ← toDataURL p;
       let base64Image := split comma url !! 1%nat in
       text ← generateContent p base64Image;
       let cleanText := trim (removeFences text) in
       data ← JSON_parse p cleanText;
       mret data)
    (fun error => mret JNull).

(** *** A reference [JSON.parse] (ECMA-404), to run [analyzeMood] on texts *)

Definition isJsonSpace (c : N) : bool :=
  (c =? 32) || (c =? 9) || (c =? 10) || (c =? 13).

Fixpoint skipSpace (s : jsstring) : jsstring :=
  match s with
  | c :: r => if isJsonSpace c then skipSpace r else s
  | [] => []
  end.

Definition isDigit (c : N) : bool := (48 <=? c) && (c <=? 57).

Definition hexDigit (c : N) : option N :=
  if isDigit c then Some (c - 48)
  else if (97 <=? c) && (c <=? 102) then Some (c - 87)
  else if (65 <=? c) && (c <=? 70) then Some (c - 55)
  else None.

Definition hex4 (a b c d : N) : option N :=
  x ← hexDigit a; y ← hexDigit b; z ← hexDigit c; w ← hexDigit d;
  Some (((x * 16 + y) * 16 + z) * 16 + w).

(** The character an escape letter stands for. *)
Definition unescape (e : N) : option N :=
  if e =? 34 then Some 34 else if e =? 92 then Some 92
  else if e =? 47 then Some 47 else if e =? 98 then Some 8
  else if e =? 102 then Some 12 else if e =? 110 then Some 10
  else if e =? 114 then Some 13 else if e =? 116 then Some 9
  else None.

(** The characters of a string, after its opening quote. *)
Fixpoint parseChars (s : jsstring) : option (jsstring * jsstring) :=
  match s with
  | [] => None
  | c :: r =>
      if c =? 34 then Some ([], r)
      else if c =? 92 then
        match r with
        | 117 :: a :: b :: c' :: d :: r' =>
            u ← hex4 a b c' d;
            '(str, rest) ← parseChars r';
            Some (u :: str, rest)
        | e :: r' =>
            u ← unescape e;
            '(str, rest) ← parseChars r';
            Some (u :: str, rest)
        | [] => None
        end
      else if c <? 32 then None
      else '(str, rest) ← parseChars r; Some (c :: str, rest)
  end.

Fixpoint digits (s : jsstring) : jsstring * jsstring :=
  match s with
  | c :: r =>
      if isDigit c then let '(ds, rest) := digits r in (c :: ds, rest)
      else ([], s)
  | [] => ([], [])
  end.

(** A number: an optional minus, an integer part without leading zero, an
    optional fraction, an optional exponent. *)
Definition parseNumber (s : jsstring) : option (jsstring * jsstring) :=
  let '(sign, s1) :=
    match s with 45 :: r => ([45], r) | _ => ([], s) end in
  '(int, s2) ←
    match s1 with
    | 48 :: r => Some ([48], r)
    | c :: _ => if isDigit c then Some (digits s1) else None
    | [] => None
    end;
  '(frac, s3) ←
    match s2 with
    | 46 :: r =>
        match digits r with
        | ([], _) => None
        | (ds, rest) => Some (46 :: ds, rest)
        end
    | _ => Some ([], s2)
    end;
  '(exp, s4) ←
    match s3 with
    | e :: r =>
        if (e =? 101) || (e =? 69) then
          let '(sg, r1) :=
            match r with
            | c :: r' => if (c =? 43) || (c =? 45) then ([c], r') else ([], r)
            | [] => ([], r)
            end in
          match digits r1 with
          | ([], _) => None
          | (ds, rest) => Some (e :: sg ++ ds, rest)
          end
        else Some ([], s3)
    | [] => Some ([], s3)
    end;
  Some (sign ++ int ++ frac ++ exp, s4).

(** A value, the elements of an array up to its bracket, the members of an
    object up to its brace; [fuel] bounds the nesting and the number of
    elements. *)
Fixpoint parseValue (fuel : nat) (s : jsstring) : option (json * jsstring) :=
  match fuel with
  | O => None
  | S f =>
      match skipSpace s with
      | [] => None
      | c :: r =>
          if c =? 34 then
            '(str, rest) ← parseChars r; Some (JString str, rest)
          else if c =? 91 then
            match skipSpace r with
            | 93 :: rest => Some (JArray [], rest)
            | _ => '(vs, rest) ← parseElements f r; Some (JArray vs, rest)
            end
          else if c =? 123 then
            match skipSpace r with
            | 125 :: rest => Some (JObject [], rest)
            | _ => '(ms, rest) ← parseMembers f r; Some (JObject ms, rest)
            end
          else
            match after (lit "null") (c :: r) with
            | Some rest => Some (JNull, rest)
            | None =>
            match after (lit "true") (c :: r) with
            | Some rest => Some (JBool true, rest)
            | None =>
            match after (lit "false") (c :: r) with
            | Some rest => Some (JBool false, rest)
            | None =>
                '(lexeme, rest) ← parseNumber (c :: r);
                Some (JNumber lexeme, rest)
            end end end
      end
  end
with parseElements (fuel : nat) (s : jsstring)
  : option (list json * jsstring) :=
  match fuel with
  | O => None
  | S f =>
      '(v, r) ← parseValue f s;
      match skipSpace r with
      | 44 :: r' => '(vs, rest) ← parseElements f r'; Some (v :: vs, rest)
      | 93 :: rest => Some ([v], rest)
      | _ => None
      end
  end
with parseMembers (fuel : nat) (s : jsstring)
  : option (list (jsstring * json) * jsstring) :=
  match fuel with
  | O => None
  | S f =>
      match skipSpace s with
      | 34 :: r =>
          '(key, r1) ← parseChars r;
          match skipSpace r1 with
          | 58 :: r2 =>
              '(v, r3) ← parseValue f r2;
              match skipSpace r3 with
              | 44 :: r4 =>
                  '(ms, rest) ← parseMembers f r4; Some ((key, v) :: ms, rest)
              | 125 :: rest => Some ([(key, v)], rest)
              | _ => None
              end
          | _ => None
          end
      | _ => None
      end
  end.

Definition SyntaxError : jsstring := lit "SyntaxError".

(** [JSON.parse(text)]: one value, white space around it, nothing else. *)
Definition parseJSON (text : jsstring) : outcome json :=
  match parseValue (S (length text)) text with
  | Some (v, rest) =>
      match skipSpace rest with
      | [] => Ok v
      | _ => Throw SyntaxError
      end
  | None => Throw SyntaxError
  end.

(** A session in which the canvas works and the model answers [text]. *)
Definition answering (text : jsstring) : Platform :=
  {| createCanvas := Ok tt;
     getContext2d := Ok true;
     drawImage := Ok tt;
     toDataURL := Ok (lit "data:image/jpeg;base64,/9j/4AAQ");
     generateContent := fun _ => Ok text;
     JSON_parse := parseJSON |}.

(** A double-quoted JSON string. *)
Definition quoted (s : string) : jsstring := [dquote] ++ lit s ++ [dquote].

(** A JSON object text with the three members the prompt asks for. *)
Definition moodText (mood suggestedEnvironment reasoning : string) : jsstring :=
  lit "{" ++ quoted "mood" ++ lit ": " ++ quoted mood ++ lit ", "
  ++ quoted "suggestedEnvironment" ++ lit ": " ++ quoted suggestedEnvironment
  ++ lit ", " ++ quoted "reasoning" ++ lit ": " ++ quoted reasoning ++ lit "}".

(** A text between Markdown fences, as models answer. *)
Definition fenced (body : jsstring) : jsstring :=
  fence ++ lit "json" ++ [LF] ++ body ++ [LF] ++ fence.

End Mood.

(* ===================================================================== *)
(** ** App.tsx: the environment state; Experience.tsx: the room shown *)
(* ===================================================================== *)

Module App.

(** ['cyber' | 'nature' | 'desert' | 'rainforest' | 'iceland'] *)
Inductive Environment := cyber | nature | desert | rainforest | iceland.

#[export] Instance Environment_eq_dec : EqDecision Environment.
Proof. solve_decision. Defined.

Definition environments : list Environment :=
  [cyber; nature; desert; rainforest; iceland].

(** The callbacks handed to [setTimeout]. *)
Inductive Callback :=
| FadeOutThenNext                      (* of toggleEnvironment *)
| FadeOutThenSet (newEnv : Environment) (* of handleEnvironmentChange *)
| FadeIn.                              (* setIsTransitioning(false) *)

(** The two pieces of state of [AppContent], and the timers that are
    armed: delay in milliseconds and callback, oldest first. *)
Record State := {
  environment : Environment;
  isTransitioning : bool;
  timers : list (N * Callback)
}.

Definition initial : State :=
  {| environment := cyber; isTransitioning := false; timers := [] |}.

Definition setIsTransitioning (b : bool) (st : State) : State :=
  {| environment := environment st;
     isTransitioning := b;
     timers := timers st |}.

Definition setEnvironment (f : Environment -> Environment) (st : State) : State :=
  {| environment := f (environment st);
     isTransitioning := isTransitioning st;
     timers := timers st |}.

Definition setTimeout (cb : Callback) (delay : N) (st : State) : State :=
  {| environment := environment st;
     isTransitioning := isTransitioning st;
     timers := timers st ++ [(delay, cb)] |}.

(** The updater given to [setEnvironment] by [toggleEnvironment]. *)
Definition successor (prev : Environment) : Environment :=
  if decide (prev = cyber) then nature
  else if decide (prev = nature) then desert
  else if decide (prev = desert) then rainforest
  else if decide (prev = rainforest) then iceland
  else cyber.

(** [toggleEnvironment] is only bound to [onClick] of the theme button,
    which every render binds anew: the function a click calls is the one
    of the render on screen, and the [isTransitioning] it tests is that of
    the state it is applied to. *)
Definition toggleEnvironment (st : State) : State :=
  if isTransitioning st then st
  else setTimeout FadeOutThenNext 500 (setIsTransitioning true st).

(** The constants [environment] and [isTransitioning] of one render of
    [AppContent]; the functions the render creates close over them. *)
Record Render := {
  renderedEnvironment : Environment;
  renderedTransitioning : bool
}.

#[export] Instance Render_eq_dec : EqDecision Render.
Proof. solve_decision. Defined.

(** The render of a state. *)
Definition render (st : State) : Render :=
  {| renderedEnvironment := environment st;
     renderedTransitioning := isTransitioning st |}.

(** [handleEnvironmentChange] is handed down as the [setEnvironment] prop
    ([Experience] hands it on to every character), so the function that
    is called may be the one of an earlier render [r]: the guard tests
    the constants of [r], the setters act on the state of the call. *)
Definition handleEnvironmentChange (r : Render) (newEnv : Environment)
    (st : State) : State :=
  if renderedTransitioning r || bool_decide (renderedEnvironment r = newEnv)
  then st
  else setTimeout (FadeOutThenSet newEnv) 500 (setIsTransitioning true st).

(** Running a callback whose timer expired. *)
Definition run (cb : Callback) (st : State) : State :=
  match cb with
  | FadeOutThenNext => setTimeout FadeIn 500 (setEnvironment successor st)
  | FadeOutThenSet newEnv =>
      setTimeout FadeIn 500 (setEnvironment (fun _ => newEnv) st)
  | FadeIn => setIsTransitioning false st
  end.

(** The oldest timer expires (all delays are equal, so timers expire in
    the order they were armed). *)
Definition expire (st : State) : State :=
  match timers st with
  | [] => st
  | (_, cb) :: rest =>
      run cb {| environment := environment st;
                isTransitioning := isTransitioning st;
                timers := rest |}
  end.

(** What can happen to [AppContent]. *)
Inductive Event :=
| Toggle                       (* the theme button *)
| Change (r : Render) (newEnv : Environment)
                               (* the setEnvironment prop given out by
                                  render [r] is called *)
| Expire.                      (* a timer *)

Definition step (e : Event) (st : State) : State :=
  match e with
  | Toggle => toggleEnvironment st
  | Change r newEnv => handleEnvironmentChange r newEnv st
  | Expire => expire st
  end.

Definition steps (es : list Event) (st : State) : State :=
  fold_left (fun s e => step e s) es st.


(** A toggle and the two timers it arms, one after the other. *)
Definition completedToggle (st : State) : State :=
  expire (expire (toggleEnvironment st)).

(** The environments seen after each of [n] completed toggles. *)
Fixpoint visited (n : nat) (st : State) : list Environment :=
  match n with
  | O => []
  | S k =>
      let st' := completedToggle st in
      environment st' :: visited k st'
  end.

(** [l] rotated left by [k]. *)
Definition rotate {A} (k : nat) (l : list A) : list A := drop k l ++ take k l.

(** *** The room element of [Experience] *)

Inductive RoomComponent :=
| CyberRoom | NatureRoom | DesertRoom | RainforestRoom | IcelandRoom.

(** The functions of [Experience] that are handed down as props. *)
Inductive Handler := handlePythonError | getFrequencyData | setHologramData.

(** A room element with the props it is given; a prop that is not given
    is [None]. *)
Record RoomElement := {
  component : RoomComponent;
  onPythonError : option Handler;
  voiceCommandCode : option (option jsstring);
  getFrequencyData_prop : option Handler;
  hologramData : option Voice.jsvalue;
  setHologramData_prop : option Handler
}.

(** The conditional chain under [ROOM ENVIRONMENT]. *)
Definition renderRoom (environment : Environment) (st : Voice.State)
  : RoomElement :=
  if decide (environment = cyber) then
    {| component := CyberRoom;
       onPythonError := Some handlePythonError;
       voiceCommandCode := Some (Voice.generatedCode st);
       getFrequencyData_prop := Some getFrequencyData;
       hologramData := Some (Voice.hologramData st);
       setHologramData_prop := Some setHologramData |}
  else if decide (environment = nature) then
    {| component := NatureRoom;
       onPythonError := Some handlePythonError;
       voiceCommandCode := Some (Voice.generatedCode st);
       getFrequencyData_prop := Some getFrequencyData;
       hologramData := Some (Voice.hologramData st);
       setHologramData_prop := Some setHologramData |}
  else if decide (environment = desert) then
    {| component := DesertRoom;
       onPythonError := Some handlePythonError;
       voiceCommandCode := Some (Voice.generatedCode st);
       getFrequencyData_prop := Some getFrequencyData;
       hologramData := Some (Voice.hologramData st);
       setHologramData_prop := Some setHologramData |}
  else if decide (environment = rainforest) then
    {| component := RainforestRoom;
       onPythonError := Some handlePythonError;
       voiceCommandCode := Some (Voice.generatedCode st);
       getFrequencyData_prop := Some getFrequencyData;
       hologramData := Some (Voice.hologramData st);
       setHologramData_prop := Some setHologramData |}
  else
    {| component := IcelandRoom;
       onPythonError := Some handlePythonError;
       voiceCommandCode := Some (Voice.generatedCode st);
       getFrequencyData_prop := None;
       hologramData := Some (Voice.hologramData st);
       setHologramData_prop := Some setHologramData |}.

(** The room that belongs to an environment. *)
Definition roomOf (e : Environment) : RoomComponent :=
  match e with
  | cyber => CyberRoom
  | nature => NatureRoom
  | desert => DesertRoom
  | rainforest => RainforestRoom
  | iceland => IcelandRoom
  end.

(** The environment a room component belongs to. *)
Definition environmentOf (c : RoomComponent) : Environment :=
  match c with
  | CyberRoom => cyber
  | NatureRoom => nature
  | DesertRoom => desert
  | RainforestRoom => rainforest
  | IcelandRoom => iceland
  end.

(** The props every room shares: hologram data, generated code and the
    Python-error handler. *)
Definition sharedProps (el : RoomElement)
  : option Voice.jsvalue * option (option jsstring) * option Handler :=
  (hologramData el, voiceCommandCode el, onPythonError el).

End App.

(* ===================================================================== *)
(** ** Numbers: binary64 arithmetic and Float32 storage *)
(* ===================================================================== *)

Module IEEE754.

Local Open Scope Q_scope.

(** A finite JavaScript number, as the rational it is.  The placement
    loops never produce [NaN] or an infinity, and the sign of zero plays
    no role in them. *)
Abbreviation number := Q.

(** A binary floating-point format without upper limit on the exponent:
    the number of digits of the significand, and the exponent of the
    smallest positive subnormal number. *)
Record format := { precision : Z; emin : Z }.

(** The Number type. *)
Definition binary64 : format := {| precision := 53; emin := -1074 |}.

(** The elements of a [Float32Array]. *)
Definition binary32 : format := {| precision := 24; emin := -149 |}.

Definition pow2 (e : Z) : Q := 2 ^ e.

(** For a positive [x], the [k] with [2^k <= x < 2^(k+1)]. *)
Definition ilog2 (x : Q) : Z :=
  let k := (Z.log2 (Qnum x) - Z.log2 (Zpos (Qden x)))%Z in
  if Qle_bool (pow2 k) x then k else (k - 1)%Z.

(** The integer nearest to [z], the even one when there are two. *)
Definition rne (z : Q) : Z :=
  let f := Qfloor z in
  match (z - inject_Z f ?= 1 # 2)%Q with
  | Lt => f
  | Gt => (f + 1)%Z
  | Eq => if Z.even f then f else (f + 1)%Z
  end.

(** The exponent of the unit in the last place of a positive [x]. *)
Definition ulpExponent (fmt : format) (x : Q) : Z :=
  Z.max (ilog2 x - precision fmt + 1) (emin fmt).

Definition roundPositive (fmt : format) (x : Q) : Q :=
  let e := ulpExponent fmt x in
  inject_Z (rne (x / pow2 e)) * pow2 e.

(** roundTiesToEven: the number of the format nearest to [x], in lowest
    terms. *)
Definition round (fmt : format) (x : Q) : Q :=
  Qred match (x ?= 0)%Q with
       | Eq => 0
       | Gt => roundPositive fmt x
       | Lt => - roundPositive fmt (- x)
       end.

(** The operators [+], [-] and [*] on numbers: the exact result, rounded. *)
Definition add (a b : number) : number := round binary64 (a + b).
Definition sub (a b : number) : number := round binary64 (a - b).
Definition mul (a b : number) : number := round binary64 (a * b).

(** A decimal literal of the source. *)
Definition literal (q : Q) : number := round binary64 q.

(** [a < b] *)
Definition ltb (a b : number) : bool :=
  match (a ?= b)%Q with Lt => true | _ => false end.

(** [Math.max(a, b)] *)
Definition Math_max (a b : number) : number := if ltb a b then b else a.

(** [Math.PI] *)
Definition Math_PI : number := literal 3.141592653589793.

(** What is written into a [Float32Array] when [x] is assigned. *)
Definition fround (x : number) : number := round binary32 x.

(** [Math.sqrt], the correctly rounded square root.  The root is located
    between two neighbouring multiples of [2^-1100], far below the spacing
    of the values at which the rounding of a root of a binary64 number can
    change; when it is none of the two, the point half way stands for
    it. *)
Definition sqrtScale : Z := 1100.

Definition sqrtFloor (x : Q) : Z := Z.sqrt (Qfloor (x * pow2 (2 * sqrtScale))).

Definition sqrtProxy (x : Q) : Q :=
  let n := sqrtFloor x in
  if Qeq_bool (inject_Z (n * n)) (x * pow2 (2 * sqrtScale))
  then inject_Z n * pow2 (- sqrtScale)
  else inject_Z (2 * n + 1) * pow2 (- sqrtScale - 1).

Definition Math_sqrt (x : number) : number := round binary64 (sqrtProxy x).

(** The largest relative and absolute error of rounding to a format. *)
Definition relativeError (fmt : format) : Q := pow2 (- precision fmt).
Definition absoluteError (fmt : format) : Q := pow2 (emin fmt - 1).

End IEEE754.

(* ===================================================================== *)
(** ** IcelandRoom.tsx and RainforestRoom: instance placement *)
(* ===================================================================== *)

Module Scene.

Import IEEE754.
Local Open Scope Q_scope.

(** [THREE.Vector3] (and the angles of a [THREE.Euler]). *)
Record Vector3 := { vx : number; vy : number; vz : number }.

Definition vec (a b c : number) : Vector3 := {| vx := a; vy := b; vz := c |}.

(** A local transform matrix.  [translation] is its last column, which
    [Matrix4.compose] copies from the position.  The other columns are
    computed from the rotation and the scale; they are kept as the
    [orientation] and the [scaling] that [compose] was called with. *)
Record Matrix4 := {
  translation : Vector3;
  orientation : Vector3;
  scaling : Vector3
}.

Definition identity : Matrix4 :=
  {| translation := vec 0 0 0; orientation := vec 0 0 0; scaling := vec 1 1 1 |}.

(** [THREE.Object3D], the fields the loops touch. *)
Record Object3D := {
  position : Vector3;
  rotation : Vector3;
  scale : Vector3;
  matrix : Matrix4
}.

(** [new THREE.Object3D()] *)
Definition newObject3D : Object3D :=
  {| position := vec 0 0 0; rotation := vec 0 0 0; scale := vec 1 1 1;
     matrix := identity |}.

Definition position_set (a b c : number) (o : Object3D) : Object3D :=
  {| position := vec a b c; rotation := rotation o; scale := scale o;
     matrix := matrix o |}.

Definition scale_set (a b c : number) (o : Object3D) : Object3D :=
  {| position := position o; rotation := rotation o; scale := vec a b c;
     matrix := matrix o |}.

Definition rotation_set (a b c : number) (o : Object3D) : Object3D :=
  {| position := position o; rotation := vec a b c; scale := scale o;
     matrix := matrix o |}.

Definition updateMatrix (o : Object3D) : Object3D :=
  {| position := position o; rotation := rotation o; scale := scale o;
     matrix := {| translation := position o;
                  orientation := rotation o;
                  scaling := scale o |} |}.

(** [new THREE.Color().setHSL(h, s, l)], as the three arguments. *)
Record Color := { hue : number; saturation : number; lightness : number }.

Definition white : Color := {| hue := 0; saturation := 0; lightness := 1 |}.

(** [THREE.InstancedMesh]: one matrix per instance, held in a
    [Float32Array]; the colours are allocated by the first
    [setColorAt]. *)
Record InstancedMesh := {
  instanceMatrix : list Matrix4;
  instanceColor : option (list Color)
}.

(** [new THREE.InstancedMesh(geometry, material, count)]: every instance
    starts with the identity matrix. *)
Definition newInstancedMesh (count : nat) : InstancedMesh :=
  {| instanceMatrix := replicate count identity; instanceColor := None |}.

(** The matrix as the [Float32Array] holds it: the translation goes
    through the rounding to binary32. *)
Definition toFloat32 (m : Matrix4) : Matrix4 :=
  {| translation := vec (fround (vx (translation m)))
                        (fround (vy (translation m)))
                        (fround (vz (translation m)));
     orientation := orientation m;
     scaling := scaling m |}.

(** [matrix.toArray(instanceMatrix.array, i * 16)]; a write past the end
    of the typed array is ignored. *)
Definition setMatrixAt (i : nat) (m : Matrix4) (mesh : InstancedMesh)
  : InstancedMesh :=
  {| instanceMatrix := <[i := toFloat32 m]> (instanceMatrix mesh);
     instanceColor := instanceColor mesh |}.

Definition setColorAt (i : nat) (c : Color) (mesh : InstancedMesh)
  : InstancedMesh :=
  {| instanceMatrix := instanceMatrix mesh;
     instanceColor :=
       Some (<[i := c]>
               (default (replicate (length (instanceMatrix mesh)) white)
                        (instanceColor mesh))) |}.

(** The square of the distance of an instance from the vertical axis
    through the origin, and its height. *)
Definition squaredDistance (m : Matrix4) : Q :=
  vx (translation m) * vx (translation m)
  + vz (translation m) * vz (translation m).

Definition height (m : Matrix4) : number := vy (translation m).

(** The horizontal distance of [m] from the origin lies between [lo] and
    [hi], which are not negative. *)
Definition distanceBetween (lo hi : Q) (m : Matrix4) : Prop :=
  lo * lo <= squaredDistance m /\ squaredDistance m <= hi * hi.

(** [for (let i = 0; i < n; i++) body], from index [i] on. *)
Fixpoint forLoop {S : Type} (n i : nat) (body : nat -> S -> S) (s : S) : S :=
  match n with
  | O => s
  | Datatypes.S n' => forLoop n' (Datatypes.S i) body (body i s)
  end.

(** What a placement loop carries: the mesh, the scratch object, and how
    many results of [Math.random()] have been consumed. *)
Record Loop := { mesh : InstancedMesh; dummy : Object3D; drawn : nat }.

Definition iceCount : nat := 50.
Definition chunkCount : nat := 200.
Definition fernCount : nat := N.to_nat 20000.

Section Placement.

(** The successive results of [Math.random()], and the functions of the
    platform whose results the language leaves to the implementation. *)
Variable random : nat -> number.
Variables Math_sin Math_cos : number -> number.
Variable Math_pow : number -> number -> number.

(** IcelandRoom, the large icebergs. *)
Definition icebergBody (i : nat) (s : Loop) : Loop :=
  let k := drawn s in
  let r := add 20 (mul (random k) 80) in
  let angle := mul (mul (random (k + 1)%nat) Math_PI) 2 in
  let x := mul (Math_sin angle) r in
  let z := mul (Math_cos angle) r in
  let d := position_set x (mul (sub (random (k + 2)%nat) 0.5) 2) z (dummy s) in
  let scale := add 3 (mul (random (k + 3)%nat) 10) in
  let d := scale_set scale (mul scale (literal 0.6)) scale d in
  let d := rotation_set (random (k + 4)%nat) (random (k + 5)%nat)
             (random (k + 6)%nat) d in
  let d := updateMatrix d in
  let m := setMatrixAt i (matrix d) (mesh s) in
  let c := {| hue := literal 0.55; saturation := literal 0.4;
              lightness := add (literal 0.9)
                             (mul (random (k + 7)%nat) (literal 0.1)) |} in
  let m := setColorAt i c m in
  {| mesh := m; dummy := d; drawn := (k + 8)%nat |}.

Definition startLoop (k0 : nat) (m : InstancedMesh) : Loop :=
  {| mesh := m; dummy := newObject3D; drawn := k0 |}.

(** The first effect of IcelandRoom on [iceRef.current], with [k0] results
    of [Math.random()] consumed before it. *)
Definition placeIcebergs (k0 : nat) (current : option InstancedMesh)
  : option Loop :=
  match current with
  | None => None
  | Some m => Some (forLoop iceCount 0 icebergBody (startLoop k0 m))
  end.

(** IcelandRoom, the smaller chunks. *)
Definition chunkBody (i : nat) (s : Loop) : Loop :=
  let k := drawn s in
  let angle := mul (mul (random k) Math_PI) 2 in
  let r := add 10 (mul (random (k + 1)%nat) 90) in
  let x := mul (Math_sin angle) r in
  let z := mul (Math_cos angle) r in
  let d := position_set x 0 z (dummy s) in
  let s' := add 0.5 (random (k + 2)%nat) in
  let d := scale_set s' (mul s' 0.5) s' d in
  let d := rotation_set (random (k + 3)%nat) (random (k + 4)%nat)
             (random (k + 5)%nat) d in
  let d := updateMatrix d in
  let m := setMatrixAt i (matrix d) (mesh s) in
  let c := {| hue := literal 0.55; saturation := literal 0.8;
              lightness := literal 0.95 |} in
  let m := setColorAt i c m in
  {| mesh := m; dummy := d; drawn := (k + 6)%nat |}.

Definition placeChunks (k0 : nat) (current : option InstancedMesh)
  : option Loop :=
  match current with
  | None => None
  | Some m => Some (forLoop chunkCount 0 chunkBody (startLoop k0 m))
  end.

(** RainforestRoom, the ferns.  The position sampled by an iteration that
    starts with [k] results consumed. *)
Definition fernSample (k : nat) : number * number :=
  let angle := mul (mul (random k) Math_PI) 2 in
  let r := mul (Math_pow (random (k + 1)%nat) 0.5) 90 in
  (mul (Math_sin angle) r, mul (Math_cos angle) r).

(** [Math.sqrt(x * x + z * z) < 5] *)
Definition insideClearing (p : number * number) : bool :=
  ltb (Math_sqrt (add (mul (fst p) (fst p)) (mul (snd p) (snd p)))) 5.

Definition fernBody (i : nat) (s : Loop) : Loop :=
  let k := drawn s in
  let '(x, z) := fernSample k in
  if insideClearing (x, z) then
    (* continue *)
    {| mesh := mesh s; dummy := dummy s; drawn := (k + 2)%nat |}
  else
    let d := position_set x 0 z (dummy s) in
    let s' := add 1 (random (k + 2)%nat) in
    let d := scale_set s' (mul s' (literal 0.8)) s' d in
    let d := rotation_set 0 (mul (mul (random (k + 3)%nat) Math_PI) 2) 0 d in
    let d := updateMatrix d in
    let m := setMatrixAt i (matrix d) (mesh s) in
    {| mesh := m; dummy := d; drawn := (k + 4)%nat |}.

Definition placeFerns (k0 : nat) (current : option InstancedMesh)
  : option Loop :=
  match current with
  | None => None
  | Some m => Some (forLoop fernCount 0 fernBody (startLoop k0 m))
  end.

(** The loop state at the start of iteration [i] of the fern loop. *)
Definition fernStateAt (k0 : nat) (m : InstancedMesh) (i : nat) : Loop :=
  forLoop i 0 fernBody (startLoop k0 m).

End Placement.

(** Iteration [i] of a loop body leaves the matrices of the other
    instances alone. *)
Definition ownSlot (body : nat -> Loop -> Loop) : Prop :=
  forall (i : nat) (s : Loop) (j : nat), j <> i ->
    instanceMatrix (mesh (body i s)) !! j = instanceMatrix (mesh s) !! j.

(** The instance matrices an effect leaves behind. *)
Definition placed (result : option Loop) : list Matrix4 :=
  match result with
  | Some l => instanceMatrix (mesh l)
  | None => []
  end.

(** *** What is assumed of the platform *)

(** [Math.random()] returns a number in [0, 1). *)
Definition unitInterval (random : nat -> number) : Prop :=
  forall k, 0 <= random k /\ random k < 1.

(** [Math.sin] and [Math.cos] return numbers in [-1, 1] whose squares add
    up to 1 within [2^-50]. *)
Definition trigError : Q := pow2 (-50).

Definition accurate (Math_sin Math_cos : number -> number) : Prop :=
  forall a,
    (- (1) <= Math_sin a /\ Math_sin a <= 1)
    /\ (- (1) <= Math_cos a /\ Math_cos a <= 1)
    /\ 1 - trigError <= Math_sin a * Math_sin a + Math_cos a * Math_cos a
    /\ Math_sin a * Math_sin a + Math_cos a * Math_cos a <= 1 + trigError.

(** [Math.pow] of a base in [0, 1) and a positive exponent is in
    [0, 1]. *)
Definition unitPower (Math_pow : number -> number -> number) : Prop :=
  forall x y, 0 <= x -> x < 1 -> 0 < y ->
    0 <= Math_pow x y /\ Math_pow x y <= 1.

(** A bound on the error of a coordinate that is computed as a product
    of absolute value at most 100 and stored in a [Float32Array], and on
    the error this makes in the square of a horizontal distance. *)
Definition storedError : Q := 6 # 1000000.
Definition storedSlack : Q := 3 # 1000.

(** *** A session at hand *)

(** The sine and the cosine as a platform returns them at the angle
    [0.125 * Math.PI * 2], and at 0 for the other angles. *)
Definition quarterPi : number := mul (mul 0.125 Math_PI) 2.

Definition sinAt (a : number) : number :=
  if Qeq_bool a quarterPi then literal 0.7071067811865475 else 0.

Definition cosAt (a : number) : number :=
  if Qeq_bool a quarterPi then literal 0.7071067811865476 else 1.

(** A [Math.pow] that is exact to the last bit for the exponent 0.5. *)
Definition powHalf (x y : number) : number := Math_sqrt x.

(** The largest number below 1. *)
Definition belowOne : number := 1 - pow2 (-53).

(** Results of [Math.random()]: the first ones are listed, the later ones
    are 0. *)
Definition draws (l : list number) (k : nat) : number := nth k l 0.

End Scene.

(* ===================================================================== *)
(** ** Experience.tsx: the promises of the voice command, in sequence *)
(* ===================================================================== *)

Module Pipeline.

Import Voice.

(** The promises of several calls of [generateHologramCode] settle one
    after the other; the callbacks run in that order. *)
Fixpoint settleAll (outcomes : list Settled) (st : State) : State * list Call :=
  match outcomes with
  | [] => (st, [])
  | o :: rest =>
      let '(st1, calls1) := onGenerateSettled o st in
      let '(st2, calls2) := settleAll rest st1 in
      (st2, calls1 ++ calls2)
  end.

(** The code of the last promise that resolved, if one did. *)
Fixpoint lastResolved (outcomes : list Settled) : option jsstring :=
  match outcomes with
  | [] => None
  | o :: rest =>
      match lastResolved rest with
      | Some c => Some c
      | None =>
          match o with
          | Resolved r => Some (code r)
          | Rejected _ => None
          end
      end
  end.

End Pipeline.

(* ===================================================================== *)
(** ** Experience.tsx: the assistance mode *)
(* ===================================================================== *)

Module Assist.

(** [ErrorAnalysis] of the Python assistant, the fields [Experience]
    reads. *)
Record ErrorAnalysis := {
  errorType : jsstring;
  explanation : jsstring;
  suggestion : jsstring
}.

(** The assistance state of [Experience]; [audioRef] holds the audio
    element created last, named by the buffer it plays. *)
Record State := {
  isAssistanceActive : bool;
  assistanceFeedback : jsstring;
  audioRef : option N
}.

Definition setIsAssistanceActive (b : bool) (st : State) : State :=
  {| isAssistanceActive := b;
     assistanceFeedback := assistanceFeedback st;
     audioRef := audioRef st |}.

Definition setAssistanceFeedback (text : jsstring) (st : State) : State :=
  {| isAssistanceActive := isAssistanceActive st;
     assistanceFeedback := text;
     audioRef := audioRef st |}.

Definition setAudioRef (audio : option N) (st : State) : State :=
  {| isAssistanceActive := isAssistanceActive st;
     assistanceFeedback := assistanceFeedback st;
     audioRef := audio |}.

(** The calls the assistance callbacks make. *)
Inductive Call :=
| AddLog (ty : Voice.LogType) (characterId message : jsstring)
| SpeakText (text : jsstring)
| Pause (audio : N)
| Play (audio : N)
| ConsoleError (error : jsstring)
| Enable
| Disable
| HandleError (code errorMessage : jsstring).

Definition space : jsstring := [32].

(** [onAnalysisResult(analysis)], with what [await speakText(voiceText)]
    gives: a buffer, [null], or an exception. *)
Definition onAnalysisResult
    (speak : Mood.outcome (option N)) (analysis : ErrorAnalysis) (st : State)
  : State * list Call :=
  let feedbackText := explanation analysis ++ space ++ suggestion analysis in
  let st := setAssistanceFeedback feedbackText st in
  let log :=
    AddLog Voice.action (lit "Luna")
      (lit "Detected " ++ errorType analysis ++ lit ": " ++ explanation analysis) in
  let voiceText :=
    lit "I noticed a " ++ errorType analysis ++ lit ". "
    ++ explanation analysis ++ space ++ suggestion analysis in
  match speak with
  | Mood.Ok (Some audioBuffer) =>
      let paused :=
        match audioRef st with
        | Some current => [Pause current]
        | None => []
        end in
      (setAudioRef (Some audioBuffer) st,
       [log; SpeakText voiceText] ++ paused ++ [Play audioBuffer])
  | Mood.Ok None => (st, [log; SpeakText voiceText])
  | Mood.Throw err => (st, [log; SpeakText voiceText; ConsoleError err])
  end.

(** [audio.onended], once its timer of 3000 ms has expired. *)
Definition onAudioEnded (st : State) : State := setAssistanceFeedback [] st.

(** [toggleAssistance()] *)
Definition toggleAssistance (st : State) : State * list Call :=
  let newState := negb (isAssistanceActive st) in
  let message :=
    if newState then lit "Assistance mode activated."
    else lit "Assistance mode deactivated." in
  (setAssistanceFeedback [] (setIsAssistanceActive newState st),
   [SpeakText message]).

(** The effect on [isAssistanceActive, onAnalysisResult]. *)
Definition syncAssistant (st : State) : list Call :=
  if isAssistanceActive st then [Enable] else [Disable].

(** The surrogate pair of U+1F9E0, then the text. *)
Definition analyzing : jsstring :=
  [0xD83E; 0xDDE0] ++ lit " Analyzing interaction...".

(** [handlePythonError(code, errorMessage)], with what
    [pythonAssistant.isActive()] answers. *)
Definition handlePythonError
    (serviceActive : bool) (code errorMessage : jsstring) (st : State)
  : State * list Call :=
  (if serviceActive then setAssistanceFeedback analyzing st else st,
   [HandleError code errorMessage]).

(** The cleanup of that effect. *)
Definition cleanupAssistant : list Call := [Disable].

(** [n] clicks on the assistance toggle; after each one the effect is
    cleaned up and run again on the new state. *)
Fixpoint toggles (n : nat) (st : State) : State * list Call :=
  match n with
  | O => (st, [])
  | S k =>
      let '(st1, calls1) := toggles k st in
      let '(st2, calls2) := toggleAssistance st1 in
      (st2, calls1 ++ calls2 ++ cleanupAssistant ++ syncAssistant st2)
  end.

End Assist.

(* ===================================================================== *)
(** ** RainforestRoom, DesertRoom, NatureRoom: the other placement loops *)
(* ===================================================================== *)

Module Rooms.

Import IEEE754 Scene.
Local Open Scope Q_scope.

(** [dummy.rotation.x = a], and so on. *)
Definition rotation_x_set (a : number) (o : Object3D) : Object3D :=
  rotation_set a (vy (rotation o)) (vz (rotation o)) o.

Definition rotation_y_set (a : number) (o : Object3D) : Object3D :=
  rotation_set (vx (rotation o)) a (vz (rotation o)) o.

Definition rotation_z_set (a : number) (o : Object3D) : Object3D :=
  rotation_set (vx (rotation o)) (vy (rotation o)) a o.

Definition treeCount : nat := 80.
Definition rainCount : nat := N.to_nat 8000.
Definition rockCount : nat := 50.
Definition bushCount : nat := 100.
Definition grassCount : nat := N.to_nat 100000.

(** The tree loop writes two meshes. *)
Record TreeLoop := {
  trunks : InstancedMesh;
  foliage : InstancedMesh;
  treeDummy : Object3D;
  treeDrawn : nat
}.

(** The rain loop writes a mesh and two [Float32Array]s. *)
Record RainLoop := {
  drops : InstancedMesh;
  speeds : list number;
  opacities : list number;
  rainDummy : Object3D;
  rainDrawn : nat
}.

Section Placement.

Variable random : nat -> number.
Variables Math_sin Math_cos : number -> number.
Variable Math_pow : number -> number -> number.

(** RainforestRoom, the trees: a trunk and the foliage on top of it. *)
Definition treeBody (i : nat) (s : TreeLoop) : TreeLoop :=
  let k := treeDrawn s in
  let angle := mul (mul (random k) Math_PI) 2 in
  let r := add 20 (mul (random (k + 1)%nat) 70) in
  let x := mul (Math_sin angle) r in
  let z := mul (Math_cos angle) r in
  let d := position_set x 10 z (treeDummy s) in
  let scaleY := add 1 (mul (random (k + 2)%nat) 0.5) in
  let d := scale_set (add 1 (random (k + 3)%nat)) scaleY
             (add 1 (random (k + 4)%nat)) d in
  let d := rotation_set (mul (sub (random (k + 5)%nat) 0.5) (literal 0.1))
             (mul (random (k + 6)%nat) Math_PI)
             (mul (sub (random (k + 7)%nat) 0.5) (literal 0.1)) d in
  let d := updateMatrix d in
  let t := setMatrixAt i (matrix d) (trunks s) in
  let d := position_set x (mul 18 scaleY) z d in
  let d := scale_set 6 4 6 d in
  let d := rotation_set (random (k + 8)%nat) (random (k + 9)%nat)
             (random (k + 10)%nat) d in
  let d := updateMatrix d in
  let f := setMatrixAt i (matrix d) (foliage s) in
  {| trunks := t; foliage := f; treeDummy := d; treeDrawn := (k + 11)%nat |}.

(** [if (!trunkRef.current || !foliageRef.current) return;] and the loop. *)
Definition placeTrees (k0 : nat) (trunkRef foliageRef : option InstancedMesh)
  : option TreeLoop :=
  match trunkRef, foliageRef with
  | Some t, Some f =>
      Some (forLoop treeCount 0 treeBody
              {| trunks := t; foliage := f; treeDummy := newObject3D;
                 treeDrawn := k0 |})
  | _, _ => None
  end.

(** RainforestRoom, the rain. *)
Definition rainBody (i : nat) (s : RainLoop) : RainLoop :=
  let k := rainDrawn s in
  let d := position_set (mul (sub (random k) 0.5) 100)
             (mul (random (k + 1)%nat) 40)
             (mul (sub (random (k + 2)%nat) 0.5) 100) (rainDummy s) in
  let d := rotation_x_set (literal 0.1) d in
  let d := updateMatrix d in
  {| drops := setMatrixAt i (matrix d) (drops s);
     speeds := <[i := fround (random (k + 3)%nat)]> (speeds s);
     opacities :=
       <[i := fround (add (literal 0.3)
                        (mul (random (k + 4)%nat) (literal 0.4)))]>
         (opacities s);
     rainDummy := d;
     rainDrawn := (k + 5)%nat |}.

Definition placeRain (k0 : nat) (meshRef : option InstancedMesh)
  : option RainLoop :=
  match meshRef with
  | None => None
  | Some m =>
      Some (forLoop rainCount 0 rainBody
              {| drops := m;
                 speeds := replicate rainCount 0;
                 opacities := replicate rainCount 0;
                 rainDummy := newObject3D;
                 rainDrawn := k0 |})
  end.

(** DesertRoom, the rocks. *)
Definition rockBody (i : nat) (s : Loop) : Loop :=
  let k := drawn s in
  let angle := mul (mul (random k) Math_PI) 2 in
  let r := add 10 (mul (random (k + 1)%nat) 80) in
  let x := mul (Math_sin angle) r in
  let z := mul (Math_cos angle) r in
  let d := position_set x (literal 0.2) z (dummy s) in
  let s' := add 0.5 (mul (random (k + 2)%nat) 2) in
  let d := scale_set s' (mul s' (literal 0.6)) s' d in
  let d := rotation_set (mul (random (k + 3)%nat) Math_PI)
             (mul (random (k + 4)%nat) Math_PI)
             (mul (random (k + 5)%nat) Math_PI) d in
  let d := updateMatrix d in
  {| mesh := setMatrixAt i (matrix d) (mesh s); dummy := d;
     drawn := (k + 6)%nat |}.

Definition placeRocks (k0 : nat) (current : option InstancedMesh)
  : option Loop :=
  match current with
  | None => None
  | Some m => Some (forLoop rockCount 0 rockBody (startLoop k0 m))
  end.

(** DesertRoom, the bushes. *)
Definition bushBody (i : nat) (s : Loop) : Loop :=
  let k := drawn s in
  let angle := mul (mul (random k) Math_PI) 2 in
  let r := add 8 (mul (random (k + 1)%nat) 85) in
  let x := mul (Math_sin angle) r in
  let z := mul (Math_cos angle) r in
  let d := position_set x 0 z (dummy s) in
  let s' := add (literal 0.8) (mul (random (k + 2)%nat) 0.5) in
  let d := scale_set s' s' s' d in
  let d := rotation_y_set (mul (mul (random (k + 3)%nat) Math_PI) 2) d in
  let d := updateMatrix d in
  {| mesh := setMatrixAt i (matrix d) (mesh s); dummy := d;
     drawn := (k + 4)%nat |}.

Definition placeBushes (k0 : nat) (current : option InstancedMesh)
  : option Loop :=
  match current with
  | None => None
  | Some m => Some (forLoop bushCount 0 bushBody (startLoop k0 m))
  end.

(** NatureRoom, the grass. *)
Definition centerClearance : number := 4.

Definition grassBody (i : nat) (s : Loop) : Loop :=
  let k := drawn s in
  let angle := mul (mul (random k) Math_PI) 2 in
  let r := mul (Math_pow (random (k + 1)%nat) (literal 0.6)) 90 in
  let radius := Math_max centerClearance r in
  let x := mul (Math_sin angle) radius in
  let z := mul (Math_cos angle) radius in
  let d := position_set x 0 z (dummy s) in
  let scale := add (literal 0.7) (mul (random (k + 2)%nat) (literal 0.6)) in
  let d := scale_set scale
             (mul scale (add (literal 0.8)
                           (mul (random (k + 3)%nat) (literal 0.4))))
             scale d in
  let d := rotation_y_set (mul (mul (random (k + 4)%nat) Math_PI) 2) d in
  let d := rotation_x_set (mul (sub (random (k + 5)%nat) 0.5) (literal 0.3)) d in
  let d := rotation_z_set (mul (sub (random (k + 6)%nat) 0.5) (literal 0.3)) d in
  let d := updateMatrix d in
  {| mesh := setMatrixAt i (matrix d) (mesh s); dummy := d;
     drawn := (k + 7)%nat |}.

Definition placeGrass (k0 : nat) (current : option InstancedMesh)
  : option Loop :=
  match current with
  | None => None
  | Some m => Some (forLoop grassCount 0 grassBody (startLoop k0 m))
  end.

End Placement.

(** The colours an effect leaves behind, white where none was set. *)
Definition colours (m : InstancedMesh) : list Color :=
  default (replicate (length (instanceMatrix m)) white) (instanceColor m).

Definition placedColours (result : option Loop) : list Color :=
  match result with
  | Some l => colours (mesh l)
  | None => []
  end.

End Rooms.

(* ===================================================================== *)
(** ** Properties of the environment state and of the room shown *)
(* ===================================================================== *)

Section AppProperties.

Import App.

Lemma successor_table :
  map successor environments = [nature; desert; rainforest; iceland; cyber].
Proof. reflexivity. Qed.

Lemma environment_listed (e : Environment) : e ∈ environments.
Proof. destruct e; apply (bool_decide_unpack _); reflexivity. Qed.

(** A second click during the fade is ignored, as is a request through
    the prop of the render on screen, and the toggle completes with the
    two timers. *)
Example double_click :
  steps [Toggle; Toggle; Expire;
         Change {| renderedEnvironment := nature;
                   renderedTransitioning := true |} iceland;
         Expire] initial
  = {| environment := nature; isTransitioning := false; timers := [] |}.
Proof. reflexivity. Qed.

Lemma completedToggle_idle (st : State) :
  isTransitioning st = false -> timers st = [] ->
  completedToggle st =
    {| environment := successor (environment st);
       isTransitioning := false;
       timers := [] |}.
Proof.
  destruct st as [e t ts]; simpl; intros -> ->.
  reflexivity.
Qed.

Lemma visited_idle (n : nat) : forall st,
  isTransitioning st = false -> timers st = [] ->
  visited n st =
    map (fun k => Nat.iter k successor (environment st)) (seq 1 n).
Proof.
  induction n as [|n IH]; intros st Ht Hs; [reflexivity|].
  cbn [visited]. rewrite (completedToggle_idle st Ht Hs).
  rewrite IH by reflexivity. cbn [environment seq map Nat.iter].
  f_equal. rewrite <- (seq_shift n 1), map_map.
  apply map_ext. intros k.
  now rewrite Nat.iter_succ_r.
Qed.

(** C8.  The guard of [handleEnvironmentChange] tests the constants of
    the render that created the function, not the state of the call.
    The function created by the first render (cyber, no transition), kept
    and called with desert after a click on the theme button has started
    a transition, is not ignored: it arms a second timer next to the one
    of the click, and after the four expirations the application shows
    desert, not the nature the click asked for.  The function of the
    render on screen, called in the same state, changes nothing. *)
Theorem stale_handler_starts_second_transition :
  let st := toggleEnvironment initial in
  let st' := handleEnvironmentChange (render initial) desert st in
  isTransitioning st = true
  /\ timers st = [(500, FadeOutThenNext)]
  /\ handleEnvironmentChange (render st) desert st = st
  /\ st' <> st
  /\ timers st' = [(500, FadeOutThenNext); (500, FadeOutThenSet desert)]
  /\ steps [Expire; Expire; Expire; Expire] st'
     = {| environment := desert; isTransitioning := false; timers := [] |}
  /\ steps [Expire; Expire] st
     = {| environment := nature; isTransitioning := false; timers := [] |}.
Proof.
  cbv zeta.
  split; [reflexivity|]. split; [reflexivity|]. split; [reflexivity|].
  split; [discriminate|]. split; [reflexivity|]. split; reflexivity.
Qed.

(** C9.  The successor applied by [toggleEnvironment] is a 5-cycle: from
    an idle state, the environments after one to five completed toggles
    are the fixed list cyber, nature, desert, rainforest, iceland rotated
    to start after the current environment; each environment occurs
    once; the fifth toggle gives back the starting state; and fewer than
    five applications of the successor never return to the start. *)
Theorem toggle_cycles_through_five (st : State) :
  isTransitioning st = false -> timers st = [] ->
  (exists k, (k < 5)%nat /\
     environments !! k = Some (successor (environment st)) /\
     visited 5 st = rotate k environments)
  /\ NoDup (visited 5 st)
  /\ (forall e, e ∈ visited 5 st)
  /\ last (visited 5 st) = Some (environment st)
  /\ Nat.iter 5 completedToggle st = st
  /\ (forall k, (0 < k < 5)%nat ->
        Nat.iter k successor (environment st) <> environment st).
Proof.
  intros Ht Hs. rewrite (visited_idle 5 st Ht Hs).
  destruct st as [e t ts]; simpl in Ht, Hs; subst t ts.
  split; [|split; [|split; [|split; [|split]]]].
  - destruct e;
      [exists 1%nat | exists 2%nat | exists 3%nat | exists 4%nat | exists 0%nat];
      (split; [lia | split; reflexivity]).
  - destruct e; apply (bool_decide_unpack _); reflexivity.
  - intros e'. destruct e, e'; apply (bool_decide_unpack _); reflexivity.
  - destruct e; reflexivity.
  - destruct e; reflexivity.
  - intros k Hk.
    assert (k = 1 \/ k = 2 \/ k = 3 \/ k = 4)%nat as Hc by lia.
    destruct Hc as [-> | [-> | [-> | ->]]]; destruct e; cbn; discriminate.
Qed.

Lemma toggle_cycles_through_five_witness :
  visited 5 initial = [nature; desert; rainforest; iceland; cyber]
  /\ Nat.iter 5 completedToggle initial = initial.
Proof.
  destruct (toggle_cycles_through_five initial eq_refl eq_refl)
    as (_ & _ & _ & _ & H & _).
  split; [reflexivity | exact H].
Defined.

(** C3.  The environment is one of the five values, in every state the
    application reaches; [Experience] renders the room component of the
    environment, and the component tells the environment;
    every room is given the same hologram data, generated code and
    Python-error handler, taken from the state of [Experience], so that
    an event of the application changes none of them. *)
Theorem one_room_per_environment
    (env : Environment) (exp : Voice.State) (events : list Event) (app : State) :
  environment (steps events initial) ∈ environments
  /\ component (renderRoom env exp) = roomOf env
  /\ environmentOf (component (renderRoom env exp)) = env
  /\ sharedProps (renderRoom env exp) =
       (Some (Voice.hologramData exp), Some (Voice.generatedCode exp),
        Some handlePythonError)
  /\ setHologramData_prop (renderRoom env exp) = Some setHologramData
  /\ sharedProps (renderRoom (environment (steps events app)) exp) =
       sharedProps (renderRoom (environment app) exp).
Proof.
  split; [apply environment_listed|].
  split; [destruct env; reflexivity|].
  split; [destruct env; reflexivity|].
  split; [destruct env; reflexivity|].
  split; [destruct env; reflexivity|].
  generalize (environment (steps events app)); intros e'.
  destruct e', (environment app); reflexivity.
Qed.

End AppProperties.

(* ===================================================================== *)
(** ** Properties of the voice-command effect *)
(* ===================================================================== *)

Section VoiceProperties.

Import Voice.

Example removeCommand_full :
  removeCommand (lit "generate me a  box") = lit "box".
Proof. reflexivity. Qed.

Example removeCommand_needs_space :
  removeCommand (lit "showcase") = lit "showcase".
Proof. reflexivity. Qed.

Example removeCommand_me_at_end :
  removeCommand (lit "create me") = lit "me".
Proof. reflexivity. Qed.

Example parsedName_taurus :
  parsedName toLowerCase_ascii (lit "Show me a Taurus ") = lit "taurus".
Proof. reflexivity. Qed.

Example correct_taurus :
  fst (correct (lit "taurus")) = VString (lit "torus").
Proof. reflexivity. Qed.

Example inactive_voice_is_ignored :
  voiceEffect toLowerCase_ascii (lit "listening") (lit "show me a box") initial
  = (initial, []).
Proof. reflexivity. Qed.

Lemma list_to_map_lookupEntry (l : list (jsstring * jsstring)) (key : jsstring) :
  (list_to_map (prod_map (λ key, key) VString <$> l) : gmap jsstring jsvalue) !! key
  = VString <$> lookupEntry key l.
Proof.
  induction l as [|[k v] l IH]; simpl.
  - apply lookup_empty.
  - rewrite lookup_insert.
    destruct (decide (k = key)); [reflexivity | exact IH].
Qed.

Lemma corrections_lookup (key : jsstring) :
  corrections !! key = VString <$> lookupEntry key corrections_entries.
Proof. apply list_to_map_lookupEntry. Qed.

Lemma corrections_values_nonempty (key v : jsstring) :
  lookupEntry key corrections_entries = Some v -> v <> [].
Proof.
  unfold corrections_entries; simpl.
  repeat (case_decide; [intros [= <-]; discriminate|]).
  discriminate.
Qed.

(** A key of the table is replaced by the value of the table. *)
Lemma correct_table_key (name v : jsstring) :
  lookupEntry name corrections_entries = Some v ->
  correct name = (VString v, [ConsoleLog (Autocorrecting name (VString v))]).
Proof.
  intros H. unfold correct, js_get.
  rewrite corrections_lookup, H; simpl.
  destruct v as [|c v]; [now apply corrections_values_nonempty in H|].
  reflexivity.
Qed.

(** A name that is no key of the table and that [Object.prototype] does
    not define is passed on as it is. *)
Lemma correct_other_name (name : jsstring) :
  lookupEntry name corrections_entries = None ->
  inheritedName name = false ->
  correct name = (VString name, []).
Proof.
  intros H Hp. unfold correct, js_get.
  rewrite corrections_lookup, H; simpl.
  unfold inheritedName in Hp. apply bool_decide_eq_false in Hp.
  destruct (Object_prototype !! name) as [w|] eqn:E.
  - exfalso. apply Hp. now exists w.
  - reflexivity.
Qed.

Lemma correct_by_table (name : jsstring) :
  inheritedName name = false ->
  fst (correct name) = VString (tableCorrection name)
  /\ generateCalls (snd (correct name)) = [].
Proof.
  intros Hp. unfold tableCorrection.
  destruct (lookupEntry name corrections_entries) as [v|] eqn:E.
  - rewrite (correct_table_key _ _ E). split; reflexivity.
  - rewrite (correct_other_name _ E Hp). split; reflexivity.
Qed.

Lemma isCommand_nil : isCommand [] = false.
Proof. reflexivity. Qed.

Lemma str_eqb_false (a b : jsstring) : a <> b -> str_eqb a b = false.
Proof. intros H. unfold str_eqb. now apply bool_decide_eq_false. Qed.

Lemma voiceEffect_command
    (toLowerCase : jsstring -> jsstring) (voiceState transcript : jsstring)
    (st : State) :
  toLowerCase [] = [] ->
  isVoiceActive voiceState = true ->
  transcript <> prevTranscriptRef st ->
  isCommand (toLowerCase transcript) = true ->
  voiceEffect toLowerCase voiceState transcript st =
    (set_prevTranscript transcript st,
     [AddLog dialogue (lit "Atlas")
        (lit "Voice Command: " ++ [dquote] ++ transcript ++ [dquote])]
     ++ snd (correct (parsedName toLowerCase transcript))
     ++ [ ConsoleLog (VoiceCommandDetected
                        (fst (correct (parsedName toLowerCase transcript))));
          ConsoleLog CallingGenerate;
          GenerateHologramCode
            (fst (correct (parsedName toLowerCase transcript))) ]).
Proof.
  intros Hnil Hact Hne Hcmd.
  assert (transcript <> []) as Hne0.
  { intros ->. rewrite Hnil, isCommand_nil in Hcmd. discriminate. }
  unfold voiceEffect, parsedName.
  rewrite Hact, (str_eqb_false _ _ Hne0), (str_eqb_false _ _ Hne), Hcmd.
  cbn [andb negb].
  destruct (correct (trim (removeCommand (toLowerCase transcript)))); reflexivity.
Qed.

(** The effect either does nothing or records the transcript. *)
Lemma voiceEffect_processed
    (toLowerCase : jsstring -> jsstring) (voiceState transcript : jsstring)
    (st : State) :
  voiceEffect toLowerCase voiceState transcript st = (st, [])
  \/ prevTranscriptRef (fst (voiceEffect toLowerCase voiceState transcript st))
     = transcript.
Proof.
  unfold voiceEffect.
  destruct (isVoiceActive voiceState && negb (str_eqb transcript [])
            && negb (str_eqb transcript (prevTranscriptRef st)));
    [right | now left].
  destruct (isCommand (toLowerCase transcript)); [|reflexivity].
  cbv zeta. destruct (correct _); reflexivity.
Qed.

(** A transcript equal to the recorded one is not processed again. *)
Lemma voiceEffect_same
    (toLowerCase : jsstring -> jsstring) (voiceState transcript : jsstring)
    (st : State) :
  prevTranscriptRef st = transcript ->
  voiceEffect toLowerCase voiceState transcript st = (st, []).
Proof.
  intros <-. unfold voiceEffect.
  replace (str_eqb (prevTranscriptRef st) (prevTranscriptRef st)) with true
    by (symmetry; now apply bool_decide_eq_true_2).
  cbn [negb]. now rewrite andb_false_r.
Qed.

(** Doing nothing once is doing nothing twice. *)
Lemma voiceEffect_skips
    (toLowerCase : jsstring -> jsstring) (voiceState transcript : jsstring)
    (st : State) :
  voiceEffect toLowerCase voiceState transcript st = (st, []) ->
  snd (voiceEffect toLowerCase voiceState transcript
         (fst (voiceEffect toLowerCase voiceState transcript st))) = [].
Proof. intros H. rewrite H. cbn [fst]. now rewrite H. Qed.

Lemma generateCalls_app (a b : list Call) :
  generateCalls (a ++ b) = generateCalls a ++ generateCalls b.
Proof. apply omap_app. Qed.

(** C1, as amended.  A transcript received while the voice state is
    'thinking' or 'speaking', different from the one processed before,
    whose lowercased form starts with show, generate or create, makes
    the effect call [generateHologramCode] once, with the parsed name (the
    command prefix deleted, the rest trimmed) after the corrections table
    has been applied to it, for every name [Object.prototype] does not
    define; when the call resolves, the code of the response becomes the
    generated code and one action log entry with its description is
    added. *)
Theorem voice_command_calls_generator
    (toLowerCase : jsstring -> jsstring) (voiceState transcript : jsstring)
    (st : State) (response : Response) :
  toLowerCase [] = [] ->
  isVoiceActive voiceState = true ->
  transcript <> prevTranscriptRef st ->
  isCommand (toLowerCase transcript) = true ->
  inheritedName (parsedName toLowerCase transcript) = false ->
  generateCalls (snd (voiceEffect toLowerCase voiceState transcript st))
    = [VString (tableCorrection (parsedName toLowerCase transcript))]
  /\ generatedCode
       (fst (onGenerateSettled (Resolved response)
               (fst (voiceEffect toLowerCase voiceState transcript st))))
     = Some (code response)
  /\ actionLogEntries
       (snd (onGenerateSettled (Resolved response)
               (fst (voiceEffect toLowerCase voiceState transcript st))))
     = [(lit "Luna",
         lit "Initializing Holographic Protocol: " ++ description response)].
Proof.
  intros Hnil Hact Hne Hcmd Hp.
  rewrite (voiceEffect_command _ _ _ _ Hnil Hact Hne Hcmd).
  destruct (correct_by_table _ Hp) as [Hname Hlog].
  cbn [fst snd]. split; [|split; reflexivity].
  rewrite !generateCalls_app, Hlog, Hname. reflexivity.
Qed.

Lemma voice_command_calls_generator_witness :
  generateCalls
    (snd (voiceEffect toLowerCase_ascii (lit "thinking")
            (lit "Generate me a Taurus") initial))
  = [VString (lit "torus")].
Proof.
  refine (proj1 (voice_command_calls_generator toLowerCase_ascii
                   (lit "thinking") (lit "Generate me a Taurus") initial
                   {| code := []; description := [] |}
                   eq_refl eq_refl _ eq_refl eq_refl)).
  discriminate.
Defined.

(** C1 as it is stated fails: for "show art" the name parsed from the
    transcript is "art", and the call is made with "earth". *)
Lemma voice_command_name_is_corrected :
  isVoiceActive (lit "thinking") = true
  /\ lit "show art" <> prevTranscriptRef initial
  /\ isCommand (toLowerCase_ascii (lit "show art")) = true
  /\ parsedName toLowerCase_ascii (lit "show art") = lit "art"
  /\ generateCalls
       (snd (voiceEffect toLowerCase_ascii (lit "thinking") (lit "show art")
               initial))
     = [VString (lit "earth")]
  /\ generateCalls
       (snd (voiceEffect toLowerCase_ascii (lit "thinking") (lit "show art")
               initial))
     <> [VString (parsedName toLowerCase_ascii (lit "show art"))].
Proof.
  split; [reflexivity|]. split; [discriminate|].
  split; [reflexivity|]. split; [reflexivity|].
  split; [reflexivity|]. vm_compute. discriminate.
Qed.

(** C5, at the failing input.  The value passed for a parsed name is the
    value of the table for a key of the table, the name itself for a name
    that is no key and that [Object.prototype] does not define, and the
    inherited member otherwise.  So for "show me a constructor" the parsed
    name is "constructor", which is no key of the table, and the value
    passed to [generateHologramCode] is not that name but the member
    [constructor] of [Object.prototype]. *)
Theorem inherited_name_is_not_passed_through (name : jsstring) :
  fst (correct name)
  = match lookupEntry name corrections_entries with
    | Some v => VString v
    | None =>
        match Object_prototype !! name with
        | Some member => member
        | None => VString name
        end
    end
  /\ parsedName toLowerCase_ascii (lit "show me a constructor")
     = lit "constructor"
  /\ lookupEntry (lit "constructor") corrections_entries = None
  /\ generateCalls
       (snd (voiceEffect toLowerCase_ascii (lit "thinking")
               (lit "show me a constructor") initial))
     = [VBuiltin OP_constructor].
Proof.
  split; [|split; [|split]; reflexivity].
  destruct (lookupEntry name corrections_entries) as [v|] eqn:E.
  - now rewrite (correct_table_key _ _ E).
  - destruct (Object_prototype !! name) as [member|] eqn:Ep.
    + unfold correct, js_get. rewrite corrections_lookup, E, Ep; simpl.
      assert (truthy member = true) as ->; [|reflexivity].
      unfold Object_prototype in Ep.
      apply elem_of_list_to_map_2 in Ep.
      repeat (apply elem_of_cons in Ep as [[= _ ->] | Ep]; [reflexivity|]).
      now apply elem_of_nil in Ep.
    + rewrite correct_other_name; [reflexivity | exact E |].
      unfold inheritedName. apply bool_decide_eq_false.
      rewrite Ep. now intros [w Hw].
Qed.

(** C6.  When the promise of [generateHologramCode] rejects, the only
    call made is [console.error]: the state, and with it the generated
    code, is the one before, there is no further call of
    [generateHologramCode], no action log entry and nothing spoken; and
    the effect, run again on the transcript it has processed, makes no
    call at all. *)
Theorem rejected_generation_is_only_logged
    (toLowerCase : jsstring -> jsstring) (voiceState transcript : jsstring)
    (err : jsvalue) (st : State) :
  onGenerateSettled (Rejected err) st = (st, [ConsoleError (GenerateFailed err)])
  /\ generatedCode (fst (onGenerateSettled (Rejected err) st)) = generatedCode st
  /\ generateCalls (snd (onGenerateSettled (Rejected err) st)) = []
  /\ actionLogEntries (snd (onGenerateSettled (Rejected err) st)) = []
  /\ spoken (snd (onGenerateSettled (Rejected err) st)) = []
  /\ snd (voiceEffect toLowerCase voiceState transcript
            (fst (onGenerateSettled (Rejected err)
                    (fst (voiceEffect toLowerCase voiceState transcript st)))))
     = [].
Proof.
  repeat (split; [reflexivity|]).
  cbn [onGenerateSettled fst].
  destruct (voiceEffect_processed toLowerCase voiceState transcript st)
    as [Hskip | Hprev].
  - now apply voiceEffect_skips.
  - now rewrite voiceEffect_same.
Qed.

End VoiceProperties.

(* ===================================================================== *)
(** ** Properties of analyzeMood *)
(* ===================================================================== *)

Section MoodProperties.

Import Mood.

Example removeFences_answer :
  removeFences (fenced (lit "{}")) = lit "{}".
Proof. reflexivity. Qed.

(** A fence after a line feed is matched by the second alternative, which
    leaves the word json behind. *)
Example removeFences_after_newline :
  removeFences (LF :: fence ++ lit "json" ++ [LF] ++ lit "{}")
  = lit "json" ++ [LF] ++ lit "{}".
Proof. reflexivity. Qed.

Example parseJSON_nested :
  parseJSON (lit "{" ++ quoted "a" ++ lit ": [1, -2.5e3, true, null, {}]} ")
  = Ok (JObject [(lit "a", JArray [JNumber (lit "1"); JNumber (lit "-2.5e3");
                                   JBool true; JNull; JObject []])]).
Proof. reflexivity. Qed.

Example parseJSON_trailing :
  parseJSON (lit "{} x") = Throw SyntaxError.
Proof. reflexivity. Qed.

Example declared_environment_accepted :
  hasDeclaredEnvironment
    (JObject [(lit "suggestedEnvironment", JString (lit "iceland"))]) = true.
Proof. reflexivity. Qed.

Example context_unavailable :
  analyzeMood {| createCanvas := Ok tt; getContext2d := Ok false;
                 drawImage := Ok tt; toDataURL := Ok [];
                 generateContent := fun _ => Ok [];
                 JSON_parse := parseJSON |} = Ok JNull.
Proof. reflexivity. Qed.

Ltac run_analyzeMood :=
  unfold analyzeMood, tryCatch, mbind, mret, outcome_bind, outcome_ret, bind.

Lemma analyzeMood_resolves (p : Platform) : exists v, analyzeMood p = Ok v.
Proof.
  destruct p as [canvas ctx draw url gen parse].
  run_analyzeMood; cbn.
  destruct canvas as [[]|]; [|eauto].
  destruct ctx as [[]|]; cbn; [|eauto|eauto].
  destruct draw as [[]|]; [|eauto].
  destruct url as [u|]; [|eauto].
  destruct (gen _) as [t|]; [|eauto].
  destruct (parse _); eauto.
Qed.

(** C2.  [analyzeMood] never throws: in every session it resolves with a
    value.  But the value is whatever [JSON.parse] returns, cast to
    [MoodResult] without a check: when the model answers 42, the promise
    resolves with the number 42, which is neither a [MoodResult] nor
    [null]; a well-formed answer is returned as the [MoodResult] it
    is. *)
Theorem analyzeMood_returns_what_was_parsed :
  (forall p : Platform, exists v, analyzeMood p = Ok v)
  /\ analyzeMood (answering (lit "42")) = Ok (JNumber (lit "42"))
  /\ isMoodResult (JNumber (lit "42")) = false
  /\ JNumber (lit "42") <> JNull
  /\ (exists data,
        analyzeMood
          (answering (fenced (moodText "Calm" "iceland" "You look calm.")))
        = Ok data
        /\ isMoodResult data = true).
Proof.
  split; [exact analyzeMood_resolves|].
  split; [vm_compute; reflexivity|].
  split; [reflexivity|].
  split; [discriminate|].
  eexists. split; [vm_compute; reflexivity|]. vm_compute. reflexivity.
Qed.

(** C4, at the failing input.  The model answers, between fences, an
    object whose [suggestedEnvironment] is "space"; [analyzeMood] parses
    the answer and returns that object as it is, with an environment
    outside the declared domain. *)
Theorem analyzeMood_returns_undeclared_environment :
  exists data,
    analyzeMood (answering (fenced (moodText "Curious" "space" "You look up.")))
      = Ok data
    /\ field (lit "suggestedEnvironment") data = Some (JString (lit "space"))
    /\ hasDeclaredEnvironment data = false.
Proof.
  eexists. split; [vm_compute; reflexivity|].
  split; reflexivity.
Qed.

End MoodProperties.

(* ===================================================================== *)
(** ** Properties of rounding *)
(* ===================================================================== *)

Section NumberProperties.

Import IEEE754.
Local Open Scope Q_scope.

Example literal_tenth : literal 0.1 = 3602879701896397 # 36028797018963968.
Proof. vm_compute. reflexivity. Qed.

Example Math_PI_value : Math_PI = 884279719003555 # 281474976710656.
Proof. vm_compute. reflexivity. Qed.

Example fround_fifth : fround (literal 0.2) = 13421773 # 67108864.
Proof. vm_compute. reflexivity. Qed.

Example Math_sqrt_values :
  Math_sqrt 25 = 5 /\ Math_sqrt 2 = 6369051672525773 # 4503599627370496.
Proof. split; vm_compute; reflexivity. Qed.

Lemma pow2_pos (e : Z) : 0 < pow2 e.
Proof. apply Qpower_0_lt. reflexivity. Qed.

Lemma pow2_add (a b : Z) : pow2 (a + b) == pow2 a * pow2 b.
Proof. apply Qpower_plus. discriminate. Qed.

Lemma pow2_sub (a b : Z) : pow2 (a - b) == pow2 a / pow2 b.
Proof. apply Qpower_minus. discriminate. Qed.

Lemma pow2_le (a b : Z) : (a <= b)%Z -> pow2 a <= pow2 b.
Proof. intros H. apply Qpower_le_compat_l; [exact H | discriminate]. Qed.

Lemma pow2_lt (a b : Z) : (a < b)%Z -> pow2 a < pow2 b.
Proof. intros H. apply Qpower_lt_compat_l; [exact H | reflexivity]. Qed.

Lemma pow2_lt_inv (a b : Z) : pow2 a < pow2 b -> (a < b)%Z.
Proof.
  intros H. destruct (Z_lt_le_dec a b) as [|Hle]; [assumption|].
  apply pow2_le in Hle. lra.
Qed.

Lemma pow2_Z (a : Z) : (0 <= a)%Z -> pow2 a == inject_Z (2 ^ a).
Proof. intros H. unfold pow2. now rewrite Zpower_Qpower. Qed.

Lemma Q_as_fraction (x : Q) : x == inject_Z (Qnum x) / inject_Z (Zpos (Qden x)).
Proof. destruct x as [n d]. cbn [Qnum Qden]. apply Qmake_Qdiv. Qed.

Lemma frac_le (n d n' d' : Z) :
  (0 < d)%Z -> (0 < d')%Z -> (n * d' <= n' * d)%Z ->
  inject_Z n / inject_Z d <= inject_Z n' / inject_Z d'.
Proof.
  intros Hd Hd' H.
  assert (0 < inject_Z d) by (rewrite <- (Zlt_Qlt 0); exact Hd).
  assert (0 < inject_Z d') by (rewrite <- (Zlt_Qlt 0); exact Hd').
  apply Qle_shift_div_l; [assumption|].
  setoid_replace (inject_Z n / inject_Z d * inject_Z d')
    with (inject_Z n * inject_Z d' / inject_Z d) using relation Qeq by (field; lra).
  apply Qle_shift_div_r; [assumption|].
  rewrite <- !inject_Z_mult. rewrite <- Zle_Qle. exact H.
Qed.

Lemma frac_lt (n d n' d' : Z) :
  (0 < d)%Z -> (0 < d')%Z -> (n * d' < n' * d)%Z ->
  inject_Z n / inject_Z d < inject_Z n' / inject_Z d'.
Proof.
  intros Hd Hd' H.
  assert (0 < inject_Z d) by (rewrite <- (Zlt_Qlt 0); exact Hd).
  assert (0 < inject_Z d') by (rewrite <- (Zlt_Qlt 0); exact Hd').
  apply Qlt_shift_div_l; [assumption|].
  setoid_replace (inject_Z n / inject_Z d * inject_Z d')
    with (inject_Z n * inject_Z d' / inject_Z d) using relation Qeq by (field; lra).
  apply Qlt_shift_div_r; [assumption|].
  rewrite <- !inject_Z_mult. rewrite <- Zlt_Qlt. exact H.
Qed.

Lemma ilog2_spec (x : Q) :
  0 < x -> pow2 (ilog2 x) <= x /\ x < pow2 (ilog2 x + 1).
Proof.
  intros Hx.
  assert (Hn : (0 < Qnum x)%Z).
  { destruct x as [n d]. unfold Qlt in Hx. cbn in Hx. cbn. lia. }
  set (n := Qnum x) in *. set (d := Zpos (Qden x)).
  assert (Hd : (0 < d)%Z) by (subst d; lia).
  pose proof (Z.log2_spec n Hn) as [Hn1 Hn2].
  pose proof (Z.log2_spec d Hd) as [Hd1 Hd2].
  pose proof (Z.log2_nonneg n) as Ha. pose proof (Z.log2_nonneg d) as Hb.
  set (a := Z.log2 n) in *. set (b := Z.log2 d) in *.
  assert (Hpa : (0 < 2 ^ a)%Z) by (apply Z.pow_pos_nonneg; lia).
  assert (Hpb : (0 < 2 ^ b)%Z) by (apply Z.pow_pos_nonneg; lia).
  assert (Hlow : pow2 (a - b - 1) <= x).
  { replace (a - b - 1)%Z with (a - (b + 1))%Z by lia.
    rewrite pow2_sub, (pow2_Z a), (pow2_Z (b + 1)) by lia.
    rewrite (Q_as_fraction x). fold n d.
    apply frac_le; [apply Z.pow_pos_nonneg; lia | lia |].
    nia. }
  assert (Hhigh : x < pow2 (a - b + 1)).
  { replace (a - b + 1)%Z with (a + 1 - b)%Z by lia.
    rewrite pow2_sub, (pow2_Z (a + 1)), (pow2_Z b) by lia.
    rewrite (Q_as_fraction x) at 1. fold n d.
    apply frac_lt; [lia | lia |].
    nia. }
  unfold ilog2. fold n d a b.
  destruct (Qle_bool (pow2 (a - b)) x) eqn:E.
  - apply Qle_bool_iff in E. split; assumption.
  - assert (~ pow2 (a - b) <= x) as Hnot.
    { intros H. apply Qle_bool_iff in H. congruence. }
    apply Qnot_le_lt in Hnot. split; [assumption|].
    replace (a - b - 1 + 1)%Z with (a - b)%Z by lia. assumption.
Qed.

Lemma ilog2_unique (x : Q) (k : Z) :
  pow2 k <= x -> x < pow2 (k + 1) -> ilog2 x = k.
Proof.
  intros H1 H2.
  assert (Hx : 0 < x) by (pose proof (pow2_pos k); lra).
  destruct (ilog2_spec x Hx) as [H3 H4].
  assert (pow2 k < pow2 (ilog2 x + 1)) as A by lra.
  assert (pow2 (ilog2 x) < pow2 (k + 1)) as B by lra.
  apply pow2_lt_inv in A. apply pow2_lt_inv in B. lia.
Qed.

Lemma ilog2_mono (x y : Q) : 0 < x -> x <= y -> (ilog2 x <= ilog2 y)%Z.
Proof.
  intros Hx Hxy.
  destruct (ilog2_spec x Hx) as [H1 _].
  destruct (ilog2_spec y) as [_ H2]; [lra|].
  assert (pow2 (ilog2 x) < pow2 (ilog2 y + 1)) as A by lra.
  apply pow2_lt_inv in A. lia.
Qed.

Lemma rne_bounds (z : Q) : (Qfloor z <= rne z <= Qfloor z + 1)%Z.
Proof.
  unfold rne. destruct (z - inject_Z (Qfloor z) ?= 1 # 2); [|lia|lia].
  destruct (Z.even (Qfloor z)); lia.
Qed.

Lemma rne_mono (x y : Q) : x <= y -> (rne x <= rne y)%Z.
Proof.
  intros H. pose proof (Qfloor_resp_le x y H) as Hf.
  destruct (Z.eq_dec (Qfloor x) (Qfloor y)) as [E|NE].
  - unfold rne. rewrite <- E.
    destruct (Qcompare_spec (x - inject_Z (Qfloor x)) (1 # 2)) as [A|A|A];
      destruct (Qcompare_spec (y - inject_Z (Qfloor x)) (1 # 2)) as [B|B|B];
      try lra; try lia; destruct (Z.even (Qfloor x)); lia.
  - pose proof (rne_bounds x). pose proof (rne_bounds y). lia.
Qed.

Lemma rne_Z (n : Z) : rne (inject_Z n) = n.
Proof.
  unfold rne. rewrite Qfloor_Z.
  destruct (Qcompare_spec (inject_Z n - inject_Z n) (1 # 2)) as [A|A|A];
    [lra | reflexivity | lra].
Qed.

Lemma div_le_div (x y d : Q) : 0 < d -> x <= y -> x / d <= y / d.
Proof.
  intros Hd H. unfold Qdiv. apply Qmult_le_compat_r; [exact H|].
  apply Qinv_le_0_compat. lra.
Qed.

Lemma div_mul_cancel (x d : Q) : 0 < d -> x / d * d == x.
Proof. intros Hd. field. lra. Qed.

Section Rounding.
Variable fmt : format.
Hypothesis precision_positive : (1 <= precision fmt)%Z.

Lemma ulpExponent_mono (x y : Q) :
  0 < x -> x <= y -> (ulpExponent fmt x <= ulpExponent fmt y)%Z.
Proof.
  intros Hx Hxy. pose proof (ilog2_mono x y Hx Hxy). unfold ulpExponent. lia.
Qed.

Lemma roundPositive_nonneg (x : Q) : 0 < x -> 0 <= roundPositive fmt x.
Proof.
  intros Hx. unfold roundPositive.
  pose proof (pow2_pos (ulpExponent fmt x)) as Hp.
  apply Qmult_le_0_compat; [|lra].
  assert (0 <= rne (x / pow2 (ulpExponent fmt x)))%Z as Hr.
  { rewrite <- (rne_Z 0) at 1. apply rne_mono.
    apply Qle_shift_div_l; [assumption|]. rewrite Qmult_0_l. lra. }
  rewrite Zle_Qle in Hr. exact Hr.
Qed.

Lemma roundPositive_below (x : Q) (m : Z) :
  x <= pow2 m -> (ulpExponent fmt x <= m)%Z ->
  roundPositive fmt x <= pow2 m.
Proof.
  intros Hm He. unfold roundPositive.
  set (e := ulpExponent fmt x) in *.
  pose proof (pow2_pos e) as Hp.
  assert (rne (x / pow2 e) <= 2 ^ (m - e))%Z as Hr.
  { rewrite <- (rne_Z (2 ^ (m - e))). apply rne_mono.
    rewrite <- pow2_Z by lia. rewrite pow2_sub.
    apply div_le_div; assumption. }
  rewrite Zle_Qle in Hr. rewrite <- pow2_Z in Hr by lia.
  rewrite pow2_sub in Hr.
  rewrite <- (div_mul_cancel (pow2 m) (pow2 e) Hp).
  apply Qmult_le_compat_r; [exact Hr | lra].
Qed.

Lemma roundPositive_above (x : Q) (m : Z) :
  pow2 m <= x -> (ulpExponent fmt x <= m)%Z ->
  pow2 m <= roundPositive fmt x.
Proof.
  intros Hm He. unfold roundPositive.
  set (e := ulpExponent fmt x) in *.
  pose proof (pow2_pos e) as Hp.
  assert (2 ^ (m - e) <= rne (x / pow2 e))%Z as Hr.
  { rewrite <- (rne_Z (2 ^ (m - e))). apply rne_mono.
    rewrite <- pow2_Z by lia. rewrite pow2_sub.
    apply div_le_div; assumption. }
  rewrite Zle_Qle in Hr. rewrite <- pow2_Z in Hr by lia.
  rewrite pow2_sub in Hr.
  rewrite <- (div_mul_cancel (pow2 m) (pow2 e) Hp) at 1.
  apply Qmult_le_compat_r; [exact Hr | lra].
Qed.

Lemma roundPositive_mono (x y : Q) :
  0 < x -> x <= y -> roundPositive fmt x <= roundPositive fmt y.
Proof.
  intros Hx Hxy.
  assert (Hy : 0 < y) by lra.
  pose proof (ulpExponent_mono x y Hx Hxy) as He.
  pose proof (ilog2_mono x y Hx Hxy) as Hl.
  destruct (ilog2_spec x Hx) as [Hx1 Hx2].
  destruct (ilog2_spec y Hy) as [Hy1 Hy2].
  destruct (Z.eq_dec (ulpExponent fmt x) (ulpExponent fmt y)) as [E|NE].
  - unfold roundPositive. rewrite <- E.
    pose proof (pow2_pos (ulpExponent fmt x)) as Hp.
    apply Qmult_le_compat_r; [|lra].
    rewrite <- Zle_Qle. apply rne_mono. apply div_le_div; assumption.
  - apply Qle_trans with (pow2 (ilog2 y)).
    + apply Qle_trans
        with (pow2 (Z.max (ilog2 x + 1) (ulpExponent fmt x))).
      * apply roundPositive_below; [|lia].
        apply Qle_trans with (pow2 (ilog2 x + 1)); [lra|].
        apply pow2_le. lia.
      * apply pow2_le. unfold ulpExponent in *. lia.
    + apply roundPositive_above; [assumption|].
      unfold ulpExponent in *. lia.
Qed.

Lemma round_mono (x y : Q) : x <= y -> round fmt x <= round fmt y.
Proof.
  intros H. unfold round. rewrite !Qred_correct.
  destruct (Qcompare_spec x 0) as [A|A|A];
    destruct (Qcompare_spec y 0) as [B|B|B]; try lra.
  - pose proof (roundPositive_nonneg y B). lra.
  - pose proof (roundPositive_nonneg (- x)). lra.
  - pose proof (roundPositive_mono (- y) (- x)). lra.
  - pose proof (roundPositive_nonneg (- x)).
    pose proof (roundPositive_nonneg y). lra.
  - apply roundPositive_mono; assumption.
Qed.

Lemma round_above (a x : Q) :
  round fmt a == a -> a <= x -> a <= round fmt x.
Proof. intros Ha H. rewrite <- Ha. apply round_mono. exact H. Qed.

Lemma round_below (b x : Q) :
  round fmt b == b -> x <= b -> round fmt x <= b.
Proof. intros Hb H. rewrite <- Hb. apply round_mono. exact H. Qed.
End Rounding.

Lemma rne_error (z : Q) :
  z - (1 # 2) <= inject_Z (rne z) <= z + (1 # 2).
Proof.
  pose proof (Qfloor_le z) as H1. pose proof (Qlt_floor z) as H2.
  rewrite inject_Z_plus in H2. change (inject_Z 1) with 1 in H2.
  unfold rne.
  destruct (Qcompare_spec (z - inject_Z (Qfloor z)) (1 # 2)) as [A|A|A].
  - destruct (Z.even (Qfloor z)).
    + lra.
    + rewrite inject_Z_plus. change (inject_Z 1) with 1. lra.
  - lra.
  - rewrite inject_Z_plus. change (inject_Z 1) with 1. lra.
Qed.

Section RoundingError.
Variable fmt : format.

(** Half a unit in the last place, relative to [x] in the normal range and
    absolute below it. *)
Lemma ulp_bound (x : Q) :
  0 < x ->
  pow2 (ulpExponent fmt x)
  <= x * pow2 (1 - precision fmt) + pow2 (emin fmt).
Proof.
  intros Hx. destruct (ilog2_spec x Hx) as [H1 _].
  pose proof (pow2_pos (emin fmt)) as He.
  pose proof (pow2_pos (1 - precision fmt)) as Hp.
  unfold ulpExponent.
  destruct (Z.max_spec (ilog2 x - precision fmt + 1) (emin fmt))
    as [[_ ->] | [_ ->]].
  - assert (0 <= x * pow2 (1 - precision fmt)) by (apply Qmult_le_0_compat; lra).
    lra.
  - replace (ilog2 x - precision fmt + 1)%Z
      with (ilog2 x + (1 - precision fmt))%Z by lia.
    rewrite pow2_add.
    assert (pow2 (ilog2 x) * pow2 (1 - precision fmt)
            <= x * pow2 (1 - precision fmt))
      by (apply Qmult_le_compat_r; lra).
    lra.
Qed.

Lemma roundPositive_error (x : Q) :
  0 < x ->
  x - pow2 (ulpExponent fmt x) * (1 # 2) <= roundPositive fmt x
  /\ roundPositive fmt x <= x + pow2 (ulpExponent fmt x) * (1 # 2).
Proof.
  intros Hx. unfold roundPositive.
  set (e := ulpExponent fmt x).
  pose proof (pow2_pos e) as Hp.
  pose proof (rne_error (x / pow2 e)) as [H1 H2].
  pose proof (div_mul_cancel x (pow2 e) Hp) as Hc.
  split.
  - apply Qle_trans with ((x / pow2 e - (1 # 2)) * pow2 e).
    + rewrite <- Hc at 1. lra.
    + apply Qmult_le_compat_r; lra.
  - apply Qle_trans with ((x / pow2 e + (1 # 2)) * pow2 e).
    + apply Qmult_le_compat_r; lra.
    + rewrite <- Hc at 2. lra.
Qed.

Lemma half_ulp_bound (x : Q) :
  0 < x ->
  pow2 (ulpExponent fmt x) * (1 # 2) <= x * relativeError fmt + absoluteError fmt.
Proof.
  intros Hx. pose proof (ulp_bound x Hx) as H.
  unfold relativeError, absoluteError.
  replace (- precision fmt)%Z with ((1 - precision fmt) + -1)%Z by lia.
  replace (emin fmt - 1)%Z with (emin fmt + -1)%Z by lia.
  rewrite !pow2_add. change (pow2 (-1)) with (1 # 2).
  lra.
Qed.

Lemma round_error_nonneg (x : Q) :
  0 <= x ->
  x - (x * relativeError fmt + absoluteError fmt) <= round fmt x
  /\ round fmt x <= x + (x * relativeError fmt + absoluteError fmt).
Proof.
  intros Hx. unfold round. rewrite Qred_correct.
  assert (0 < absoluteError fmt) by apply pow2_pos.
  assert (0 < relativeError fmt) by apply pow2_pos.
  destruct (Qcompare_spec x 0) as [A|A|A]; [|lra|].
  - rewrite A. lra.
  - pose proof (roundPositive_error x A) as [H1 H2].
    pose proof (half_ulp_bound x A). lra.
Qed.

Lemma round_error_nonpos (x : Q) :
  x <= 0 ->
  x - (- x * relativeError fmt + absoluteError fmt) <= round fmt x
  /\ round fmt x <= x + (- x * relativeError fmt + absoluteError fmt).
Proof.
  intros Hx. unfold round. rewrite Qred_correct.
  assert (0 < absoluteError fmt) by apply pow2_pos.
  assert (0 < relativeError fmt) by apply pow2_pos.
  destruct (Qcompare_spec x 0) as [A|A|A]; [| |lra].
  - rewrite A. lra.
  - assert (0 < - x) as B by lra.
    pose proof (roundPositive_error (- x) B) as [H1 H2].
    pose proof (half_ulp_bound (- x) B). lra.
Qed.
End RoundingError.

Lemma sqrtFloor_mono (x y : Q) : x <= y -> (sqrtFloor x <= sqrtFloor y)%Z.
Proof.
  intros H. unfold sqrtFloor. apply Z.sqrt_le_mono. apply Qfloor_resp_le.
  apply Qmult_le_compat_r; [exact H|]. pose proof (pow2_pos (2 * sqrtScale)). lra.
Qed.

Lemma sqrtFloor_square (x : Q) :
  0 <= x -> inject_Z (sqrtFloor x * sqrtFloor x) <= x * pow2 (2 * sqrtScale).
Proof.
  intros Hx. unfold sqrtFloor.
  set (y := x * pow2 (2 * sqrtScale)).
  assert (0 <= y) as Hy.
  { subst y. apply Qmult_le_0_compat; [exact Hx|].
    pose proof (pow2_pos (2 * sqrtScale)). lra. }
  assert (0 <= Qfloor y)%Z as Hf.
  { change 0%Z with (Qfloor 0). now apply Qfloor_resp_le. }
  pose proof (Z.sqrt_spec (Qfloor y) Hf) as [H1 _].
  apply Qle_trans with (inject_Z (Qfloor y)); [|apply Qfloor_le].
  rewrite <- Zle_Qle. exact H1.
Qed.

Lemma sqrtProxy_mono (x y : Q) : 0 <= x -> x <= y -> sqrtProxy x <= sqrtProxy y.
Proof.
  intros Hx H. pose proof (sqrtFloor_mono x y H) as Hn.
  assert (Hy : 0 <= y) by lra.
  pose proof (sqrtFloor_square x Hx) as Sx.
  pose proof (sqrtFloor_square y Hy) as Sy.
  pose proof (pow2_pos (- sqrtScale)) as P1.
  pose proof (pow2_pos (- sqrtScale - 1)) as P2.
  assert (pow2 (- sqrtScale) == 2 * pow2 (- sqrtScale - 1)) as E.
  { replace (- sqrtScale)%Z with (1 + (- sqrtScale - 1))%Z at 1 by lia.
    rewrite pow2_add. reflexivity. }
  assert (x * pow2 (2 * sqrtScale) <= y * pow2 (2 * sqrtScale)) as Hs.
  { apply Qmult_le_compat_r; [exact H|].
    pose proof (pow2_pos (2 * sqrtScale)). lra. }
  unfold sqrtProxy.
  set (n := sqrtFloor x) in *. set (m := sqrtFloor y) in *.
  destruct (Z.eq_dec n m) as [Enm|Nnm].
  - rewrite <- Enm in *.
    destruct (Qeq_bool (inject_Z (n * n)) (x * pow2 (2 * sqrtScale))) eqn:Ex;
      destruct (Qeq_bool (inject_Z (n * n)) (y * pow2 (2 * sqrtScale))) eqn:Ey.
    + lra.
    + rewrite inject_Z_plus, inject_Z_mult.
      change (inject_Z 2) with 2. change (inject_Z 1) with 1.
      rewrite E. assert (0 <= 1 * pow2 (- sqrtScale - 1)) by lra. lra.
    + apply Qeq_bool_iff in Ey. apply Qeq_bool_neq in Ex. exfalso. apply Ex. lra.
    + lra.
  - assert (n + 1 <= m)%Z as Hlt by lia.
    rewrite Zle_Qle, inject_Z_plus in Hlt. change (inject_Z 1) with 1 in Hlt.
    assert (sqrtProxy_upper :
              (if Qeq_bool (inject_Z (n * n)) (x * pow2 (2 * sqrtScale))
               then inject_Z n * pow2 (- sqrtScale)
               else inject_Z (2 * n + 1) * pow2 (- sqrtScale - 1))
              <= inject_Z m * pow2 (- sqrtScale)).
    { assert (inject_Z n * pow2 (- sqrtScale) + pow2 (- sqrtScale)
              <= inject_Z m * pow2 (- sqrtScale)).
      { setoid_replace (inject_Z n * pow2 (- sqrtScale) + pow2 (- sqrtScale))
          with ((inject_Z n + 1) * pow2 (- sqrtScale)) using relation Qeq by ring.
        apply Qmult_le_compat_r; lra. }
      destruct (Qeq_bool _ _).
      - lra.
      - rewrite inject_Z_plus, inject_Z_mult.
        change (inject_Z 2) with 2. change (inject_Z 1) with 1.
        setoid_replace ((2 * inject_Z n + 1) * pow2 (- sqrtScale - 1))
          with (inject_Z n * (2 * pow2 (- sqrtScale - 1)) + pow2 (- sqrtScale - 1))
          using relation Qeq by ring.
        rewrite <- E. lra. }
    apply Qle_trans with (inject_Z m * pow2 (- sqrtScale)); [exact sqrtProxy_upper|].
    clear sqrtProxy_upper.
    destruct (Qeq_bool _ _).
    + apply Qle_refl.
    + rewrite inject_Z_plus, inject_Z_mult.
      change (inject_Z 2) with 2. change (inject_Z 1) with 1.
      setoid_replace ((2 * inject_Z m + 1) * pow2 (- sqrtScale - 1))
        with (inject_Z m * (2 * pow2 (- sqrtScale - 1)) + pow2 (- sqrtScale - 1))
        using relation Qeq by ring.
      rewrite <- E. lra.
Qed.

Lemma Math_sqrt_mono (x y : Q) : 0 <= x -> x <= y -> Math_sqrt x <= Math_sqrt y.
Proof.
  intros Hx H. apply round_mono; [discriminate|]. now apply sqrtProxy_mono.
Qed.

Lemma round_error_within (fmt : format) (B x : Q) :
  - B <= x <= B ->
  x - (B * relativeError fmt + absoluteError fmt) <= round fmt x
  /\ round fmt x <= x + (B * relativeError fmt + absoluteError fmt).
Proof.
  intros [H1 H2].
  assert (0 < relativeError fmt) as Hr by apply pow2_pos.
  destruct (Qlt_le_dec x 0) as [Hx|Hx].
  - pose proof (round_error_nonpos fmt x) as [A1 A2]; [lra|].
    assert (- x * relativeError fmt <= B * relativeError fmt)
      by (apply Qmult_le_compat_r; lra).
    lra.
  - pose proof (round_error_nonneg fmt x Hx) as [A1 A2].
    assert (x * relativeError fmt <= B * relativeError fmt)
      by (apply Qmult_le_compat_r; lra).
    lra.
Qed.

Lemma square_close (a x E : Q) :
  - (100) <= a <= 100 -> 0 <= E -> a - E <= x <= a + E ->
  a * a - 200 * E <= x * x <= a * a + 200 * E + E * E.
Proof.
  intros [Ha1 Ha2] HE [Hx1 Hx2].
  assert (0 <= (100 - a) * (E - (x - a))) by (apply Qmult_le_0_compat; lra).
  assert (0 <= (100 + a) * (E + (x - a))) by (apply Qmult_le_0_compat; lra).
  assert (0 <= (100 - a) * (E + (x - a))) by (apply Qmult_le_0_compat; lra).
  assert (0 <= (100 + a) * (E - (x - a))) by (apply Qmult_le_0_compat; lra).
  assert (0 <= (E - (x - a)) * (E + (x - a))) by (apply Qmult_le_0_compat; lra).
  assert (0 <= (x - a) * (x - a)) by (apply Qsqr_nonneg).
  split; lra.
Qed.

Lemma stored_square_lower (x w e n : Q) :
  0 <= x -> 0 <= w -> x - (x * e + n) <= w ->
  0 < e -> e <= 1 # 2 -> 0 < n -> n <= 1 # 2 ->
  x * x * (1 - 2 * e - 2 * n) - 2 * n <= w * w.
Proof.
  intros Hx Hw H He1 He2 Hn1 Hn2.
  assert (0 <= w * w) by apply Qsqr_nonneg.
  destruct (Qlt_le_dec (x - (x * e + n)) 0) as [Hc|Hc].
  - assert (0 <= x * ((1 # 2) - e)) by (apply Qmult_le_0_compat; lra).
    assert (x <= 2 * n) by lra.
    assert (0 <= x * (1 - x)) by (apply Qmult_le_0_compat; lra).
    assert (0 <= x * x * (2 * e + 2 * n))
      by (apply Qmult_le_0_compat; [apply Qsqr_nonneg | lra]).
    lra.
  - assert (0 <= (w - (x - (x * e + n))) * (w + (x - (x * e + n))))
      by (apply Qmult_le_0_compat; lra).
    assert (0 <= (x * e) * (x * e)) by apply Qsqr_nonneg.
    assert (0 <= n * n) by apply Qsqr_nonneg.
    assert (0 <= n * ((x - 1) * (x - 1)))
      by (apply Qmult_le_0_compat; [lra | apply Qsqr_nonneg]).
    assert (0 <= n * x) by (apply Qmult_le_0_compat; lra).
    assert (0 <= n * x * e) by (apply Qmult_le_0_compat; lra).
    lra.
Qed.

End NumberProperties.

(* ===================================================================== *)
(** ** Properties of the instance placement *)
(* ===================================================================== *)

Section SceneProperties.

Import IEEE754 Scene.
Local Open Scope Q_scope.

(** *** Loops that write one instance per iteration *)

Lemma forLoop_split {S : Type} (body : nat -> S -> S) (a b : nat) :
  forall (i : nat) (s : S),
    forLoop (a + b) i body s = forLoop b (i + a) body (forLoop a i body s).
Proof.
  induction a as [|a IH]; intros i s; cbn [forLoop Nat.add].
  - now rewrite Nat.add_0_r.
  - rewrite IH. now rewrite Nat.add_succ_r.
Qed.

Lemma forLoop_other_slots (body : nat -> Loop -> Loop) :
  ownSlot body ->
  forall (n i : nat) (s : Loop) (j : nat), (j < i)%nat ->
    instanceMatrix (mesh (forLoop n i body s)) !! j
    = instanceMatrix (mesh s) !! j.
Proof.
  intros Hown. induction n as [|n IH]; intros i s j Hj; cbn [forLoop].
  - reflexivity.
  - rewrite IH by lia. apply Hown. lia.
Qed.

Lemma forLoop_later_slots (body : nat -> Loop -> Loop) :
  ownSlot body ->
  forall (n i : nat) (s : Loop) (j : nat), (i + n <= j)%nat ->
    instanceMatrix (mesh (forLoop n i body s)) !! j
    = instanceMatrix (mesh s) !! j.
Proof.
  intros Hown. induction n as [|n IH]; intros i s j Hj; cbn [forLoop].
  - reflexivity.
  - rewrite IH by lia. apply Hown. lia.
Qed.

(** After the loop, instance [i] has what iteration [i] left there. *)
Lemma forLoop_lookup (body : nat -> Loop -> Loop) :
  ownSlot body ->
  forall (n : nat) (s : Loop) (i : nat), (i < n)%nat ->
    instanceMatrix (mesh (forLoop n 0 body s)) !! i
    = instanceMatrix (mesh (body i (forLoop i 0 body s))) !! i.
Proof.
  intros Hown n s i Hi.
  replace n with (i + Datatypes.S (n - i - 1))%nat by lia.
  rewrite forLoop_split. cbn [forLoop Nat.add].
  apply forLoop_other_slots; [exact Hown | lia].
Qed.

Lemma forLoop_length (body : nat -> Loop -> Loop) :
  (forall i s, length (instanceMatrix (mesh (body i s)))
               = length (instanceMatrix (mesh s))) ->
  forall (n i : nat) (s : Loop),
    length (instanceMatrix (mesh (forLoop n i body s)))
    = length (instanceMatrix (mesh s)).
Proof.
  intros Hlen. induction n as [|n IH]; intros i s; cbn [forLoop].
  - reflexivity.
  - now rewrite IH.
Qed.

Lemma setMatrixAt_other (i j : nat) (m : Matrix4) (mesh0 : InstancedMesh) :
  j <> i ->
  instanceMatrix (setMatrixAt i m mesh0) !! j = instanceMatrix mesh0 !! j.
Proof. intros H. cbn. apply list_lookup_insert_ne. congruence. Qed.

Lemma setMatrixAt_same (i : nat) (m : Matrix4) (mesh0 : InstancedMesh) :
  (i < length (instanceMatrix mesh0))%nat ->
  instanceMatrix (setMatrixAt i m mesh0) !! i = Some (toFloat32 m).
Proof. intros H. cbn. now apply list_lookup_insert_eq. Qed.

(** *** Ranges of rounded results *)

Lemma round_range (fmt : format) (lo hi x : Q) :
  (1 <= precision fmt)%Z ->
  round fmt lo == lo -> round fmt hi == hi ->
  lo <= x /\ x <= hi -> lo <= round fmt x /\ round fmt x <= hi.
Proof.
  intros Hp Hlo Hhi [H1 H2]. split.
  - now apply round_above.
  - now apply round_below.
Qed.

Lemma unit_product (s r B : Q) :
  - (1) <= s /\ s <= 1 -> 0 <= r /\ r <= B -> - B <= s * r /\ s * r <= B.
Proof.
  intros [H1 H2] [H3 H4].
  assert (0 <= (1 - s) * r) by (apply Qmult_le_0_compat; lra).
  assert (0 <= (1 + s) * r) by (apply Qmult_le_0_compat; lra).
  split; lra.
Qed.

Lemma stored_coordinate (s r : Q) :
  - (1) <= s /\ s <= 1 -> 0 <= r /\ r <= 100 ->
  (s * r - storedError <= fround (mul s r)
   /\ fround (mul s r) <= s * r + storedError)
  /\ (- (100) <= fround (mul s r) /\ fround (mul s r) <= 100).
Proof.
  intros Hs Hr.
  pose proof (unit_product s r 100 Hs Hr) as Ha.
  assert (- (100) <= mul s r /\ mul s r <= 100) as Hx.
  { apply (round_range binary64); [discriminate | | | exact Ha];
      vm_compute; reflexivity. }
  pose proof (round_error_within binary64 100 (s * r) Ha) as [E1 E2].
  pose proof (round_error_within binary32 100 (mul s r) Hx) as [E3 E4].
  fold (mul s r) in E1, E2. fold (fround (mul s r)) in E3, E4.
  assert (100 * relativeError binary64 + absoluteError binary64
          + (100 * relativeError binary32 + absoluteError binary32)
          <= storedError) as HE by (vm_compute; discriminate).
  split.
  - split; lra.
  - apply (round_range binary32); [discriminate | | | exact Hx];
      vm_compute; reflexivity.
Qed.

(** A position that is computed from an angle and a radius in
    [[rmin, rmax]] and stored is, within the slack, at a distance in that
    range. *)
Lemma polar_stored (s c r rmin rmax : Q) :
  - (1) <= s /\ s <= 1 -> - (1) <= c /\ c <= 1 ->
  1 - trigError <= s * s + c * c /\ s * s + c * c <= 1 + trigError ->
  0 <= rmin -> rmin <= r /\ r <= rmax -> rmax <= 100 ->
  rmin * rmin - storedSlack
    <= fround (mul s r) * fround (mul s r) + fround (mul c r) * fround (mul c r)
  /\ fround (mul s r) * fround (mul s r) + fround (mul c r) * fround (mul c r)
     <= rmax * rmax + storedSlack.
Proof.
  intros Hs Hc [Hp1 Hp2] Hmin [Hr1 Hr2] Hmax.
  assert (0 <= r /\ r <= 100) as Hr by (split; lra).
  destruct (stored_coordinate s r Hs Hr) as [Ex _].
  destruct (stored_coordinate c r Hc Hr) as [Ez _].
  pose proof (unit_product s r 100 Hs Hr) as Ha.
  pose proof (unit_product c r 100 Hc Hr) as Hb.
  assert (0 <= storedError) as HE by (vm_compute; discriminate).
  pose proof (square_close (s * r) (fround (mul s r)) storedError Ha HE Ex)
    as [X1 X2].
  pose proof (square_close (c * r) (fround (mul c r)) storedError Hb HE Ez)
    as [Z1 Z2].
  set (x := fround (mul s r)) in *. set (z := fround (mul c r)) in *.
  assert (trigError <= 1 # 1000000000000000) as Ht by (vm_compute; discriminate).
  assert (0 < trigError) as Ht0 by apply pow2_pos.
  assert (0 <= (r - rmin) * (r + rmin)) by (apply Qmult_le_0_compat; lra).
  assert (0 <= (rmax - r) * (rmax + r)) by (apply Qmult_le_0_compat; lra).
  assert (0 <= (100 - rmax) * (100 + rmax)) by (apply Qmult_le_0_compat; lra).
  assert (0 <= r * r) by apply Qsqr_nonneg.
  assert (0 <= rmin * rmin) by apply Qsqr_nonneg.
  assert (0 <= (s * s + c * c - (1 - trigError)) * (r * r))
    by (apply Qmult_le_0_compat; lra).
  assert (0 <= (1 + trigError - (s * s + c * c)) * (r * r))
    by (apply Qmult_le_0_compat; lra).
  assert (0 <= trigError * (10000 - r * r))
    by (apply Qmult_le_0_compat; lra).
  unfold storedSlack, storedError in *.
  split; lra.
Qed.

Lemma draws_range (l : list number) :
  Forall (fun u => 0 <= u /\ u < 1) l -> unitInterval (draws l).
Proof.
  intros H k. unfold draws. revert k.
  induction H as [|u l Hu _ IH]; intros k.
  - destruct k; cbn; split; lra.
  - destruct k; [exact Hu | apply IH].
Qed.

Lemma sinAt_cosAt_accurate : accurate sinAt cosAt.
Proof.
  intros a. unfold sinAt, cosAt.
  destruct (Qeq_bool a quarterPi);
    (split; [split; vm_compute; discriminate|]);
    (split; [split; vm_compute; discriminate|]);
    split; vm_compute; discriminate.
Qed.

Lemma powHalf_unitPower : unitPower powHalf.
Proof.
  intros x y Hx Hx1 _. unfold powHalf.
  assert (Math_sqrt 0 == 0) as E0 by (vm_compute; reflexivity).
  assert (Math_sqrt 1 == 1) as E1 by (vm_compute; reflexivity).
  split.
  - rewrite <- E0. apply Math_sqrt_mono; lra.
  - rewrite <- E1. apply Math_sqrt_mono; lra.
Qed.

Section Loops.

Variable random : nat -> number.
Variables Math_sin Math_cos : number -> number.
Variable Math_pow : number -> number -> number.

(** The matrix iteration [i] of the iceberg loop writes, from the results
    of [Math.random()] it consumes. *)
Lemma icebergBody_matrix (i : nat) (s : Loop) :
  instanceMatrix (mesh (icebergBody random Math_sin Math_cos i s))
  = <[i := toFloat32
       {| translation :=
            vec (mul (Math_sin (mul (mul (random (drawn s + 1)%nat) Math_PI) 2))
                     (add 20 (mul (random (drawn s)) 80)))
                (mul (sub (random (drawn s + 2)%nat) 0.5) 2)
                (mul (Math_cos (mul (mul (random (drawn s + 1)%nat) Math_PI) 2))
                     (add 20 (mul (random (drawn s)) 80)));
          orientation :=
            vec (random (drawn s + 4)%nat) (random (drawn s + 5)%nat)
                (random (drawn s + 6)%nat);
          scaling :=
            vec (add 3 (mul (random (drawn s + 3)%nat) 10))
                (mul (add 3 (mul (random (drawn s + 3)%nat) 10)) (literal 0.6))
                (add 3 (mul (random (drawn s + 3)%nat) 10)) |}]>
      (instanceMatrix (mesh s)).
Proof. reflexivity. Qed.

Lemma chunkBody_matrix (i : nat) (s : Loop) :
  instanceMatrix (mesh (chunkBody random Math_sin Math_cos i s))
  = <[i := toFloat32
       {| translation :=
            vec (mul (Math_sin (mul (mul (random (drawn s)) Math_PI) 2))
                     (add 10 (mul (random (drawn s + 1)%nat) 90)))
                0
                (mul (Math_cos (mul (mul (random (drawn s)) Math_PI) 2))
                     (add 10 (mul (random (drawn s + 1)%nat) 90)));
          orientation :=
            vec (random (drawn s + 3)%nat) (random (drawn s + 4)%nat)
                (random (drawn s + 5)%nat);
          scaling :=
            vec (add 0.5 (random (drawn s + 2)%nat))
                (mul (add 0.5 (random (drawn s + 2)%nat)) 0.5)
                (add 0.5 (random (drawn s + 2)%nat)) |}]>
      (instanceMatrix (mesh s)).
Proof. reflexivity. Qed.

Lemma icebergBody_ownSlot : ownSlot (icebergBody random Math_sin Math_cos).
Proof.
  intros i s j Hj. rewrite icebergBody_matrix.
  apply list_lookup_insert_ne. congruence.
Qed.

Lemma chunkBody_ownSlot : ownSlot (chunkBody random Math_sin Math_cos).
Proof.
  intros i s j Hj. rewrite chunkBody_matrix.
  apply list_lookup_insert_ne. congruence.
Qed.

Lemma fernBody_ownSlot : ownSlot (fernBody random Math_sin Math_cos Math_pow).
Proof.
  intros i s j Hj. unfold fernBody.
  destruct (fernSample random Math_sin Math_cos Math_pow (drawn s)) as [x z].
  destruct (insideClearing (x, z)); [reflexivity|].
  cbn. apply list_lookup_insert_ne. congruence.
Qed.

Lemma icebergBody_length (i : nat) (s : Loop) :
  length (instanceMatrix (mesh (icebergBody random Math_sin Math_cos i s)))
  = length (instanceMatrix (mesh s)).
Proof. rewrite icebergBody_matrix. apply length_insert. Qed.

Lemma chunkBody_length (i : nat) (s : Loop) :
  length (instanceMatrix (mesh (chunkBody random Math_sin Math_cos i s)))
  = length (instanceMatrix (mesh s)).
Proof. rewrite chunkBody_matrix. apply length_insert. Qed.

Lemma fernBody_length (i : nat) (s : Loop) :
  length (instanceMatrix (mesh (fernBody random Math_sin Math_cos Math_pow i s)))
  = length (instanceMatrix (mesh s)).
Proof.
  unfold fernBody.
  destruct (fernSample random Math_sin Math_cos Math_pow (drawn s)) as [x z].
  destruct (insideClearing (x, z)); [reflexivity|].
  cbn. apply length_insert.
Qed.

(** What the iceberg effect leaves at instance [i]. *)
Lemma placeIcebergs_lookup (k0 : nat) (m0 : InstancedMesh) (i : nat) :
  (i < iceCount)%nat -> (i < length (instanceMatrix m0))%nat ->
  exists k,
    placed (placeIcebergs random Math_sin Math_cos k0 (Some m0)) !! i
    = Some (toFloat32
       {| translation :=
            vec (mul (Math_sin (mul (mul (random (k + 1)%nat) Math_PI) 2))
                     (add 20 (mul (random k) 80)))
                (mul (sub (random (k + 2)%nat) 0.5) 2)
                (mul (Math_cos (mul (mul (random (k + 1)%nat) Math_PI) 2))
                     (add 20 (mul (random k) 80)));
          orientation :=
            vec (random (k + 4)%nat) (random (k + 5)%nat)
                (random (k + 6)%nat);
          scaling :=
            vec (add 3 (mul (random (k + 3)%nat) 10))
                (mul (add 3 (mul (random (k + 3)%nat) 10)) (literal 0.6))
                (add 3 (mul (random (k + 3)%nat) 10)) |}).
Proof.
  intros Hi Hlen. cbn [placeIcebergs placed].
  rewrite (forLoop_lookup _ icebergBody_ownSlot) by exact Hi.
  exists (drawn (forLoop i 0 (icebergBody random Math_sin Math_cos)
                   (startLoop k0 m0))).
  rewrite icebergBody_matrix. apply list_lookup_insert_eq.
  now rewrite (forLoop_length _ icebergBody_length).
Qed.

Lemma placeChunks_lookup (k0 : nat) (m0 : InstancedMesh) (i : nat) :
  (i < chunkCount)%nat -> (i < length (instanceMatrix m0))%nat ->
  exists k,
    placed (placeChunks random Math_sin Math_cos k0 (Some m0)) !! i
    = Some (toFloat32
       {| translation :=
            vec (mul (Math_sin (mul (mul (random k) Math_PI) 2))
                     (add 10 (mul (random (k + 1)%nat) 90)))
                0
                (mul (Math_cos (mul (mul (random k) Math_PI) 2))
                     (add 10 (mul (random (k + 1)%nat) 90)));
          orientation :=
            vec (random (k + 3)%nat) (random (k + 4)%nat)
                (random (k + 5)%nat);
          scaling :=
            vec (add 0.5 (random (k + 2)%nat))
                (mul (add 0.5 (random (k + 2)%nat)) 0.5)
                (add 0.5 (random (k + 2)%nat)) |}).
Proof.
  intros Hi Hlen. cbn [placeChunks placed].
  rewrite (forLoop_lookup _ chunkBody_ownSlot) by exact Hi.
  exists (drawn (forLoop i 0 (chunkBody random Math_sin Math_cos)
                   (startLoop k0 m0))).
  rewrite chunkBody_matrix. apply list_lookup_insert_eq.
  now rewrite (forLoop_length _ chunkBody_length).
Qed.

(** A radius [lo + u * w] with [u] in the unit interval. *)
Lemma radius_range (u lo w : Q) :
  0 <= u /\ u < 1 -> 0 <= w ->
  round binary64 w == w -> round binary64 lo == lo ->
  round binary64 (lo + w) == lo + w ->
  lo <= add lo (mul u w) /\ add lo (mul u w) <= lo + w.
Proof.
  intros [Hu1 Hu2] Hw Ew Elo Ehi.
  assert (0 <= mul u w /\ mul u w <= w) as [H1 H2].
  { apply (round_range binary64); [discriminate | | exact Ew |].
    - vm_compute; reflexivity.
    - assert (0 <= u * w) by (apply Qmult_le_0_compat; lra).
      assert (0 <= (1 - u) * w) by (apply Qmult_le_0_compat; lra).
      split; lra. }
  apply (round_range binary64); [discriminate | exact Elo | exact Ehi |].
  split; lra.
Qed.

End Loops.

(** C7, as amended.  With every result of [Math.random()] in [0, 1) and
    an accurate sine and cosine: each large iceberg is stored at a
    horizontal distance between 19.999 and 100.001 from the origin and at
    a height in [-1, 1], both ends included; each small chunk is stored at
    a horizontal distance between 9.999 and 100.001 and at height 0. *)
Theorem iceland_placement_ranges
    (random : nat -> number) (Math_sin Math_cos : number -> number)
    (k0 k1 : nat) (ice chunks : InstancedMesh) (i j : nat) :
  unitInterval random -> accurate Math_sin Math_cos ->
  (i < iceCount)%nat -> (i < length (instanceMatrix ice))%nat ->
  (j < chunkCount)%nat -> (j < length (instanceMatrix chunks))%nat ->
  (exists m,
     placed (placeIcebergs random Math_sin Math_cos k0 (Some ice)) !! i = Some m
     /\ distanceBetween 19.999 100.001 m
     /\ - (1) <= height m /\ height m <= 1)
  /\ (exists m,
        placed (placeChunks random Math_sin Math_cos k1 (Some chunks)) !! j
          = Some m
        /\ distanceBetween 9.999 100.001 m
        /\ height m = 0).
Proof.
  intros Hr Ht Hi Hil Hj Hjl. split.
  - destruct (placeIcebergs_lookup random Math_sin Math_cos k0 ice i Hi Hil)
      as [k ->].
    eexists; split; [reflexivity|].
    unfold distanceBetween, squaredDistance, height;
      cbn [toFloat32 translation vec vx vy vz].
    set (angle := mul (mul (random (k + 1)%nat) Math_PI) 2).
    destruct (Ht angle) as (Hs & Hc & Hp1 & Hp2).
    assert (20 <= add 20 (mul (random k) 80)
            /\ add 20 (mul (random k) 80) <= 20 + 80) as Hrad.
    { apply radius_range; [apply Hr | lra | | |]; vm_compute; reflexivity. }
    pose proof (polar_stored (Math_sin angle) (Math_cos angle)
                  (add 20 (mul (random k) 80)) 20 100 Hs Hc (conj Hp1 Hp2))
      as [D1 D2];
      [lra | split; lra | lra |].
    unfold storedSlack in D1, D2.
    split; [split; lra|].
    apply (round_range binary32); [discriminate | | |];
      [vm_compute; reflexivity | vm_compute; reflexivity |].
    apply (round_range binary64); [discriminate | | |];
      [vm_compute; reflexivity | vm_compute; reflexivity |].
    assert (- (1 # 2) <= sub (random (k + 2)%nat) 0.5
            /\ sub (random (k + 2)%nat) 0.5 <= 1 # 2) as [H1 H2].
    { apply (round_range binary64); [discriminate | | |];
        [vm_compute; reflexivity | vm_compute; reflexivity |].
      destruct (Hr (k + 2)%nat). split; lra. }
    split; lra.
  - destruct (placeChunks_lookup random Math_sin Math_cos k1 chunks j Hj Hjl)
      as [k ->].
    eexists; split; [reflexivity|].
    unfold distanceBetween, squaredDistance, height;
      cbn [toFloat32 translation vec vx vy vz].
    set (angle := mul (mul (random k) Math_PI) 2).
    destruct (Ht angle) as (Hs & Hc & Hp1 & Hp2).
    assert (10 <= add 10 (mul (random (k + 1)%nat) 90)
            /\ add 10 (mul (random (k + 1)%nat) 90) <= 10 + 90) as Hrad.
    { apply radius_range; [apply Hr | lra | | |]; vm_compute; reflexivity. }
    pose proof (polar_stored (Math_sin angle) (Math_cos angle)
                  (add 10 (mul (random (k + 1)%nat) 90)) 10 100 Hs Hc
                  (conj Hp1 Hp2)) as [D1 D2];
      [lra | split; lra | lra |].
    unfold storedSlack in D1, D2.
    split; [split; lra|].
    vm_compute. reflexivity.
Qed.

Lemma iceland_placement_ranges_witness :
  let random := draws [0.25; 0.125; 0.75] in
  (exists m,
     placed (placeIcebergs random sinAt cosAt 0 (Some (newInstancedMesh iceCount)))
       !! 0%nat = Some m
     /\ distanceBetween 19.999 100.001 m
     /\ - (1) <= height m /\ height m <= 1)
  /\ (exists m,
        placed (placeChunks random sinAt cosAt 0 (Some (newInstancedMesh chunkCount)))
          !! 0%nat = Some m
        /\ distanceBetween 9.999 100.001 m
        /\ height m = 0).
Proof.
  intros random.
  apply (iceland_placement_ranges random sinAt cosAt 0 0
           (newInstancedMesh iceCount) (newInstancedMesh chunkCount) 0 0).
  - apply draws_range. repeat constructor; vm_compute; discriminate || reflexivity.
  - exact sinAt_cosAt_accurate.
  - unfold iceCount; lia.
  - cbn; lia.
  - unfold chunkCount; lia.
  - cbn; lia.
Defined.

(** C7 as it is stated fails at both ends.  When [Math.random()] returns
    the largest number below 1 for the radius and for the height, and 0
    for the angle, the iceberg is stored at distance 100 and at height 1;
    when it returns 0 for the height, the iceberg is at height -1. *)
Lemma iceberg_stored_at_the_ends :
  unitInterval (draws [belowOne; 0; belowOne])
  /\ unitInterval (draws [])
  /\ accurate sinAt cosAt
  /\ (exists m,
        placed (placeIcebergs (draws [belowOne; 0; belowOne]) sinAt cosAt 0
                  (Some (newInstancedMesh iceCount))) !! 0%nat = Some m
        /\ translation m = vec 0 1 100
        /\ squaredDistance m == 100 * 100
        /\ ~ height m < 1)
  /\ (exists m,
        placed (placeIcebergs (draws []) sinAt cosAt 0
                  (Some (newInstancedMesh iceCount))) !! 0%nat = Some m
        /\ translation m = vec 0 (- (1)) 20
        /\ ~ - (1) < height m).
Proof.
  split; [apply draws_range; repeat constructor; vm_compute; discriminate || reflexivity|].
  split; [apply draws_range; constructor|].
  split; [exact sinAt_cosAt_accurate|].
  split.
  - eexists. split; [vm_compute; reflexivity|].
    split; [reflexivity|]. split; [reflexivity|].
    vm_compute. discriminate.
  - eexists. split; [vm_compute; reflexivity|].
    split; [reflexivity|].
    vm_compute. discriminate.
Qed.

(** *** The test of the fern loop *)

Lemma ltb_false (a b : number) : ltb a b = false -> b <= a.
Proof.
  unfold ltb. destruct (Qcompare_spec a b) as [E|L|G]; [|discriminate|];
    intros _; lra.
Qed.

Lemma ltb_true (a b : number) : ltb a b = true -> a < b.
Proof.
  unfold ltb. destruct (Qcompare_spec a b) as [E|L|G]; [discriminate| |discriminate].
  intros _; exact L.
Qed.

Lemma mul_square_nonneg (x : number) : 0 <= mul x x.
Proof.
  apply (round_above binary64); [discriminate | vm_compute; reflexivity|].
  apply Qsqr_nonneg.
Qed.

(** When the test [Math.sqrt(x * x + z * z) < 5] fails, the squares of
    [x] and [z] add up to 25 within [10^-9]. *)
Lemma test_fails_outside (x z : number) :
  insideClearing (x, z) = false -> 25 - (1 # 1000000000) <= x * x + z * z.
Proof.
  intros H. apply ltb_false in H. cbn [fst snd] in H.
  pose proof (mul_square_nonneg x) as Hx.
  pose proof (mul_square_nonneg z) as Hz.
  set (c0 := 25 - pow2 (-40)).
  assert (round binary64 c0 == c0) as Ec by (vm_compute; reflexivity).
  assert (c0 < mul x x + mul z z) as Hsum.
  { apply Qnot_le_lt. intros Hle.
    assert (add (mul x x) (mul z z) <= c0) as Hs
      by (apply (round_below binary64); [discriminate | exact Ec | exact Hle]).
    assert (0 <= add (mul x x) (mul z z)) as H0.
    { apply (round_above binary64); [discriminate | vm_compute; reflexivity|].
      lra. }
    pose proof (Math_sqrt_mono _ _ H0 Hs) as Hm.
    assert (Math_sqrt c0 < 5) by (vm_compute; reflexivity).
    lra. }
  pose proof (round_error_nonneg binary64 (x * x) (Qsqr_nonneg x)) as [_ Ex].
  pose proof (round_error_nonneg binary64 (z * z) (Qsqr_nonneg z)) as [_ Ez].
  fold (mul x x) in Ex. fold (mul z z) in Ez.
  assert (relativeError binary64 <= 1 # 1000000000000000)
    as Hrel by (vm_compute; discriminate).
  assert (absoluteError binary64 <= 1 # 1000000000000000)
    as Habs by (vm_compute; discriminate).
  assert (0 < relativeError binary64) as Hrel0 by apply pow2_pos.
  assert (c0 >= 25 - (1 # 1000000000000)) as Hc0 by (vm_compute; discriminate).
  assert (0 <= x * x) by apply Qsqr_nonneg.
  assert (0 <= z * z) by apply Qsqr_nonneg.
  assert (0 <= (x * x + z * z) * ((1 # 1000000000000000) - relativeError binary64))
    by (apply Qmult_le_0_compat; lra).
  clearbody c0.
  destruct (Qlt_le_dec (x * x + z * z) 26) as [Hsmall|Hbig]; [|lra].
  lra.
Qed.

(** The square of a number that went through the rounding to binary32. *)
Lemma fround_square_lower (x : number) :
  x * x * (1 - (3 # 10000000)) - (1 # 1000000000) <= fround x * fround x.
Proof.
  assert (relativeError binary32 <= 1 # 10000000)
    as Hrel by (vm_compute; discriminate).
  assert (absoluteError binary32 <= 1 # 10000000000)
    as Habs by (vm_compute; discriminate).
  assert (0 < relativeError binary32) as Hrel0 by apply pow2_pos.
  assert (0 < absoluteError binary32) as Habs0 by apply pow2_pos.
  assert (round binary32 0 == 0) as E0 by (vm_compute; reflexivity).
  destruct (Qlt_le_dec x 0) as [Hx|Hx].
  - pose proof (round_error_nonpos binary32 x) as [_ E]; [lra|].
    fold (fround x) in E.
    assert (fround x <= 0) as Hw
      by (apply (round_below binary32); [discriminate | exact E0 | lra]).
    assert (0 <= - x * ((1 # 10000000) - relativeError binary32))
      by (apply Qmult_le_0_compat; lra).
    pose proof (stored_square_lower (- x) (- fround x)
                  (1 # 10000000) (1 # 10000000000)) as L.
    assert (0 <= x * x) by apply Qsqr_nonneg.
    assert (0 <= x * x * (1 # 10000000000))
      by (apply Qmult_le_0_compat; lra).
    lapply L; [clear L; intros L | lra].
    lapply L; [clear L; intros L | lra].
    lapply L; [clear L; intros L | lra].
    specialize (L ltac:(lra) ltac:(lra) ltac:(lra) ltac:(lra)).
    lra.
  - pose proof (round_error_nonneg binary32 x Hx) as [E _].
    fold (fround x) in E.
    assert (0 <= fround x) as Hw
      by (apply (round_above binary32); [discriminate | exact E0 | lra]).
    assert (0 <= x * ((1 # 10000000) - relativeError binary32))
      by (apply Qmult_le_0_compat; lra).
    pose proof (stored_square_lower x (fround x)
                  (1 # 10000000) (1 # 10000000000)) as L.
    assert (0 <= x * x) by apply Qsqr_nonneg.
    assert (0 <= x * x * (1 # 10000000000))
      by (apply Qmult_le_0_compat; lra).
    specialize (L Hx Hw ltac:(lra) ltac:(lra) ltac:(lra) ltac:(lra) ltac:(lra)).
    lra.
Qed.

(** A position that passes the test of the fern loop is stored at a
    distance of more than 4.999999. *)
Lemma stored_outside (x z : number) :
  insideClearing (x, z) = false ->
  4.999999 * 4.999999 <= fround x * fround x + fround z * fround z.
Proof.
  intros H. pose proof (test_fails_outside x z H) as Hs.
  pose proof (fround_square_lower x) as Hx.
  pose proof (fround_square_lower z) as Hz.
  lra.
Qed.

Lemma placeFerns_length
    (random : nat -> number) (Math_sin Math_cos : number -> number)
    (Math_pow : number -> number -> number) (k0 : nat) (m0 : InstancedMesh) :
  length (placed (placeFerns random Math_sin Math_cos Math_pow k0 (Some m0)))
  = length (instanceMatrix m0).
Proof.
  cbn [placeFerns placed].
  now rewrite (forLoop_length _
                 (fernBody_length random Math_sin Math_cos Math_pow)).
Qed.

Lemma placeFerns_later
    (random : nat -> number) (Math_sin Math_cos : number -> number)
    (Math_pow : number -> number -> number)
    (k0 : nat) (m0 : InstancedMesh) (j : nat) :
  (fernCount <= j)%nat ->
  placed (placeFerns random Math_sin Math_cos Math_pow k0 (Some m0)) !! j
  = instanceMatrix m0 !! j.
Proof.
  intros H. cbn [placeFerns placed].
  now rewrite (forLoop_later_slots _
                 (fernBody_ownSlot random Math_sin Math_cos Math_pow)) by lia.
Qed.

(** What the fern effect leaves at instance [i]. *)
Lemma placeFerns_lookup
    (random : nat -> number) (Math_sin Math_cos : number -> number)
    (Math_pow : number -> number -> number)
    (k0 : nat) (m0 : InstancedMesh) (i : nat) :
  (i < fernCount)%nat -> (i < length (instanceMatrix m0))%nat ->
  let k := drawn (fernStateAt random Math_sin Math_cos Math_pow k0 m0 i) in
  let p := fernSample random Math_sin Math_cos Math_pow k in
  placed (placeFerns random Math_sin Math_cos Math_pow k0 (Some m0)) !! i
  = if insideClearing p then instanceMatrix m0 !! i
    else Some (toFloat32
           {| translation := vec (fst p) 0 (snd p);
              orientation :=
                vec 0 (mul (mul (random (k + 3)%nat) Math_PI) 2) 0;
              scaling :=
                vec (add 1 (random (k + 2)%nat))
                    (mul (add 1 (random (k + 2)%nat)) (literal 0.8))
                    (add 1 (random (k + 2)%nat)) |}).
Proof.
  intros Hi Hlen k p. cbn [placeFerns placed].
  rewrite (forLoop_lookup _ (fernBody_ownSlot random Math_sin Math_cos Math_pow))
    by exact Hi.
  fold (fernStateAt random Math_sin Math_cos Math_pow k0 m0 i).
  assert (instanceMatrix
            (mesh (fernStateAt random Math_sin Math_cos Math_pow k0 m0 i)) !! i
          = instanceMatrix m0 !! i) as Hkeep.
  { unfold fernStateAt.
    rewrite (forLoop_later_slots _
               (fernBody_ownSlot random Math_sin Math_cos Math_pow)) by lia.
    reflexivity. }
  assert (length (instanceMatrix
                    (mesh (fernStateAt random Math_sin Math_cos Math_pow k0 m0 i)))
          = length (instanceMatrix m0)) as Hl.
  { unfold fernStateAt.
    now rewrite (forLoop_length _
                   (fernBody_length random Math_sin Math_cos Math_pow)). }
  unfold fernBody. fold k. fold p. destruct p as [x z] eqn:Ep.
  destruct (insideClearing (x, z)) eqn:Ein.
  - exact Hkeep.
  - cbn. apply list_lookup_insert_eq. lia.
Qed.

(** C10, as amended.  In the fern loop, iteration [i] samples a position;
    when the test on the position succeeds the iteration writes nothing,
    and instance [i] keeps the matrix the mesh had, the identity for a new
    mesh; otherwise the matrix of instance [i] holds that position,
    rounded to binary32, at height 0: the distance the test computed is
    not below 5, and the stored position is at a horizontal distance of
    more than 4.999999 from the origin. *)
Theorem ferns_clear_of_centre
    (random : nat -> number) (Math_sin Math_cos : number -> number)
    (Math_pow : number -> number -> number)
    (k0 : nat) (m0 : InstancedMesh) (i : nat) :
  (i < fernCount)%nat -> (i < length (instanceMatrix m0))%nat ->
  let ferns := placeFerns random Math_sin Math_cos Math_pow k0 (Some m0) in
  let p := fernSample random Math_sin Math_cos Math_pow
             (drawn (fernStateAt random Math_sin Math_cos Math_pow k0 m0 i)) in
  if insideClearing p
  then placed ferns !! i = instanceMatrix m0 !! i
       /\ (m0 = newInstancedMesh fernCount -> placed ferns !! i = Some identity)
  else exists m,
         placed ferns !! i = Some m
         /\ translation m = vec (fround (fst p)) 0 (fround (snd p))
         /\ 5 <= Math_sqrt (add (mul (fst p) (fst p)) (mul (snd p) (snd p)))
         /\ 4.999999 * 4.999999 <= squaredDistance m.
Proof.
  intros Hi Hlen ferns p. subst ferns.
  rewrite (placeFerns_lookup random Math_sin Math_cos Math_pow k0 m0 i Hi Hlen).
  cbv zeta. fold p. destruct p as [x z] eqn:Ep.
  destruct (insideClearing (x, z)) eqn:Ein.
  - split; [reflexivity|].
    intros ->. cbn [newInstancedMesh instanceMatrix].
    apply lookup_replicate_2. exact Hi.
  - eexists. split; [reflexivity|].
    split; [reflexivity|].
    split; [exact (ltb_false _ _ Ein)|].
    unfold squaredDistance; cbn [toFloat32 translation vec vx vz fst snd].
    exact (stored_outside x z Ein).
Qed.

Lemma ferns_clear_of_centre_witness :
  let random := draws [0.125; 0.25] in
  let ferns :=
    placeFerns random sinAt cosAt powHalf 0 (Some (newInstancedMesh fernCount)) in
  (exists m, placed ferns !! 0%nat = Some m
             /\ height m = 0
             /\ 4.999999 * 4.999999 <= squaredDistance m)
  /\ placed ferns !! 1%nat = Some identity.
Proof.
  intros random ferns.
  assert (0 < fernCount)%nat as H0 by (unfold fernCount; lia).
  assert (1 < fernCount)%nat as H1 by (unfold fernCount; lia).
  assert (length (instanceMatrix (newInstancedMesh fernCount)) = fernCount)
    as Hl by apply length_replicate.
  split.
  - pose proof (ferns_clear_of_centre random sinAt cosAt powHalf 0
                  (newInstancedMesh fernCount) 0 H0
                  (eq_ind_r (fun n => (0 < n)%nat) H0 Hl)) as H.
    cbv zeta in H.
    assert (insideClearing
              (fernSample random sinAt cosAt powHalf
                 (drawn (fernStateAt random sinAt cosAt powHalf 0
                           (newInstancedMesh fernCount) 0))) = false) as E
      by (vm_compute; reflexivity).
    rewrite E in H. destruct H as (m & Hm & Ht & _ & Hd).
    exists m. split; [exact Hm|]. split; [|exact Hd].
    unfold height. now rewrite Ht.
  - pose proof (ferns_clear_of_centre random sinAt cosAt powHalf 0
                  (newInstancedMesh fernCount) 1 H1
                  (eq_ind_r (fun n => (1 < n)%nat) H1 Hl)) as H.
    cbv zeta in H.
    assert (insideClearing
              (fernSample random sinAt cosAt powHalf
                 (drawn (fernStateAt random sinAt cosAt powHalf 0
                           (newInstancedMesh fernCount) 1))) = true) as E
      by (vm_compute; reflexivity).
    rewrite E in H. destruct H as [_ H]. exact (H eq_refl).
Defined.

(** C10 as it is stated fails.  With the radius drawn as
    [13899998899909 * 2^-52] and the angle as an eighth of a turn, the
    distance the test computes, in binary64, is above 5, so the fern is
    placed; what the matrix holds are the two coordinates rounded to
    binary32, and they are at a distance below 5 from the origin. *)
Lemma fern_stored_inside_the_clearing :
  let random := draws [0.125; 13899998899909 * pow2 (-52)] in
  unitInterval random /\ accurate sinAt cosAt /\ unitPower powHalf
  /\ insideClearing (fernSample random sinAt cosAt powHalf 0) = false
  /\ exists m,
       placed (placeFerns random sinAt cosAt powHalf 0
                 (Some (newInstancedMesh fernCount))) !! 0%nat = Some m
       /\ translation m
          = vec (fround (fst (fernSample random sinAt cosAt powHalf 0))) 0
                (fround (snd (fernSample random sinAt cosAt powHalf 0)))
       /\ squaredDistance m < 5 * 5.
Proof.
  intros random.
  split; [apply draws_range; repeat constructor; vm_compute; discriminate || reflexivity|].
  split; [exact sinAt_cosAt_accurate|].
  split; [exact powHalf_unitPower|].
  split; [vm_compute; reflexivity|].
  eexists. split.
  - rewrite placeFerns_lookup;
      [| unfold fernCount; lia
       | cbn [newInstancedMesh instanceMatrix]; rewrite length_replicate;
         unfold fernCount; lia].
    cbv zeta.
    change (fernStateAt random sinAt cosAt powHalf 0
              (newInstancedMesh fernCount) 0)
      with (startLoop 0 (newInstancedMesh fernCount)).
    cbn [startLoop drawn].
    replace (insideClearing (fernSample random sinAt cosAt powHalf 0))
      with false by (vm_compute; reflexivity).
    reflexivity.
  - split; [|vm_compute; reflexivity].
    cbn [toFloat32 translation vec vx vy vz]. reflexivity.
Qed.

End SceneProperties.

(* ===================================================================== *)
(** ** Further properties of the environment transitions *)
(* ===================================================================== *)

Section TransitionProperties.

Import App.










(** X3.  From an idle state, a request for an environment through the
    prop of the render on screen, followed by the two timer expirations,
    ends idle in the requested environment, also when that is the current
    one. *)
Theorem change_reaches_requested_environment (st : State) (newEnv : Environment) :
  isTransitioning st = false -> timers st = [] ->
  steps [Change (render st) newEnv; Expire; Expire] st
  = {| environment := newEnv; isTransitioning := false; timers := [] |}.
Proof.
  destruct st as [env t ts]; cbn [isTransitioning timers]; intros -> ->.
  cbn [steps fold_left step]. unfold handleEnvironmentChange, render.
  cbn [isTransitioning environment renderedTransitioning
       renderedEnvironment orb].
  destruct (bool_decide (env = newEnv)) eqn:E.
  - apply bool_decide_eq_true in E. subst. reflexivity.
  - reflexivity.
Qed.

Lemma change_reaches_requested_environment_witness :
  steps [Change (render initial) rainforest; Expire; Expire] initial
  = {| environment := rainforest; isTransitioning := false; timers := [] |}.
Proof.
  exact (change_reaches_requested_environment initial rainforest eq_refl eq_refl).
Defined.

(** X26.  A [handleEnvironmentChange] changes nothing when the render that
    created it was in a transition, or showed the environment that is
    asked for; so a request through the prop of the render on screen is
    ignored during a transition, and so is a click on the theme button. *)
Theorem guarded_requests_change_nothing
    (r : Render) (st : State) (newEnv : Environment) :
  (renderedTransitioning r = true \/ renderedEnvironment r = newEnv ->
     handleEnvironmentChange r newEnv st = st)
  /\ (isTransitioning st = true ->
        toggleEnvironment st = st
        /\ handleEnvironmentChange (render st) newEnv st = st)
  /\ handleEnvironmentChange (render st) (environment st) st = st.
Proof.
  split; [|split].
  - intros [H | H]; unfold handleEnvironmentChange.
    + now rewrite H.
    + rewrite (bool_decide_eq_true_2 _ H). now rewrite orb_true_r.
  - intros H. unfold toggleEnvironment, handleEnvironmentChange, render.
    cbn [renderedTransitioning]. rewrite H. split; reflexivity.
  - unfold handleEnvironmentChange, render.
    cbn [renderedEnvironment].
    rewrite bool_decide_eq_true_2 by reflexivity.
    now rewrite orb_true_r.
Qed.

Lemma guarded_requests_change_nothing_witness :
  let st := toggleEnvironment initial in
  handleEnvironmentChange (render st) desert st = st
  /\ toggleEnvironment st = st
  /\ handleEnvironmentChange (render initial) cyber st = st.
Proof.
  intros st.
  destruct (guarded_requests_change_nothing (render st) st desert)
    as (H1 & H2 & _).
  destruct (guarded_requests_change_nothing (render initial) st cyber)
    as (H3 & _ & _).
  destruct (H2 eq_refl) as [H4 _].
  exact (conj (H1 (or_introl eq_refl)) (conj H4 (H3 (or_intror eq_refl)))).
Defined.

End TransitionProperties.

(* ===================================================================== *)
(** ** Further properties of the voice command *)
(* ===================================================================== *)

Section CommandProperties.

Import Voice Pipeline.

Lemma trimStart_head (s : jsstring) (c : N) (r : jsstring) :
  trimStart s = c :: r -> isWhiteSpace c = false.
Proof.
  induction s as [|a s IH]; cbn [trimStart]; [discriminate|].
  destruct (isWhiteSpace a) eqn:E; [exact IH|].
  now intros [= <- _].
Qed.

Lemma trimStart_snoc (s : jsstring) (c : N) :
  isWhiteSpace c = false -> exists l, trimStart (s ++ [c]) = l ++ [c].
Proof.
  intros Hc. induction s as [|a s [l IH]]; cbn [trimStart app].
  - rewrite Hc. now exists [].
  - destruct (isWhiteSpace a).
    + now exists l.
    + now exists (a :: s).
Qed.

Lemma trim_head (s : jsstring) (c : N) (r : jsstring) :
  trim s = c :: r -> isWhiteSpace c = false.
Proof.
  unfold trim, trimEnd.
  destruct (trimStart s) as [|a t] eqn:E; [discriminate|].
  pose proof (trimStart_head _ _ _ E) as Ha.
  cbn [rev]. destruct (trimStart_snoc (rev t) a Ha) as [l ->].
  rewrite rev_app_distr. cbn [rev app]. now intros [= <- _].
Qed.

Lemma trim_last (s : jsstring) (c : N) :
  last (trim s) = Some c -> isWhiteSpace c = false.
Proof.
  unfold trim, trimEnd.
  destruct (trimStart (rev (trimStart s))) as [|a t] eqn:E; [discriminate|].
  cbn [rev]. rewrite last_snoc.
  intros [= <-]. exact (trimStart_head _ _ _ E).
Qed.

(** X4.  The object name parsed from a transcript neither starts nor ends
    with white space. *)
Theorem parsed_name_is_trimmed
    (toLowerCase : jsstring -> jsstring) (transcript : jsstring) (c : N) :
  head (parsedName toLowerCase transcript) = Some c
  \/ last (parsedName toLowerCase transcript) = Some c ->
  isWhiteSpace c = false.
Proof.
  unfold parsedName. intros [H | H].
  - destruct (trim _) as [|a r] eqn:E; [discriminate|].
    injection H as <-. exact (trim_head _ _ _ E).
  - exact (trim_last _ _ H).
Qed.

Lemma parsed_name_is_trimmed_witness :
  isWhiteSpace 120 = false.
Proof.
  apply (parsed_name_is_trimmed toLowerCase_ascii (lit "show me a  Box ") 120).
  right. reflexivity.
Defined.

Lemma table_values_fixed (key v : jsstring) :
  lookupEntry key corrections_entries = Some v -> correct v = (VString v, []).
Proof.
  unfold corrections_entries; simpl.
  repeat (case_decide; [intros [= <-]; reflexivity|]).
  discriminate.
Qed.

Lemma inherited_is_builtin (name : jsstring) (member : jsvalue) :
  Object_prototype !! name = Some member -> exists m, member = VBuiltin m.
Proof.
  unfold Object_prototype. intros H.
  apply elem_of_list_to_map_2 in H.
  repeat (apply elem_of_cons in H as [[= _ ->] | H]; [eauto|]).
  now apply elem_of_nil in H.
Qed.

Lemma correct_inherited (name : jsstring) (member : jsvalue) :
  lookupEntry name corrections_entries = None ->
  Object_prototype !! name = Some member ->
  fst (correct name) = member.
Proof.
  intros E Ep. unfold correct, js_get.
  rewrite corrections_lookup, E, Ep; simpl.
  destruct (inherited_is_builtin _ _ Ep) as [m ->]. reflexivity.
Qed.

(** X5.  Correction is idempotent: a name that comes out of the
    correction step goes through it unchanged, and without the
    autocorrection message.  No value of the table is a key of the table
    or a name of [Object.prototype]. *)
Theorem correction_is_idempotent (name corrected : jsstring) :
  fst (correct name) = VString corrected ->
  correct corrected = (VString corrected, []).
Proof.
  intros H.
  destruct (lookupEntry name corrections_entries) as [v|] eqn:E.
  - rewrite (correct_table_key _ _ E) in H. injection H as <-.
    exact (table_values_fixed _ _ E).
  - destruct (Object_prototype !! name) as [member|] eqn:Ep.
    + rewrite (correct_inherited _ _ E Ep) in H.
      destruct (inherited_is_builtin _ _ Ep) as [m ->]. discriminate.
    + assert (inheritedName name = false) as Hi.
      { unfold inheritedName. apply bool_decide_eq_false.
        rewrite Ep. now intros [w Hw]. }
      rewrite (correct_other_name _ E Hi) in H. injection H as <-.
      exact (correct_other_name _ E Hi).
Qed.

Lemma correction_is_idempotent_witness :
  correct (lit "torus") = (VString (lit "torus"), []).
Proof.
  exact (correction_is_idempotent (lit "taurus") (lit "torus") eq_refl).
Defined.

Lemma after_app (p s : jsstring) : after p (p ++ s) = Some s.
Proof.
  induction p as [|a p IH]; cbn [after app]; [now destruct s|].
  now rewrite N.eqb_refl.
Qed.

Lemma spaces1_space (c : N) (rest : jsstring) :
  isWhiteSpace c = true -> spaces1 (c :: rest) = Some (trimStart rest).
Proof. intros H. cbn [spaces1]. now rewrite H. Qed.

(** X6.  The three command verbs are interchangeable: followed by white
    space and the same rest, show, generate and create leave the same
    name, the rest without its leading white space and without the
    optional words me and a. *)
Theorem verbs_are_interchangeable (c : N) (rest : jsstring) :
  isWhiteSpace c = true ->
  removeCommand (lit "show" ++ c :: rest)
    = optWord (lit "a") (optWord (lit "me") (trimStart rest))
  /\ removeCommand (lit "generate" ++ c :: rest)
     = removeCommand (lit "show" ++ c :: rest)
  /\ removeCommand (lit "create" ++ c :: rest)
     = removeCommand (lit "show" ++ c :: rest).
Proof.
  intros Hc.
  assert (matchVerb (lit "show" ++ c :: rest) = Some (trimStart rest)) as Hs.
  { unfold matchVerb. rewrite after_app. cbn [mbind option_bind].
    now rewrite (spaces1_space _ _ Hc). }
  assert (matchVerb (lit "generate" ++ c :: rest) = Some (trimStart rest)) as Hg.
  { unfold matchVerb. rewrite (after_app (lit "generate")).
    replace (after (lit "show") (lit "generate" ++ c :: rest)) with (@None jsstring)
      by reflexivity.
    cbn [mbind option_bind]. now rewrite (spaces1_space _ _ Hc). }
  assert (matchVerb (lit "create" ++ c :: rest) = Some (trimStart rest)) as Hc'.
  { unfold matchVerb. rewrite (after_app (lit "create")).
    replace (after (lit "show") (lit "create" ++ c :: rest)) with (@None jsstring)
      by reflexivity.
    replace (after (lit "generate") (lit "create" ++ c :: rest)) with (@None jsstring)
      by reflexivity.
    cbn [mbind option_bind]. now rewrite (spaces1_space _ _ Hc). }
  unfold removeCommand. rewrite Hs, Hg, Hc'. auto.
Qed.

Lemma verbs_are_interchangeable_witness :
  removeCommand (lit "create me a box") = removeCommand (lit "show me a box").
Proof.
  exact (proj2 (proj2 (verbs_are_interchangeable 32 (lit "me a box") eq_refl))).
Defined.

Lemma correct_makes_no_call (name : jsstring) :
  generateCalls (snd (correct name)) = [].
Proof. unfold correct. now destruct (truthy _). Qed.

(** X7.  Whatever the voice state, the transcript and the state, one run
    of the effect calls [generateHologramCode] at most once.  A run either
    makes no call and leaves the state as it is, or starts by logging the
    transcript as dialogue of Atlas and records the transcript, leaving
    the generated code and the hologram data as they are. *)
Theorem effect_calls_generator_at_most_once
    (toLowerCase : jsstring -> jsstring) (voiceState transcript : jsstring)
    (st : State) :
  (length (generateCalls (snd (voiceEffect toLowerCase voiceState transcript st)))
   <= 1)%nat
  /\ (voiceEffect toLowerCase voiceState transcript st = (st, [])
      \/ (head (snd (voiceEffect toLowerCase voiceState transcript st))
            = Some (AddLog dialogue (lit "Atlas")
                      (lit "Voice Command: " ++ [dquote] ++ transcript ++ [dquote]))
          /\ prevTranscriptRef (fst (voiceEffect toLowerCase voiceState transcript st))
             = transcript
          /\ generatedCode (fst (voiceEffect toLowerCase voiceState transcript st))
             = generatedCode st
          /\ hologramData (fst (voiceEffect toLowerCase voiceState transcript st))
             = hologramData st)).
Proof.
  unfold voiceEffect.
  destruct (isVoiceActive voiceState && negb (str_eqb transcript [])
            && negb (str_eqb transcript (prevTranscriptRef st))).
  - destruct (isCommand (toLowerCase transcript)).
    + cbv zeta.
      pose proof (correct_makes_no_call
                    (trim (removeCommand (toLowerCase transcript)))) as Hn.
      destruct (correct (trim (removeCommand (toLowerCase transcript))))
        as [objectName logged].
      cbn [fst snd] in *. split.
      * rewrite !generateCalls_app, Hn. cbn. lia.
      * right. repeat split; reflexivity.
    + cbn. split; [lia|]. right. repeat split; reflexivity.
  - cbn. split; [lia | now left].
Qed.

Lemma after_Some (p s r : jsstring) : after p s = Some r -> s = p ++ r.
Proof.
  revert s. induction p as [|a p IH]; intros s; cbn [after].
  - now intros [= ->].
  - destruct s as [|b s]; [discriminate|].
    destruct (a =? b) eqn:E; [|discriminate].
    apply N.eqb_eq in E. subst b. intros H. now rewrite (IH _ H).
Qed.

Lemma trimStart_suffix (s : jsstring) : exists p, s = p ++ trimStart s.
Proof.
  induction s as [|a s [p IH]]; cbn [trimStart]; [now exists []|].
  destruct (isWhiteSpace a).
  - exists (a :: p). cbn. now rewrite <- IH.
  - now exists [].
Qed.

Lemma spaces1_suffix (s r : jsstring) : spaces1 s = Some r -> exists p, s = p ++ r.
Proof.
  destruct s as [|a s]; cbn [spaces1]; [discriminate|].
  destruct (isWhiteSpace a); [|discriminate].
  intros [= <-]. destruct (trimStart_suffix s) as [p Hp].
  exists (a :: p). cbn. now rewrite <- Hp.
Qed.

Lemma optWord_suffix (w s : jsstring) : exists p, s = p ++ optWord w s.
Proof.
  unfold optWord.
  destruct (after w s) as [r|] eqn:E; [|now exists []].
  destruct (spaces1 r) as [r'|] eqn:E'; [|now exists []].
  apply after_Some in E. destruct (spaces1_suffix _ _ E') as [p Hp].
  exists (w ++ p). now rewrite E, Hp, app_assoc.
Qed.

Lemma matchVerb_suffix (s r : jsstring) :
  matchVerb s = Some r -> exists p, s = p ++ r.
Proof.
  assert (forall v, after v s ≫= spaces1 = Some r -> exists p, s = p ++ r) as Hv.
  { intros v H. destruct (after v s) as [t|] eqn:E; [|discriminate].
    cbn in H. apply after_Some in E.
    destruct (spaces1_suffix _ _ H) as [p Hp].
    exists (v ++ p). now rewrite E, Hp, app_assoc. }
  unfold matchVerb.
  destruct (after (lit "show") s ≫= spaces1) as [t|] eqn:E1.
  { intros [= <-]. exact (Hv _ E1). }
  destruct (after (lit "generate") s ≫= spaces1) as [t|] eqn:E2.
  { intros [= <-]. exact (Hv _ E2). }
  exact (Hv _).
Qed.

(** X8.  Removing the command only removes a prefix: what is left is a
    suffix of the lowercased transcript. *)
Theorem removeCommand_leaves_suffix (s : jsstring) :
  exists prefix, s = prefix ++ removeCommand s.
Proof.
  unfold removeCommand.
  destruct (matchVerb s) as [r|] eqn:E; [|now exists []].
  destruct (matchVerb_suffix _ _ E) as [p ->].
  destruct (optWord_suffix (lit "me") r) as [p1 H1].
  destruct (optWord_suffix (lit "a") (optWord (lit "me") r)) as [p2 H2].
  exists (p ++ p1 ++ p2).
  rewrite <- !app_assoc. now rewrite <- H2, <- H1.
Qed.

Lemma settleAll_fst (outcomes : list Settled) : forall st : State,
  generatedCode (fst (settleAll outcomes st))
  = match lastResolved outcomes with
    | Some c => Some c
    | None => generatedCode st
    end
  /\ prevTranscriptRef (fst (settleAll outcomes st)) = prevTranscriptRef st
  /\ hologramData (fst (settleAll outcomes st)) = hologramData st.
Proof.
  induction outcomes as [|o rest IH]; intros st; [now cbn|].
  cbn [settleAll lastResolved].
  destruct (onGenerateSettled o st) as [st1 calls1] eqn:E1.
  destruct (settleAll rest st1) as [st2 calls2] eqn:E2.
  destruct (IH st1) as (Hc & Hp & Hh). rewrite E2 in Hc, Hp, Hh.
  cbn [fst] in *. rewrite Hc, Hp, Hh.
  destruct o as [r | err]; cbn in E1; injection E1 as <- _;
    destruct (lastResolved rest); cbn; auto.
Qed.

Lemma settleAll_calls (outcomes : list Settled) : forall st : State,
  generateCalls (snd (settleAll outcomes st)) = [].
Proof.
  induction outcomes as [|o rest IH]; intros st; [reflexivity|].
  cbn [settleAll].
  destruct (onGenerateSettled o st) as [st1 calls1] eqn:E1.
  specialize (IH st1).
  destruct (settleAll rest st1) as [st2 calls2].
  cbn [snd] in *. rewrite generateCalls_app, IH.
  destruct o; cbn in E1; injection E1 as _ <-; reflexivity.
Qed.

(** X9.  When the promises of several commands settle, in whatever
    order, the generated code is the code of the one that resolved last
    (the code before, when none resolved); rejections in between change
    nothing, no settlement calls [generateHologramCode] again, and the
    recorded transcript and the hologram data stay. *)
Theorem last_resolved_code_wins (outcomes : list Settled) (st : State) :
  generatedCode (fst (settleAll outcomes st))
  = match lastResolved outcomes with
    | Some c => Some c
    | None => generatedCode st
    end
  /\ prevTranscriptRef (fst (settleAll outcomes st)) = prevTranscriptRef st
  /\ hologramData (fst (settleAll outcomes st)) = hologramData st
  /\ generateCalls (snd (settleAll outcomes st)) = [].
Proof.
  destruct (settleAll_fst outcomes st) as (H1 & H2 & H3).
  repeat split; try assumption. apply settleAll_calls.
Qed.

End CommandProperties.

(* ===================================================================== *)
(** ** Further properties of analyzeMood *)
(* ===================================================================== *)

Section AnswerProperties.

Import Mood.

Lemma after_head (p s : jsstring) (a : N) :
  head p = Some a -> head s <> Some a -> after p s = None.
Proof.
  destruct p as [|a' p]; [discriminate|]. intros [= ->].
  destruct s as [|b s]; [reflexivity|]. cbn [head after].
  intros H. destruct (a =? b) eqn:E; [|reflexivity].
  apply N.eqb_eq in E. congruence.
Qed.

(** Where no backtick follows, no fence starts. *)
Lemma fenceAt_no_backtick (s : jsstring) :
  head s <> Some backtick ->
  (forall r, s = LF :: backtick :: r -> False) ->
  fenceAt s = None.
Proof.
  intros Hh Hl. unfold fenceAt.
  rewrite (after_head (fence ++ lit "json") s backtick eq_refl Hh).
  unfold startsWith.
  rewrite (after_head fence s backtick eq_refl Hh).
  destruct s as [|a [|b r]]; [reflexivity| |].
  - cbn [after LF fence]. now destruct (LF =? a).
  - cbn [after LF fence]. destruct (LF =? a) eqn:Ea; [|reflexivity].
    destruct (backtick =? b) eqn:Eb; [|reflexivity].
    apply N.eqb_eq in Ea, Eb. subst. now destruct (Hl r).
Qed.

Lemma removeFences_plain (s tail : jsstring) :
  backtick ∉ s ->
  head tail <> Some backtick ->
  removeFencesFrom 0 (s ++ tail) = s ++ removeFencesFrom 0 tail.
Proof.
  intros Hs Ht. induction s as [|c s IH]; [reflexivity|].
  apply not_elem_of_cons in Hs as [Hc Hs].
  cbn [app removeFencesFrom].
  rewrite fenceAt_no_backtick.
  - now rewrite IH.
  - cbn. congruence.
  - intros r [= -> Hr]. destruct s as [|b s]; cbn in Hr.
    + apply Ht. now rewrite Hr.
    + injection Hr as -> _. apply Hs. left.
Qed.

(** X10.  A response text without backticks goes through the fence
    removal unchanged. *)
Theorem removeFences_keeps_plain_text (text : jsstring) :
  backtick ∉ text -> removeFences text = text.
Proof.
  intros H. unfold removeFences.
  rewrite <- (app_nil_r text) at 1.
  rewrite (removeFences_plain text [] H); [now rewrite app_nil_r | discriminate].
Qed.

Lemma removeFences_keeps_plain_text_witness :
  removeFences (moodText "Calm" "nature" "You smile.")
  = moodText "Calm" "nature" "You smile.".
Proof.
  apply removeFences_keeps_plain_text.
  apply (bool_decide_unpack _). reflexivity.
Defined.

(** X11.  The fences around a text are removed with their line feeds and
    the text is given back, whenever the text has no backtick. *)
Theorem removeFences_unwraps (body : jsstring) :
  backtick ∉ body -> removeFences (fenced body) = body.
Proof.
  intros H. unfold removeFences, fenced.
  change (removeFencesFrom 0 (fence ++ lit "json" ++ [LF] ++ body ++ [LF] ++ fence))
    with (removeFencesFrom 0 (body ++ LF :: fence)).
  rewrite (removeFences_plain body (LF :: fence) H) by discriminate.
  change (removeFencesFrom 0 (LF :: fence)) with (@nil N).
  apply app_nil_r.
Qed.

Lemma removeFences_unwraps_witness :
  removeFences (fenced (moodText "Calm" "nature" "You smile."))
  = moodText "Calm" "nature" "You smile.".
Proof.
  apply removeFences_unwraps.
  apply (bool_decide_unpack _). reflexivity.
Defined.

Ltac run_analyzeMood' :=
  unfold analyzeMood, tryCatch, mbind, mret, outcome_bind, outcome_ret, bind.

Lemma trim_keeps_head (c : N) (s : jsstring) :
  isWhiteSpace c = false -> exists t, trim (c :: s) = c :: t.
Proof.
  intros Hc. unfold trim, trimEnd. cbn [trimStart]. rewrite Hc.
  cbn [rev]. destruct (trimStart_snoc (rev s) c Hc) as [l ->].
  rewrite rev_app_distr. cbn [rev app]. eauto.
Qed.

Lemma parseJSON_word (s : jsstring) : parseJSON (106 :: s) = Throw SyntaxError.
Proof. reflexivity. Qed.

(** X12.  A fence that comes after a line feed is matched together with
    that line feed by the second alternative of the expression, so the
    word json that follows it stays in the text; a fenced answer that
    starts with a line feed is then no JSON text, and with the reference
    parser [analyzeMood] resolves with [null] whatever the answer
    carries. *)
Theorem removeFences_newline_before_fence (rest body : jsstring) :
  removeFences (LF :: fence ++ lit "json" ++ rest)
    = lit "json" ++ removeFences rest
  /\ analyzeMood (answering (LF :: fenced body)) = Ok JNull.
Proof.
  split; [reflexivity|].
  run_analyzeMood'. cbn [answering createCanvas getContext2d drawImage
    toDataURL generateContent JSON_parse negb].
  change (removeFences (LF :: fenced body))
    with (106 :: lit "son" ++ removeFences ([LF] ++ body ++ [LF] ++ fence)).
  destruct (trim_keeps_head 106 (lit "son" ++ removeFences ([LF] ++ body ++ [LF] ++ fence))
              eq_refl) as [t ->].
  now rewrite parseJSON_word.
Qed.

(** X13.  When the canvas works and the model answers a text without
    backticks between fences, [analyzeMood] resolves with what
    [JSON.parse] makes of the trimmed text, and with [null] when
    [JSON.parse] throws. *)
Theorem analyzeMood_reads_fenced_answer
    (p : Platform) (url body : jsstring) :
  createCanvas p = Ok tt -> getContext2d p = Ok true ->
  drawImage p = Ok tt -> toDataURL p = Ok url ->
  generateContent p (split comma url !! 1%nat) = Ok (fenced body) ->
  backtick ∉ body ->
  analyzeMood p
  = Ok (match JSON_parse p (trim body) with
        | Ok data => data
        | Throw _ => JNull
        end).
Proof.
  intros H1 H2 H3 H4 H5 Hb. run_analyzeMood'.
  rewrite H1, H2, H3, H4; cbn [negb]. rewrite H5.
  unfold removeFences, fenced.
  change (removeFencesFrom 0 (fence ++ lit "json" ++ [LF] ++ body ++ [LF] ++ fence))
    with (removeFencesFrom 0 (body ++ LF :: fence)).
  rewrite (removeFences_plain body (LF :: fence) Hb) by discriminate.
  change (removeFencesFrom 0 (LF :: fence)) with (@nil N).
  rewrite app_nil_r.
  now destruct (JSON_parse p (trim body)).
Qed.

Lemma analyzeMood_reads_fenced_answer_witness :
  analyzeMood (answering (fenced (lit " [1, 2] ")))
  = Ok (JArray [JNumber (lit "1"); JNumber (lit "2")]).
Proof.
  refine (analyzeMood_reads_fenced_answer
            (answering (fenced (lit " [1, 2] ")))
            (lit "data:image/jpeg;base64,/9j/4AAQ") (lit " [1, 2] ")
            eq_refl eq_refl eq_refl eq_refl eq_refl _).
  apply (bool_decide_unpack _). reflexivity.
Defined.

Lemma split_no_separator (sep : N) (s : jsstring) :
  sep ∉ s -> split sep s = [s].
Proof.
  induction s as [|c s IH]; [reflexivity|].
  intros H. apply not_elem_of_cons in H as [Hc Hs].
  cbn [split]. destruct (c =? sep) eqn:E.
  - apply N.eqb_eq in E. congruence.
  - now rewrite (IH Hs).
Qed.

Lemma split_at_separator (sep : N) (header rest : jsstring) :
  sep ∉ header -> split sep (header ++ sep :: rest) = header :: split sep rest.
Proof.
  induction header as [|c h IH]; intros H.
  - cbn [app split]. now rewrite N.eqb_refl.
  - apply not_elem_of_cons in H as [Hc Hs].
    cbn [app split]. destruct (c =? sep) eqn:E.
    + apply N.eqb_eq in E. congruence.
    + now rewrite (IH Hs).
Qed.

(** X14.  The image data sent to the model is what follows the first
    comma of the data URL, when no other comma follows; a URL without a
    comma gives [undefined]. *)
Theorem image_data_follows_comma (header data url : jsstring) :
  comma ∉ header -> comma ∉ data -> comma ∉ url ->
  split comma (header ++ comma :: data) !! 1%nat = Some data
  /\ split comma url !! 1%nat = None.
Proof.
  intros Hh Hd Hu.
  rewrite (split_at_separator _ _ _ Hh), (split_no_separator _ _ Hd),
    (split_no_separator _ _ Hu).
  split; reflexivity.
Qed.

Lemma image_data_follows_comma_witness :
  split comma (lit "data:image/jpeg;base64,/9j/4AAQ") !! 1%nat
  = Some (lit "/9j/4AAQ").
Proof.
  refine (proj1 (image_data_follows_comma (lit "data:image/jpeg;base64")
                   (lit "/9j/4AAQ") (lit "about:blank") _ _ _));
    apply (bool_decide_unpack _); reflexivity.
Defined.

Lemma trimStart_spaces (pre s : jsstring) :
  forallb isWhiteSpace pre = true -> trimStart (pre ++ s) = trimStart s.
Proof.
  induction pre as [|c pre IH]; [reflexivity|].
  cbn [forallb app trimStart]. intros H.
  apply andb_true_iff in H as [-> H]. exact (IH H).
Qed.

Lemma trimStart_fixed (s : jsstring) :
  (forall c, head s = Some c -> isWhiteSpace c = false) -> trimStart s = s.
Proof.
  destruct s as [|c r]; [reflexivity|].
  intros H. cbn [trimStart]. now rewrite (H c eq_refl).
Qed.

Lemma forallb_rev {A} (f : A -> bool) (l : list A) :
  forallb f (rev l) = forallb f l.
Proof.
  induction l as [|a l IH]; [reflexivity|].
  cbn [rev forallb]. rewrite forallb_app, IH. cbn [forallb].
  rewrite andb_true_r. apply andb_comm.
Qed.

Lemma head_rev {A} (l : list A) : head (rev l) = last l.
Proof.
  induction l as [|a l IH] using rev_ind; [reflexivity|].
  rewrite rev_app_distr, last_snoc. reflexivity.
Qed.

Lemma trimEnd_spaces (s post : jsstring) :
  forallb isWhiteSpace post = true -> trimEnd (s ++ post) = trimEnd s.
Proof.
  intros H. unfold trimEnd. rewrite rev_app_distr.
  rewrite trimStart_spaces; [reflexivity|]. now rewrite forallb_rev.
Qed.

Lemma trimEnd_fixed (s : jsstring) :
  (forall c, last s = Some c -> isWhiteSpace c = false) -> trimEnd s = s.
Proof.
  intros H. unfold trimEnd. rewrite trimStart_fixed.
  - apply rev_involutive.
  - intros c Hc. rewrite head_rev in Hc. exact (H c Hc).
Qed.

(** [trim] removes the white space before and after [clean], and nothing
    else. *)
Lemma trim_strips (pre clean post : jsstring) :
  forallb isWhiteSpace pre = true -> forallb isWhiteSpace post = true ->
  (forall c, head clean = Some c -> isWhiteSpace c = false) ->
  (forall c, last clean = Some c -> isWhiteSpace c = false) ->
  trim (pre ++ clean ++ post) = clean.
Proof.
  intros Hpre Hpost Hh Hl. unfold trim.
  rewrite (trimStart_spaces pre _ Hpre).
  destruct clean as [|c r].
  - cbn [app]. rewrite <- (app_nil_r post), (trimStart_spaces post [] Hpost).
    reflexivity.
  - cbn [app trimStart]. rewrite (Hh c eq_refl).
    change (c :: r ++ post) with ((c :: r) ++ post).
    rewrite (trimEnd_spaces _ _ Hpost). exact (trimEnd_fixed _ Hl).
Qed.

(** X27.  [analyzeMood] resolves with [null] when the 2D context is
    [null] and when a step throws: the canvas, the context, the drawing,
    the data URL, the model call, the parse.  When every step succeeds
    and the response text, with its fences removed, is [clean] with white
    space before and after it and none at its two ends, the value is the
    one [JSON.parse] gives for [clean]. *)
Theorem analyzeMood_null_or_parsed (p : Platform) :
  (getContext2d p = Ok false -> analyzeMood p = Ok JNull)
  /\ ((exists e, createCanvas p = Throw e) \/ (exists e, getContext2d p = Throw e)
      \/ (exists e, drawImage p = Throw e) \/ (exists e, toDataURL p = Throw e) ->
      analyzeMood p = Ok JNull)
  /\ (forall url e,
        toDataURL p = Ok url ->
        generateContent p (split comma url !! 1%nat) = Throw e ->
        analyzeMood p = Ok JNull)
  /\ (forall url text pre clean post,
        toDataURL p = Ok url ->
        generateContent p (split comma url !! 1%nat) = Ok text ->
        removeFences text = pre ++ clean ++ post ->
        forallb isWhiteSpace pre = true -> forallb isWhiteSpace post = true ->
        (forall c, head clean = Some c -> isWhiteSpace c = false) ->
        (forall c, last clean = Some c -> isWhiteSpace c = false) ->
        (forall e, JSON_parse p clean = Throw e -> analyzeMood p = Ok JNull)
        /\ (forall data,
              createCanvas p = Ok tt -> getContext2d p = Ok true ->
              drawImage p = Ok tt ->
              JSON_parse p clean = Ok data -> analyzeMood p = Ok data)).
Proof.
  destruct p as [canvas ctx draw url gen parse]; cbn [createCanvas getContext2d
    drawImage toDataURL generateContent JSON_parse].
  split; [|split; [|split]].
  - intros ->. run_analyzeMood'; cbn. destruct canvas; reflexivity.
  - intros H. run_analyzeMood'; cbn.
    destruct canvas as [[]|]; [|reflexivity].
    destruct ctx as [[]|]; cbn; [|reflexivity|reflexivity].
    destruct draw as [[]|]; [|reflexivity].
    destruct url as [u|]; [|reflexivity].
    exfalso. destruct H as [[e H]|[[e H]|[[e H]|[e H]]]]; discriminate H.
  - intros u e -> Hg. run_analyzeMood'; cbn.
    destruct canvas as [[]|]; [|reflexivity].
    destruct ctx as [[]|]; cbn; [|reflexivity|reflexivity].
    destruct draw as [[]|]; [|reflexivity].
    now rewrite Hg.
  - intros u t pre clean post -> Hg Hr Hpre Hpost Hh Hl.
    pose proof (trim_strips pre clean post Hpre Hpost Hh Hl) as Ht.
    rewrite <- Hr in Ht.
    split.
    + intros e Hp. run_analyzeMood'; cbn.
      destruct canvas as [[]|]; [|reflexivity].
      destruct ctx as [[]|]; cbn; [|reflexivity|reflexivity].
      destruct draw as [[]|]; [|reflexivity].
      now rewrite Hg, Ht, Hp.
    + intros d -> -> -> Hp. run_analyzeMood'; cbn.
      now rewrite Hg, Ht, Hp.
Qed.

Lemma analyzeMood_null_or_parsed_witness :
  let clean := moodText "Calm" "iceland" "You look calm." in
  let text := fenced ([160] ++ clean ++ [0xFEFF; 32]) in
  parseJSON ([160] ++ clean ++ [0xFEFF; 32]) = Throw SyntaxError
  /\ analyzeMood (answering text)
     = Ok (JObject [ (lit "mood", JString (lit "Calm"));
                     (lit "suggestedEnvironment", JString (lit "iceland"));
                     (lit "reasoning", JString (lit "You look calm.")) ]).
Proof.
  intros clean text. split; [vm_compute; reflexivity|].
  destruct (analyzeMood_null_or_parsed (answering text)) as (_ & _ & _ & H).
  refine (proj2 (H (lit "data:image/jpeg;base64,/9j/4AAQ") text
                   [160] clean [0xFEFF; 32] eq_refl eq_refl _ eq_refl eq_refl _ _)
            _ eq_refl eq_refl eq_refl _).
  - vm_compute. reflexivity.
  - intros c [= <-]. reflexivity.
  - intros c. vm_compute. intros [= <-]. reflexivity.
  - vm_compute. reflexivity.
Defined.

End AnswerProperties.

(* ===================================================================== *)
(** ** Properties of the assistance mode *)
(* ===================================================================== *)

Section AssistProperties.

Import Assist.

(** X15.  Whatever [speakText] does (a buffer, [null], an exception),
    [onAnalysisResult] shows the explanation and the suggestion as
    feedback, adds one log entry for Luna, asks for the same speech and
    leaves the assistance flag alone.  An audio is played exactly when a
    buffer came back, the audio playing before is paused first, and
    without a buffer the audio reference stays as it was. *)
Theorem analysis_feedback_survives_speech_failure
    (speak : Mood.outcome (option N)) (analysis : ErrorAnalysis) (st : State) :
  assistanceFeedback (fst (onAnalysisResult speak analysis st))
    = explanation analysis ++ space ++ suggestion analysis
  /\ isAssistanceActive (fst (onAnalysisResult speak analysis st))
     = isAssistanceActive st
  /\ take 2 (snd (onAnalysisResult speak analysis st))
     = take 2 (snd (onAnalysisResult (Mood.Ok None) analysis st))
  /\ match speak with
     | Mood.Ok (Some buffer) =>
         audioRef (fst (onAnalysisResult speak analysis st)) = Some buffer
         /\ drop 2 (snd (onAnalysisResult speak analysis st))
            = match audioRef st with
              | Some current => [Pause current; Play buffer]
              | None => [Play buffer]
              end
     | Mood.Ok None =>
         audioRef (fst (onAnalysisResult speak analysis st)) = audioRef st
         /\ drop 2 (snd (onAnalysisResult speak analysis st)) = []
     | Mood.Throw err =>
         audioRef (fst (onAnalysisResult speak analysis st)) = audioRef st
         /\ drop 2 (snd (onAnalysisResult speak analysis st)) = [ConsoleError err]
     end.
Proof.
  destruct speak as [[buffer|]|err]; cbn; repeat split; try reflexivity.
  now destruct (audioRef st).
Qed.

Lemma toggles_state (n : nat) (st : State) :
  isAssistanceActive (fst (toggles n st))
    = xorb (Nat.odd n) (isAssistanceActive st)
  /\ audioRef (fst (toggles n st)) = audioRef st
  /\ (n <> 0%nat -> assistanceFeedback (fst (toggles n st)) = []).
Proof.
  induction n as [|n (IH1 & IH2 & _)].
  - cbn. split; [now destruct (isAssistanceActive st) | split; [reflexivity | congruence]].
  - cbn [toggles]. destruct (toggles n st) as [st1 calls1]. cbn [fst] in *.
    cbn. rewrite IH1, IH2, Nat.odd_succ, <- Nat.negb_odd.
    split; [now destruct (Nat.odd n), (isAssistanceActive st) | split; reflexivity].
Qed.

(** X16.  After any number of clicks on the assistance toggle the flag is
    the starting flag flipped once per click, the feedback is empty, and
    the last call tells the assistant service the state of the flag:
    [enable] when it is set, [disable] when it is not. *)
Theorem toggles_keep_service_in_step (n : nat) (st : State) :
  isAssistanceActive (fst (toggles (S n) st))
    = xorb (Nat.odd (S n)) (isAssistanceActive st)
  /\ assistanceFeedback (fst (toggles (S n) st)) = []
  /\ last (snd (toggles (S n) st))
     = Some (if isAssistanceActive (fst (toggles (S n) st))
             then Enable else Disable).
Proof.
  destruct (toggles_state (S n) st) as (H1 & _ & H3).
  split; [exact H1|]. split; [now apply H3|].
  cbn [toggles]. destruct (toggles n st) as [st1 calls1].
  unfold toggleAssistance, syncAssistant, cleanupAssistant. cbn.
  destruct (negb (isAssistanceActive st1)); rewrite last_app; reflexivity.
Qed.

End AssistProperties.

(* ===================================================================== *)
(** ** Properties of the other placement loops *)
(* ===================================================================== *)

Section RoomsProperties.

Import IEEE754 Scene Rooms.
Local Open Scope Q_scope.

(** *** Loops that write slot [i] of a list in iteration [i] *)

Lemma forLoop_untouched {S A : Type} (get : S -> list A) (body : nat -> S -> S) :
  (forall i s j, j <> i -> get (body i s) !! j = get s !! j) ->
  forall (n i : nat) (s : S) (j : nat), (j < i \/ i + n <= j)%nat ->
    get (forLoop n i body s) !! j = get s !! j.
Proof.
  intros Hown. induction n as [|n IH]; intros i s j Hj; cbn [forLoop].
  - reflexivity.
  - rewrite IH by lia. apply Hown. lia.
Qed.

Lemma forLoop_length_of {S A : Type} (get : S -> list A) (body : nat -> S -> S) :
  (forall i s, length (get (body i s)) = length (get s)) ->
  forall (n i : nat) (s : S), length (get (forLoop n i body s)) = length (get s).
Proof.
  intros Hlen. induction n as [|n IH]; intros i s; cbn [forLoop].
  - reflexivity.
  - now rewrite IH.
Qed.

(** When iteration [i] writes [f s] to slot [i], slot [i] holds, after the
    loop, [f] of the state at the start of iteration [i]. *)
Lemma forLoop_written {S A : Type}
    (get : S -> list A) (body : nat -> S -> S) (f : S -> A) :
  (forall i s, get (body i s) = <[i := f s]> (get s)) ->
  forall (n : nat) (s : S) (i : nat),
    (i < n)%nat -> (i < length (get s))%nat ->
    get (forLoop n 0 body s) !! i = Some (f (forLoop i 0 body s)).
Proof.
  intros Hw n s i Hi Hlen.
  assert (forall i s j, j <> i -> get (body i s) !! j = get s !! j) as Hown.
  { intros i' s' j Hj. rewrite Hw. apply list_lookup_insert_ne. congruence. }
  assert (forall i s, length (get (body i s)) = length (get s)) as Hl.
  { intros i' s'. rewrite Hw. apply length_insert. }
  replace n with (i + Datatypes.S (n - i - 1))%nat by lia.
  rewrite forLoop_split. cbn [forLoop Nat.add].
  rewrite (forLoop_untouched get body Hown) by lia.
  rewrite Hw. apply list_lookup_insert_eq.
  now rewrite (forLoop_length_of get body Hl).
Qed.

Lemma forLoop_lookup_of {S A : Type} (get : S -> list A) (body : nat -> S -> S) :
  (forall i s j, j <> i -> get (body i s) !! j = get s !! j) ->
  forall (n : nat) (s : S) (i : nat), (i < n)%nat ->
    get (forLoop n 0 body s) !! i = get (body i (forLoop i 0 body s)) !! i.
Proof.
  intros Hown n s i Hi.
  replace n with (i + Datatypes.S (n - i - 1))%nat by lia.
  rewrite forLoop_split. cbn [forLoop Nat.add].
  apply (forLoop_untouched get body Hown). lia.
Qed.

Lemma forLoop_invariant {S : Type} (P : S -> Prop) (body : nat -> S -> S) :
  (forall i s, P s -> P (body i s)) ->
  forall (n i : nat) (s : S), P s -> P (forLoop n i body s).
Proof.
  intros Hp. induction n as [|n IH]; intros i s H; cbn [forLoop]; auto.
Qed.

Lemma loop_own (body : nat -> Loop -> Loop) :
  (forall i s, exists m,
      instanceMatrix (mesh (body i s)) = <[i := m]> (instanceMatrix (mesh s))) ->
  (forall i s j, j <> i ->
      instanceMatrix (mesh (body i s)) !! j = instanceMatrix (mesh s) !! j)
  /\ (forall i s, length (instanceMatrix (mesh (body i s)))
                  = length (instanceMatrix (mesh s))).
Proof.
  intros H. split.
  - intros i s j Hj. destruct (H i s) as [m ->].
    apply list_lookup_insert_ne. congruence.
  - intros i s. destruct (H i s) as [m ->]. apply length_insert.
Qed.

(** *** Ranges of the expressions of the loops *)

(** [u * w] *)
Lemma scaled_range (u w : Q) :
  0 <= u /\ u < 1 -> 0 <= w -> round binary64 w == w ->
  0 <= mul u w /\ mul u w <= w.
Proof.
  intros [Hu1 Hu2] Hw Ew.
  apply (round_range binary64); [discriminate | | exact Ew |].
  - vm_compute; reflexivity.
  - assert (0 <= u * w) by (apply Qmult_le_0_compat; lra).
    assert (0 <= (1 - u) * w) by (apply Qmult_le_0_compat; lra).
    split; lra.
Qed.

(** [(u - 0.5) * w] *)
Lemma centred_range (u w h : Q) :
  0 <= u /\ u < 1 -> 0 <= w -> h == w * (1 # 2) ->
  round binary64 h == h -> round binary64 (- h) == - h ->
  - h <= mul (sub u 0.5) w /\ mul (sub u 0.5) w <= h.
Proof.
  intros [Hu1 Hu2] Hw Eh E1 E2.
  assert (- (1 # 2) <= sub u 0.5 /\ sub u 0.5 <= 1 # 2) as [H1 H2].
  { apply (round_range binary64); [discriminate | | |];
      [vm_compute; reflexivity | vm_compute; reflexivity |].
    split; lra. }
  apply (round_range binary64); [discriminate | exact E2 | exact E1 |].
  assert (0 <= (sub u 0.5 + (1 # 2)) * w) by (apply Qmult_le_0_compat; lra).
  assert (0 <= ((1 # 2) - sub u 0.5) * w) by (apply Qmult_le_0_compat; lra).
  split; lra.
Qed.

(** [a + u * w] *)
Lemma offset_range (a u w : Q) :
  0 <= u /\ u < 1 -> 0 <= w ->
  round binary64 w == w -> round binary64 a == a ->
  a <= add a (mul u w) /\ add a (mul u w) <= add a w.
Proof.
  intros Hu Hw Ew Ea.
  destruct (scaled_range u w Hu Hw Ew) as [H1 H2].
  split.
  - apply (round_above binary64); [discriminate | exact Ea | lra].
  - apply (round_mono binary64); [discriminate | lra].
Qed.

Section Loops.

Variable random : nat -> number.
Variables Math_sin Math_cos : number -> number.
Variable Math_pow : number -> number -> number.
Hypothesis random_range : unitInterval random.
Hypothesis trig : accurate Math_sin Math_cos.
Hypothesis power : unitPower Math_pow.

Lemma treeBody_trunks_own (i : nat) (s : TreeLoop) (j : nat) :
  j <> i ->
  instanceMatrix (trunks (treeBody random Math_sin Math_cos i s)) !! j
  = instanceMatrix (trunks s) !! j.
Proof. intros H. cbn. apply list_lookup_insert_ne. congruence. Qed.

Lemma treeBody_foliage_own (i : nat) (s : TreeLoop) (j : nat) :
  j <> i ->
  instanceMatrix (foliage (treeBody random Math_sin Math_cos i s)) !! j
  = instanceMatrix (foliage s) !! j.
Proof. intros H. cbn. apply list_lookup_insert_ne. congruence. Qed.

(** X17.  In the rainforest every tree has its trunk stored at a
    horizontal distance between 19.999 and 90.001 from the origin and at
    height 10, and its foliage straight above the trunk, at 18 times the
    vertical scale of the trunk, which is a height in [18, 27], with
    scale (6, 4, 6).  Without one of the two meshes nothing is placed. *)
Theorem foliage_sits_on_its_trunk
    (k0 : nat) (trunkMesh foliageMesh : InstancedMesh) (i : nat) :
  (i < treeCount)%nat ->
  (i < length (instanceMatrix trunkMesh))%nat ->
  (i < length (instanceMatrix foliageMesh))%nat ->
  placeTrees random Math_sin Math_cos k0 None (Some foliageMesh) = None
  /\ placeTrees random Math_sin Math_cos k0 (Some trunkMesh) None = None
  /\ exists loop trunk leaves,
       placeTrees random Math_sin Math_cos k0 (Some trunkMesh) (Some foliageMesh)
         = Some loop
       /\ instanceMatrix (trunks loop) !! i = Some trunk
       /\ instanceMatrix (foliage loop) !! i = Some leaves
       /\ distanceBetween 19.999 90.001 trunk
       /\ height trunk = 10
       /\ vx (translation leaves) = vx (translation trunk)
       /\ vz (translation leaves) = vz (translation trunk)
       /\ height leaves = fround (mul 18 (vy (scaling trunk)))
       /\ (18 <= height leaves /\ height leaves <= 27)
       /\ scaling leaves = vec 6 4 6.
Proof.
  intros Hi Ht Hf. split; [reflexivity|]. split; [reflexivity|].
  eexists _, _, _. split; [reflexivity|].
  split.
  { rewrite (forLoop_lookup_of (fun s => instanceMatrix (trunks s)) _
               treeBody_trunks_own) by exact Hi.
    cbn [treeBody trunks setMatrixAt instanceMatrix].
    apply list_lookup_insert_eq.
    rewrite (forLoop_length_of (fun s => instanceMatrix (trunks s))).
    - exact Ht.
    - intros. cbn. apply length_insert. }
  split.
  { rewrite (forLoop_lookup_of (fun s => instanceMatrix (foliage s)) _
               treeBody_foliage_own) by exact Hi.
    cbn [treeBody foliage setMatrixAt instanceMatrix].
    apply list_lookup_insert_eq.
    rewrite (forLoop_length_of (fun s => instanceMatrix (foliage s))).
    - exact Hf.
    - intros. cbn. apply length_insert. }
  set (k := treeDrawn _).
  unfold distanceBetween, squaredDistance, height.
  cbn [toFloat32 updateMatrix position_set scale_set rotation_set matrix
       translation scaling vec vx vy vz position scale].
  set (angle := mul (mul (random k) Math_PI) 2).
  destruct (trig angle) as (Hs & Hc & Hp1 & Hp2).
  assert (20 <= add 20 (mul (random (k + 1)%nat) 70)
          /\ add 20 (mul (random (k + 1)%nat) 70) <= 20 + 70) as Hrad.
  { apply radius_range; [apply random_range | lra | | |]; vm_compute; reflexivity. }
  pose proof (polar_stored (Math_sin angle) (Math_cos angle)
                (add 20 (mul (random (k + 1)%nat) 70)) 20 90 Hs Hc
                (conj Hp1 Hp2)) as [D1 D2]; [lra | split; lra | lra |].
  unfold storedSlack in D1, D2.
  split; [split; lra|].
  split; [vm_compute; reflexivity|].
  split; [reflexivity|]. split; [reflexivity|]. split; [reflexivity|].
  split; [|reflexivity].
  assert (1 <= add 1 (mul (random (k + 2)%nat) 0.5)
          /\ add 1 (mul (random (k + 2)%nat) 0.5) <= 1 + 0.5) as [S1 S2].
  { apply radius_range; [apply random_range | lra | | |]; vm_compute; reflexivity. }
  apply (round_range binary32); [discriminate | | |];
    [vm_compute; reflexivity | vm_compute; reflexivity |].
  apply (round_range binary64); [discriminate | | |];
    [vm_compute; reflexivity | vm_compute; reflexivity |].
  split; lra.
Qed.

Lemma rainBody_upright (i : nat) (s : RainLoop) :
  vy (rotation (rainDummy s)) = 0 /\ vz (rotation (rainDummy s)) = 0 ->
  vy (rotation (rainDummy (rainBody random i s))) = 0
  /\ vz (rotation (rainDummy (rainBody random i s))) = 0.
Proof. intros [H1 H2]. cbn. now split. Qed.

(** X18.  Every rain drop starts inside the box of 100 by 40 by 100 above
    the ground: x and z in [-50, 50], y in [0, 40], tilted by 0.1 around
    the x axis only; its speed attribute is in [0, 1] and its opacity
    between the binary32 values of 0.3 and 0.7. *)
Theorem rain_starts_inside_the_box (k0 : nat) (rainMesh : InstancedMesh) (i : nat) :
  (i < rainCount)%nat -> (i < length (instanceMatrix rainMesh))%nat ->
  exists loop drop speed opacity,
    placeRain random k0 (Some rainMesh) = Some loop
    /\ instanceMatrix (drops loop) !! i = Some drop
    /\ (- (50) <= vx (translation drop) /\ vx (translation drop) <= 50)
    /\ (0 <= height drop /\ height drop <= 40)
    /\ (- (50) <= vz (translation drop) /\ vz (translation drop) <= 50)
    /\ orientation drop = vec (literal 0.1) 0 0
    /\ speeds loop !! i = Some speed /\ (0 <= speed /\ speed <= 1)
    /\ opacities loop !! i = Some opacity
    /\ (fround (literal 0.3) <= opacity /\ opacity <= fround (literal 0.7)).
Proof.
  intros Hi Hm. eexists _, _, _, _. split; [reflexivity|].
  split.
  { rewrite (forLoop_lookup_of (fun s => instanceMatrix (drops s))) by
      (try exact Hi; intros; cbn; apply list_lookup_insert_ne; congruence).
    cbn [rainBody drops setMatrixAt instanceMatrix].
    apply list_lookup_insert_eq.
    rewrite (forLoop_length_of (fun s => instanceMatrix (drops s))).
    - exact Hm.
    - intros. cbn. apply length_insert. }
  set (start := {| drops := rainMesh; speeds := _; opacities := _;
                   rainDummy := newObject3D; rainDrawn := k0 |}).
  pose proof (forLoop_invariant
                (fun s => vy (rotation (rainDummy s)) = 0
                          /\ vz (rotation (rainDummy s)) = 0)
                (rainBody random) rainBody_upright i 0%nat start
                (conj eq_refl eq_refl)) as [Hy Hz].
  set (s := forLoop i 0 (rainBody random) start) in *.
  unfold height. cbn [toFloat32 updateMatrix rotation_x_set rotation_set
    position_set matrix translation orientation vec vx vy vz position rotation].
  split.
  { apply (round_range binary32); [discriminate | | |];
      [vm_compute; reflexivity | vm_compute; reflexivity |].
    apply (centred_range (random (rainDrawn s)) 100 50);
      [apply random_range | lra | reflexivity | |]; vm_compute; reflexivity. }
  split.
  { apply (round_range binary32); [discriminate | | |];
      [vm_compute; reflexivity | vm_compute; reflexivity |].
    apply scaled_range; [apply random_range | lra | vm_compute; reflexivity]. }
  split.
  { apply (round_range binary32); [discriminate | | |];
      [vm_compute; reflexivity | vm_compute; reflexivity |].
    apply (centred_range (random (rainDrawn s + 2)%nat) 100 50);
      [apply random_range | lra | reflexivity | |]; vm_compute; reflexivity. }
  split; [now rewrite Hy, Hz|].
  split.
  { rewrite (forLoop_lookup_of speeds) by
      (try exact Hi; intros; cbn; apply list_lookup_insert_ne; congruence).
    cbn [rainBody speeds]. apply list_lookup_insert_eq.
    rewrite (forLoop_length_of speeds).
    - cbn. rewrite length_replicate. exact Hi.
    - intros. cbn. apply length_insert. }
  split.
  { apply (round_range binary32); [discriminate | | |];
      [vm_compute; reflexivity | vm_compute; reflexivity |].
    match goal with
    | |- context [random ?n] => destruct (random_range n)
    end.
    split; lra. }
  split.
  { rewrite (forLoop_lookup_of opacities) by
      (try exact Hi; intros; cbn; apply list_lookup_insert_ne; congruence).
    cbn [rainBody opacities]. apply list_lookup_insert_eq.
    rewrite (forLoop_length_of opacities).
    - cbn. rewrite length_replicate. exact Hi.
    - intros. cbn. apply length_insert. }
  fold s.
  match goal with
  | |- context [mul (random ?n) (literal 0.4)] =>
      pose proof (offset_range (literal 0.3) (random n) (literal 0.4)
                    (random_range n)) as [A1 A2];
        [vm_compute; discriminate | vm_compute; reflexivity
         | vm_compute; reflexivity |]
  end.
  assert (add (literal 0.3) (literal 0.4) == literal 0.7) as E
    by (vm_compute; reflexivity).
  split.
  - apply (round_mono binary32); [discriminate | exact A1].
  - apply (round_mono binary32); [discriminate | lra].
Qed.

Lemma bushBody_upright (i : nat) (s : Loop) :
  vx (rotation (dummy s)) = 0 /\ vz (rotation (dummy s)) = 0 ->
  vx (rotation (dummy (bushBody random Math_sin Math_cos i s))) = 0
  /\ vz (rotation (dummy (bushBody random Math_sin Math_cos i s))) = 0.
Proof. intros [H1 H2]. cbn. now split. Qed.

(** X20.  In the desert every rock is stored at a horizontal distance
    between 9.999 and 90.001 and at the binary32 value of the height 0.2,
    flattened to 0.6 of its width; every bush is stored at a distance
    between 7.999 and 93.001 and at height 0, turned around the vertical
    axis only and scaled by the same factor, between the numbers 0.8 and
    1.3, along the three axes. *)
Theorem desert_placement_ranges
    (k0 k1 : nat) (rocks bushes : InstancedMesh) (i j : nat) :
  (i < rockCount)%nat -> (i < length (instanceMatrix rocks))%nat ->
  (j < bushCount)%nat -> (j < length (instanceMatrix bushes))%nat ->
  (exists loop rock,
     placeRocks random Math_sin Math_cos k0 (Some rocks) = Some loop
     /\ instanceMatrix (mesh loop) !! i = Some rock
     /\ distanceBetween 9.999 90.001 rock
     /\ height rock = fround (literal 0.2)
     /\ vy (scaling rock) = mul (vx (scaling rock)) (literal 0.6)
     /\ vz (scaling rock) = vx (scaling rock))
  /\ (exists loop bush s,
        placeBushes random Math_sin Math_cos k1 (Some bushes) = Some loop
        /\ instanceMatrix (mesh loop) !! j = Some bush
        /\ distanceBetween 7.999 93.001 bush
        /\ height bush = 0
        /\ vx (orientation bush) = 0 /\ vz (orientation bush) = 0
        /\ scaling bush = vec s s s
        /\ literal 0.8 <= s /\ s <= literal 1.3).
Proof.
  intros Hi Hr Hj Hb. split.
  - destruct (loop_own (rockBody random Math_sin Math_cos)) as [Hown Hlen];
      [intros; eexists; reflexivity|].
    eexists _, _. split; [reflexivity|]. split.
    { rewrite (forLoop_lookup_of (fun s => instanceMatrix (mesh s)) _ Hown)
        by exact Hi.
      cbn [rockBody mesh setMatrixAt instanceMatrix].
      apply list_lookup_insert_eq.
      now rewrite (forLoop_length_of (fun s => instanceMatrix (mesh s)) _ Hlen). }
    set (k := drawn _).
    unfold distanceBetween, squaredDistance, height.
    cbn [toFloat32 updateMatrix position_set scale_set rotation_set matrix
         translation scaling vec vx vy vz position scale].
    set (angle := mul (mul (random k) Math_PI) 2).
    destruct (trig angle) as (Hs & Hc & Hp1 & Hp2).
    assert (10 <= add 10 (mul (random (k + 1)%nat) 80)
            /\ add 10 (mul (random (k + 1)%nat) 80) <= 10 + 80) as Hrad.
    { apply radius_range; [apply random_range | lra | | |];
        vm_compute; reflexivity. }
    pose proof (polar_stored (Math_sin angle) (Math_cos angle)
                  (add 10 (mul (random (k + 1)%nat) 80)) 10 90 Hs Hc
                  (conj Hp1 Hp2)) as [D1 D2]; [lra | split; lra | lra |].
    unfold storedSlack in D1, D2.
    split; [split; lra|]. repeat split; reflexivity.
  - destruct (loop_own (bushBody random Math_sin Math_cos)) as [Hown Hlen];
      [intros; eexists; reflexivity|].
    eexists _, _, _. split; [reflexivity|]. split.
    { rewrite (forLoop_lookup_of (fun s => instanceMatrix (mesh s)) _ Hown)
        by exact Hj.
      cbn [bushBody mesh setMatrixAt instanceMatrix].
      apply list_lookup_insert_eq.
      now rewrite (forLoop_length_of (fun s => instanceMatrix (mesh s)) _ Hlen). }
    pose proof (forLoop_invariant
                  (fun s => vx (rotation (dummy s)) = 0
                            /\ vz (rotation (dummy s)) = 0)
                  (bushBody random Math_sin Math_cos) bushBody_upright j 0%nat
                  (startLoop k1 bushes) (conj eq_refl eq_refl)) as [Hx Hz].
    set (s := forLoop j 0 (bushBody random Math_sin Math_cos)
                (startLoop k1 bushes)) in *.
    unfold distanceBetween, squaredDistance, height.
    cbn [toFloat32 updateMatrix rotation_y_set rotation_set position_set
      scale_set matrix translation orientation scaling vec vx vy vz position
      rotation scale].
    set (angle := mul (mul (random (drawn s)) Math_PI) 2).
    destruct (trig angle) as (Hs & Hc & Hp1 & Hp2).
    assert (8 <= add 8 (mul (random (drawn s + 1)%nat) 85)
            /\ add 8 (mul (random (drawn s + 1)%nat) 85) <= 8 + 85) as Hrad.
    { apply radius_range; [apply random_range | lra | | |];
        vm_compute; reflexivity. }
    pose proof (polar_stored (Math_sin angle) (Math_cos angle)
                  (add 8 (mul (random (drawn s + 1)%nat) 85)) 8 93 Hs Hc
                  (conj Hp1 Hp2)) as [D1 D2]; [lra | split; lra | lra |].
    unfold storedSlack in D1, D2.
    split; [split; lra|]. split; [vm_compute; reflexivity|].
    split; [exact Hx|]. split; [exact Hz|]. split; [reflexivity|].
    match goal with
    | |- context [mul (random ?n) 0.5] =>
        pose proof (offset_range (literal 0.8) (random n) 0.5
                      (random_range n)) as [A1 A2];
          [lra | vm_compute; reflexivity | vm_compute; reflexivity |]
    end.
    assert (add (literal 0.8) 0.5 == literal 1.3) as E
      by (vm_compute; reflexivity).
    split; lra.
Qed.

(** X21.  Every blade of grass is stored at a horizontal distance between
    3.999 and 90.001 from the origin, so outside the clearance of radius
    4 around the user but for the rounding, at height 0; it leans by at
    most 0.15 around x and around z, and its width scale, the same along
    x and z, is between the numbers 0.7 and 1.3. *)
Theorem grass_keeps_the_clearance (k0 : nat) (grass : InstancedMesh) (i : nat) :
  (i < grassCount)%nat -> (i < length (instanceMatrix grass))%nat ->
  exists loop blade,
    placeGrass random Math_sin Math_cos Math_pow k0 (Some grass) = Some loop
    /\ instanceMatrix (mesh loop) !! i = Some blade
    /\ distanceBetween 3.999 90.001 blade
    /\ height blade = 0
    /\ (- literal 0.15 <= vx (orientation blade)
        /\ vx (orientation blade) <= literal 0.15)
    /\ (- literal 0.15 <= vz (orientation blade)
        /\ vz (orientation blade) <= literal 0.15)
    /\ vz (scaling blade) = vx (scaling blade)
    /\ (literal 0.7 <= vx (scaling blade)
        /\ vx (scaling blade) <= literal 1.3).
Proof.
  intros Hi Hg.
  destruct (loop_own (grassBody random Math_sin Math_cos Math_pow))
    as [Hown Hlen]; [intros; eexists; reflexivity|].
  eexists _, _. split; [reflexivity|]. split.
  { rewrite (forLoop_lookup_of (fun s => instanceMatrix (mesh s)) _ Hown)
      by exact Hi.
    cbn [grassBody mesh setMatrixAt instanceMatrix].
    apply list_lookup_insert_eq.
    now rewrite (forLoop_length_of (fun s => instanceMatrix (mesh s)) _ Hlen). }
  set (s := forLoop i 0 (grassBody random Math_sin Math_cos Math_pow)
              (startLoop k0 grass)).
  unfold distanceBetween, squaredDistance, height, centerClearance.
  cbn [toFloat32 updateMatrix rotation_x_set rotation_y_set rotation_z_set
    rotation_set position_set scale_set matrix translation orientation scaling
    vec vx vy vz position rotation scale].
  set (angle := mul (mul (random (drawn s)) Math_PI) 2).
  destruct (trig angle) as (Hs & Hc & Hp1 & Hp2).
  set (r := mul (Math_pow (random (drawn s + 1)%nat) (literal 0.6)) 90).
  assert (0 <= r /\ r <= 90) as [R1 R2].
  { destruct (random_range (drawn s + 1)%nat) as [U1 U2].
    destruct (power (random (drawn s + 1)%nat) (literal 0.6) U1 U2) as [P1 P2];
      [vm_compute; reflexivity|].
    apply (round_range binary64); [discriminate | | |];
      [vm_compute; reflexivity | vm_compute; reflexivity |].
    split; lra. }
  assert (4 <= Math_max 4 r /\ Math_max 4 r <= 90) as Hrad.
  { unfold Math_max. destruct (ltb 4 r) eqn:E.
    - apply ltb_true in E. split; lra.
    - split; lra. }
  pose proof (polar_stored (Math_sin angle) (Math_cos angle) (Math_max 4 r)
                4 90 Hs Hc (conj Hp1 Hp2)) as [D1 D2];
    [lra | exact Hrad | lra |].
  unfold storedSlack in D1, D2.
  split; [split; lra|]. split; [vm_compute; reflexivity|].
  split.
  { apply (centred_range (random (drawn s + 5)%nat) (literal 0.3) (literal 0.15));
      [apply random_range | vm_compute; discriminate | vm_compute; reflexivity
       | vm_compute; reflexivity | vm_compute; reflexivity]. }
  split.
  { apply (centred_range (random (drawn s + 6)%nat) (literal 0.3) (literal 0.15));
      [apply random_range | vm_compute; discriminate | vm_compute; reflexivity
       | vm_compute; reflexivity | vm_compute; reflexivity]. }
  split; [reflexivity|].
  pose proof (offset_range (literal 0.7) (random (drawn s + 2)%nat) (literal 0.6)
                (random_range _)) as [A1 A2];
    [vm_compute; discriminate | vm_compute; reflexivity
     | vm_compute; reflexivity |].
  assert (add (literal 0.7) (literal 0.6) <= literal 1.3) as E
    by (vm_compute; discriminate).
  split; lra.
Qed.

(** X22.  After the fern loop every instance either still has the matrix
    it had before the loop, or is a fern stored at a horizontal distance
    between 4.999999 and 90.001 from the origin and at height 0, scaled
    by a factor in [1, 2] along x and z and by 0.8 of it along y. *)
Theorem ferns_lie_in_a_ring
    (k0 : nat) (ferns : InstancedMesh) (j : nat) (m : Matrix4) :
  placed (placeFerns random Math_sin Math_cos Math_pow k0 (Some ferns)) !! j
    = Some m ->
  instanceMatrix ferns !! j = Some m
  \/ (distanceBetween 4.999999 90.001 m
      /\ height m = 0
      /\ exists s, (1 <= s /\ s <= 2)
                   /\ scaling m = vec s (mul s (literal 0.8)) s).
Proof.
  intros H.
  destruct (decide (j < fernCount)%nat) as [Hj|Hj].
  - destruct (decide (j < length (instanceMatrix ferns))%nat) as [Hl|Hl].
    + rewrite (placeFerns_lookup random Math_sin Math_cos Math_pow k0 ferns j
                 Hj Hl) in H.
      cbv zeta in H.
      set (k := drawn (fernStateAt random Math_sin Math_cos Math_pow k0 ferns j))
        in *.
      destruct (insideClearing (fernSample random Math_sin Math_cos Math_pow k))
        eqn:Ein; [left; exact H|].
      right. injection H as <-.
      unfold distanceBetween, squaredDistance, height.
      cbn [toFloat32 translation scaling vec vx vy vz].
      pose proof (stored_outside _ _
                    (eq_trans (f_equal insideClearing
                                 (eq_sym (surjective_pairing _))) Ein)) as Hlow.
      unfold fernSample in *. cbn [fst snd] in *.
      set (angle := mul (mul (random k) Math_PI) 2) in *.
      destruct (trig angle) as (Hs & Hc & Hp1 & Hp2).
      set (r := mul (Math_pow (random (k + 1)%nat) 0.5) 90) in *.
      assert (0 <= r /\ r <= 90) as Hrad.
      { destruct (random_range (k + 1)%nat) as [U1 U2].
        destruct (power (random (k + 1)%nat) 0.5 U1 U2) as [P1 P2];
          [reflexivity|].
        apply (round_range binary64); [discriminate | | |];
          [vm_compute; reflexivity | vm_compute; reflexivity |].
        split; lra. }
      pose proof (polar_stored (Math_sin angle) (Math_cos angle) r
                    0 90 Hs Hc (conj Hp1 Hp2)) as [_ D2];
        [lra | exact Hrad | lra |].
      unfold storedSlack in D2.
      split; [split; [exact Hlow | lra]|].
      split; [vm_compute; reflexivity|].
      eexists. split; [|reflexivity].
      apply (round_range binary64); [discriminate | | |];
        [vm_compute; reflexivity | vm_compute; reflexivity |].
      destruct (random_range (k + 2)%nat). split; lra.
    + exfalso. apply lookup_lt_Some in H.
      rewrite placeFerns_length in H. lia.
  - left. rewrite placeFerns_later in H by lia. exact H.
Qed.

Lemma icebergBody_colours (i : nat) (s : Loop) :
  Rooms.colours (mesh (icebergBody random Math_sin Math_cos i s))
  = <[i := {| hue := literal 0.55; saturation := literal 0.4;
              lightness := add (literal 0.9)
                             (mul (random (drawn s + 7)%nat) (literal 0.1)) |}]>
      (Rooms.colours (mesh s)).
Proof.
  unfold Rooms.colours. cbn. now rewrite length_insert.
Qed.

(** X23.  Every large iceberg is scaled by a factor in [3, 13] along x and
    z and by 0.6 of it along y, and is given a colour of hue 0.55,
    saturation 0.4 and a lightness between the number 0.9 and 1. *)
Theorem icebergs_are_flat_and_pale
    (k0 : nat) (ice : InstancedMesh) (i : nat) :
  (i < iceCount)%nat -> (i < length (instanceMatrix ice))%nat ->
  (i < length (Rooms.colours ice))%nat ->
  exists m c s,
    placed (placeIcebergs random Math_sin Math_cos k0 (Some ice)) !! i = Some m
    /\ scaling m = vec s (mul s (literal 0.6)) s /\ (3 <= s /\ s <= 13)
    /\ placedColours (placeIcebergs random Math_sin Math_cos k0 (Some ice)) !! i
       = Some c
    /\ hue c = literal 0.55 /\ saturation c = literal 0.4
    /\ (literal 0.9 <= lightness c /\ lightness c <= 1).
Proof.
  intros Hi Hm Hc.
  destruct (placeIcebergs_lookup random Math_sin Math_cos k0 ice i Hi Hm)
    as [k ->].
  eexists _, _, _. split; [reflexivity|].
  split; [reflexivity|].
  split.
  { cbn [toFloat32 scaling vec vx].
    pose proof (radius_range (random (k + 3)%nat) 3 10 (random_range _))
      as HS; lapply HS; [clear HS; intros HS | lra].
    destruct HS as [S1 S2]; [vm_compute; reflexivity ..|].
    split; lra. }
  split.
  { cbn [placeIcebergs placedColours].
    apply (forLoop_written (fun s => Rooms.colours (mesh s))
             (icebergBody random Math_sin Math_cos)
             (fun s => {| hue := literal 0.55; saturation := literal 0.4;
                          lightness :=
                            add (literal 0.9)
                              (mul (random (drawn s + 7)%nat) (literal 0.1)) |})
             icebergBody_colours iceCount (startLoop k0 ice) i Hi Hc). }
  cbn [hue saturation lightness].
  split; [reflexivity|]. split; [reflexivity|].
  match goal with
  | |- context [mul (random ?n) (literal 0.1)] =>
      pose proof (offset_range (literal 0.9) (random n) (literal 0.1)
                    (random_range n)) as [A1 A2];
        [vm_compute; discriminate | vm_compute; reflexivity
         | vm_compute; reflexivity |]
  end.
  assert (add (literal 0.9) (literal 0.1) == 1) as E
    by (vm_compute; reflexivity).
  split; lra.
Qed.

End Loops.

(** X25.  A placement loop neither grows nor shrinks the mesh it is
    given, whatever its number of instances, and leaves the instances
    from the loop count on as they were; without a mesh it does
    nothing. *)
Theorem placement_stays_in_bounds
    (random : nat -> number) (Math_sin Math_cos : number -> number)
    (Math_pow : number -> number -> number)
    (k0 : nat) (m0 : InstancedMesh) (j : nat) :
  length (placed (placeIcebergs random Math_sin Math_cos k0 (Some m0)))
    = length (instanceMatrix m0)
  /\ length (placed (placeChunks random Math_sin Math_cos k0 (Some m0)))
     = length (instanceMatrix m0)
  /\ length (placed (placeFerns random Math_sin Math_cos Math_pow k0 (Some m0)))
     = length (instanceMatrix m0)
  /\ ((iceCount <= j)%nat ->
      placed (placeIcebergs random Math_sin Math_cos k0 (Some m0)) !! j
      = instanceMatrix m0 !! j)
  /\ ((chunkCount <= j)%nat ->
      placed (placeChunks random Math_sin Math_cos k0 (Some m0)) !! j
      = instanceMatrix m0 !! j)
  /\ ((fernCount <= j)%nat ->
      placed (placeFerns random Math_sin Math_cos Math_pow k0 (Some m0)) !! j
      = instanceMatrix m0 !! j)
  /\ placeIcebergs random Math_sin Math_cos k0 None = None
  /\ placeChunks random Math_sin Math_cos k0 None = None
  /\ placeFerns random Math_sin Math_cos Math_pow k0 None = None.
Proof.
  split; [cbn [placeIcebergs placed];
          now rewrite (forLoop_length _
                         (icebergBody_length random Math_sin Math_cos))|].
  split; [cbn [placeChunks placed];
          now rewrite (forLoop_length _
                         (chunkBody_length random Math_sin Math_cos))|].
  split; [apply placeFerns_length|].
  split; [intros H; cbn [placeIcebergs placed];
          now rewrite (forLoop_later_slots _
                         (icebergBody_ownSlot random Math_sin Math_cos)) by lia|].
  split; [intros H; cbn [placeChunks placed];
          now rewrite (forLoop_later_slots _
                         (chunkBody_ownSlot random Math_sin Math_cos)) by lia|].
  split; [apply placeFerns_later|].
  repeat split.
Qed.

(** *** The hypotheses hold in the session at hand *)

Lemma quarter_draws : unitInterval (draws [0.125; 0.25; 0.5; 0.75]).
Proof.
  apply draws_range. repeat constructor; vm_compute; discriminate || reflexivity.
Qed.

Lemma placement_stays_in_bounds_witness :
  placed (placeIcebergs (draws [0.125; 0.25; 0.5; 0.75]) sinAt cosAt 0
            (Some (newInstancedMesh 60))) !! 55%nat
  = Some identity.
Proof.
  destruct (placement_stays_in_bounds (draws [0.125; 0.25; 0.5; 0.75])
              sinAt cosAt powHalf 0 (newInstancedMesh 60) 55)
    as (_ & _ & _ & H & _).
  rewrite H by (unfold iceCount; lia). reflexivity.
Defined.

Lemma foliage_sits_on_its_trunk_witness :
  exists loop trunk leaves,
    placeTrees (draws [0.125; 0.25; 0.5; 0.75]) sinAt cosAt 0
      (Some (newInstancedMesh treeCount))
      (Some (newInstancedMesh treeCount)) = Some loop
    /\ instanceMatrix (trunks loop) !! 0%nat = Some trunk
    /\ instanceMatrix (foliage loop) !! 0%nat = Some leaves
    /\ distanceBetween 19.999 90.001 trunk
    /\ height trunk = 10
    /\ (18 <= height leaves /\ height leaves <= 27).
Proof.
  destruct (foliage_sits_on_its_trunk (draws [0.125; 0.25; 0.5; 0.75])
              sinAt cosAt quarter_draws sinAt_cosAt_accurate 0
              (newInstancedMesh treeCount) (newInstancedMesh treeCount) 0)
    as (_ & _ & loop & trunk & leaves & H1 & H2 & H3 & H4 & H5 & _ & _ & _
        & H9 & _);
    [unfold treeCount; lia | cbn; lia | cbn; lia |].
  exists loop, trunk, leaves.
  exact (conj H1 (conj H2 (conj H3 (conj H4 (conj H5 H9))))).
Defined.

Lemma rain_starts_inside_the_box_witness :
  exists loop drop,
    placeRain (draws [0.125; 0.25; 0.5; 0.75]) 0
      (Some (newInstancedMesh rainCount)) = Some loop
    /\ instanceMatrix (drops loop) !! 0%nat = Some drop
    /\ (0 <= height drop /\ height drop <= 40).
Proof.
  assert (0 < rainCount)%nat as Hc by (unfold rainCount; lia).
  destruct (rain_starts_inside_the_box (draws [0.125; 0.25; 0.5; 0.75])
              quarter_draws 0 (newInstancedMesh rainCount) 0 Hc)
    as (loop & drop & speed & opacity & H1 & H2 & _ & H4 & _).
  { cbn [newInstancedMesh instanceMatrix]. now rewrite length_replicate. }
  exists loop, drop. exact (conj H1 (conj H2 H4)).
Defined.

Lemma desert_placement_ranges_witness :
  exists loop rock,
    placeRocks (draws [0.125; 0.25; 0.5; 0.75]) sinAt cosAt 0
      (Some (newInstancedMesh rockCount)) = Some loop
    /\ instanceMatrix (mesh loop) !! 0%nat = Some rock
    /\ distanceBetween 9.999 90.001 rock
    /\ height rock = fround (literal 0.2).
Proof.
  destruct (desert_placement_ranges (draws [0.125; 0.25; 0.5; 0.75])
              sinAt cosAt quarter_draws sinAt_cosAt_accurate 0 300
              (newInstancedMesh rockCount) (newInstancedMesh bushCount) 0 0)
    as [(loop & rock & H1 & H2 & H3 & H4 & _) _];
    [unfold rockCount; lia | cbn; lia | unfold bushCount; lia | cbn; lia |].
  exists loop, rock. exact (conj H1 (conj H2 (conj H3 H4))).
Defined.

Lemma grass_keeps_the_clearance_witness :
  exists loop blade,
    placeGrass (draws [0.125; 0.25; 0.5; 0.75]) sinAt cosAt powHalf 0
      (Some (newInstancedMesh grassCount)) = Some loop
    /\ instanceMatrix (mesh loop) !! 0%nat = Some blade
    /\ distanceBetween 3.999 90.001 blade.
Proof.
  assert (0 < grassCount)%nat as Hc by (unfold grassCount; lia).
  destruct (grass_keeps_the_clearance (draws [0.125; 0.25; 0.5; 0.75])
              sinAt cosAt powHalf quarter_draws sinAt_cosAt_accurate
              powHalf_unitPower 0 (newInstancedMesh grassCount) 0 Hc)
    as (loop & blade & H1 & H2 & H3 & _).
  { cbn [newInstancedMesh instanceMatrix]. now rewrite length_replicate. }
  exists loop, blade. exact (conj H1 (conj H2 H3)).
Defined.

Lemma ferns_lie_in_a_ring_witness :
  exists m,
    placed (placeFerns (draws [0.125; 0.25; 0.5; 0.75]) sinAt cosAt powHalf 0
              (Some (newInstancedMesh fernCount))) !! 0%nat = Some m
    /\ distanceBetween 4.999999 90.001 m
    /\ height m = 0.
Proof.
  assert (0 < fernCount)%nat as H0 by (unfold fernCount; lia).
  assert (0 < length (instanceMatrix (newInstancedMesh fernCount)))%nat as Hl
    by (cbn [newInstancedMesh instanceMatrix]; rewrite length_replicate;
        exact H0).
  pose proof (placeFerns_lookup (draws [0.125; 0.25; 0.5; 0.75]) sinAt cosAt
                powHalf 0 (newInstancedMesh fernCount) 0 H0 Hl) as L.
  cbv zeta in L.
  change (fernStateAt (draws [0.125; 0.25; 0.5; 0.75]) sinAt cosAt powHalf 0
            (newInstancedMesh fernCount) 0)
    with (startLoop 0 (newInstancedMesh fernCount)) in L.
  cbn [startLoop drawn] in L.
  replace (insideClearing
             (fernSample (draws [0.125; 0.25; 0.5; 0.75]) sinAt cosAt powHalf 0))
    with false in L by (vm_compute; reflexivity).
  destruct (ferns_lie_in_a_ring (draws [0.125; 0.25; 0.5; 0.75]) sinAt cosAt
              powHalf quarter_draws sinAt_cosAt_accurate powHalf_unitPower
              0 (newInstancedMesh fernCount) 0 _ L) as [Hk | (Hd & Hh & _)].
  - exfalso. cbn [newInstancedMesh instanceMatrix] in Hk.
    apply lookup_replicate_1 in Hk as [E _].
    apply (f_equal (fun m => vx (translation m))) in E.
    vm_compute in E. discriminate E.
  - eexists. split; [exact L|]. split; [exact Hd | exact Hh].
Defined.

Lemma icebergs_are_flat_and_pale_witness :
  exists m c,
    placed (placeIcebergs (draws [0.125; 0.25; 0.5; 0.75]) sinAt cosAt 0
              (Some (newInstancedMesh iceCount))) !! 0%nat = Some m
    /\ placedColours
         (placeIcebergs (draws [0.125; 0.25; 0.5; 0.75]) sinAt cosAt 0
            (Some (newInstancedMesh iceCount))) !! 0%nat = Some c
    /\ (literal 0.9 <= lightness c /\ lightness c <= 1).
Proof.
  destruct (icebergs_are_flat_and_pale (draws [0.125; 0.25; 0.5; 0.75])
              sinAt cosAt quarter_draws 0 (newInstancedMesh iceCount) 0)
    as (m & c & s & H1 & _ & _ & H4 & _ & _ & H7);
    [unfold iceCount; lia | cbn; lia | cbn; lia |].
  exists m, c. exact (conj H1 (conj H4 H7)).
Defined.

End RoomsProperties.
